(** * Calculator-Project: the math utilities and the calculator state machine

    A shallow embedding of [lib/mathUtils] (the pure numeric helpers and
    the converters), of the [AdvancedCalculator] component (formatting, the
    expression pre-processor, the event handlers and the two lines of the
    display) and of the sampling of the [GraphingTool] component, followed
    by the properties that the specification states about them (Part
    VIII) and by further properties of the code (Parts IX to XI).

    Conventions of the embedding.
    - A JavaScript string is the list of its UTF-16 code units.
    - A JavaScript number is [NaN], an infinity, or a finite value carried
      as an exact rational.  Arithmetic on finite values is exact: IEEE-754
      rounding, overflow and the sign of zero are not represented.  The
      special-value rules of [+ - * / %] and of the comparisons are.
    - Functions that the program imports from outside the repository
      ([evaluate] of mathjs, the transcendental functions of [Math]) are
      fields of the [Runtime] class; the parser of mathjs that the plotter
      calls is the field of the [Parser] class. *)

From Stdlib Require Import ZArith QArith Qround Qreduction Qabs.
From Stdlib Require Import List String Ascii Bool Lia Lqa Sorted.
Import ListNotations.

Set Implicit Arguments.

(* ================================================================== *)
(** ** Part I: the JavaScript values the program computes with         *)
(* ================================================================== *)

Module JS.

Local Open Scope Z_scope.

(** *** Strings *)

Definition codeunit := N.
Bind Scope N_scope with codeunit.
Definition jsstring := list codeunit.

(** An ASCII literal as a JavaScript string. *)
Definition str (s : string) : jsstring :=
  List.map N_of_ascii (list_ascii_of_string s).

Definition cu_eqb (a b : codeunit) : bool := N.eqb a b.

Fixpoint jsstring_eqb (a b : jsstring) : bool :=
  match a, b with
  | [], [] => true
  | x :: a', y :: b' => cu_eqb x y && jsstring_eqb a' b'
  | _, _ => false
  end.

Definition in_range (lo hi c : codeunit) : bool :=
  (N.leb lo c && N.leb c hi)%bool.

(** [\d], [[a-zA-Z]] and [\s] of the regular-expression dialect. *)
Definition is_digit (c : codeunit) : bool := in_range 48 57 c.

Definition is_letter (c : codeunit) : bool :=
  (in_range 65 90 c || in_range 97 122 c)%bool.

Definition is_space (c : codeunit) : bool :=
  (in_range 9 13 c || cu_eqb c 32 || cu_eqb c 160 || cu_eqb c 5760
   || in_range 8192 8202 c || cu_eqb c 8232 || cu_eqb c 8233
   || cu_eqb c 8239 || cu_eqb c 8287 || cu_eqb c 12288
   || cu_eqb c 65279)%bool.

Definition chr (a : ascii) : codeunit := N_of_ascii a.

(** The non-ASCII glyphs the calculator knows. *)
Definition MULTIPLICATION_SIGN : codeunit := 215%N.   (* U+00D7 *)
Definition DIVISION_SIGN : codeunit := 247%N.         (* U+00F7 *)
Definition SUPERSCRIPT_TWO : codeunit := 178%N.       (* U+00B2 *)
Definition GREEK_PI : codeunit := 960%N.              (* U+03C0 *)
Definition DEGREE_SIGN : codeunit := 176%N.           (* U+00B0 *)
Definition SQUARE_ROOT_SIGN : codeunit := 8730%N.     (* U+221A *)

(** [String.prototype.trim]. *)
Fixpoint trim_start (s : jsstring) : jsstring :=
  match s with
  | c :: s' => if is_space c then trim_start s' else s
  | [] => []
  end.

Definition trim (s : jsstring) : jsstring :=
  rev (trim_start (rev (trim_start s))).

(** [s.slice(0, -1)]. *)
Definition slice_drop_last (s : jsstring) : jsstring := removelast s.

(** *** Numbers *)

Inductive number : Type :=
| NaN
| PosInf
| NegInf
| Fin (q : Q).

(** Finite results are kept in lowest terms, so that equal values are
    equal terms. *)
Definition fin (q : Q) : number := Fin (Qred q).

Definition of_Z (z : Z) : number := Fin (inject_Z z).

Definition Qlt_bool (x y : Q) : bool := negb (Qle_bool y x).

Definition isNaN (a : number) : bool :=
  match a with NaN => true | _ => false end.

Definition isFinite (a : number) : bool :=
  match a with Fin _ => true | _ => false end.

(** [a < b]; false as soon as one side is [NaN]. *)
Definition lt (a b : number) : bool :=
  match a, b with
  | NaN, _ | _, NaN => false
  | Fin x, Fin y => Qlt_bool x y
  | NegInf, NegInf => false
  | NegInf, _ => true
  | _, NegInf => false
  | PosInf, _ => false
  | Fin _, PosInf => true
  end.

Definition gt (a b : number) : bool := lt b a.

(** [a <= b] is not the negation of [b < a]: both are false on [NaN]. *)
Definition le (a b : number) : bool :=
  match a, b with
  | NaN, _ | _, NaN => false
  | Fin x, Fin y => Qle_bool x y
  | NegInf, _ => true
  | _, PosInf => true
  | _, _ => false
  end.

(** [a === b] on numbers. *)
Definition strict_eq (a b : number) : bool :=
  match a, b with
  | Fin x, Fin y => Qeq_bool x y
  | PosInf, PosInf => true
  | NegInf, NegInf => true
  | _, _ => false
  end.

Definition neg (a : number) : number :=
  match a with
  | NaN => NaN
  | PosInf => NegInf
  | NegInf => PosInf
  | Fin x => fin (- x)
  end.

Definition add (a b : number) : number :=
  match a, b with
  | NaN, _ | _, NaN => NaN
  | PosInf, NegInf | NegInf, PosInf => NaN
  | PosInf, _ | _, PosInf => PosInf
  | NegInf, _ | _, NegInf => NegInf
  | Fin x, Fin y => fin (x + y)
  end.

Definition sub (a b : number) : number := add a (neg b).

(** An infinity carrying the sign of the rational [x] (which is not 0). *)
Definition inf_of_sign (x : Q) : number :=
  if Qlt_bool x 0 then NegInf else PosInf.

Definition mul (a b : number) : number :=
  match a, b with
  | NaN, _ | _, NaN => NaN
  | Fin x, Fin y => fin (x * y)
  | PosInf, PosInf | NegInf, NegInf => PosInf
  | PosInf, NegInf | NegInf, PosInf => NegInf
  | PosInf, Fin y | Fin y, PosInf =>
      if Qeq_bool y 0 then NaN else inf_of_sign y
  | NegInf, Fin y | Fin y, NegInf =>
      if Qeq_bool y 0 then NaN else inf_of_sign (- y)
  end.

(** Division.  A finite non-zero value over zero is an infinity with the
    sign of the dividend (zero is taken as [+0]). *)
Definition div (a b : number) : number :=
  match a, b with
  | NaN, _ | _, NaN => NaN
  | Fin x, Fin y =>
      if Qeq_bool y 0
      then (if Qeq_bool x 0 then NaN else inf_of_sign x)
      else fin (x / y)
  | Fin _, (PosInf | NegInf) => fin 0
  | (PosInf | NegInf), (PosInf | NegInf) => NaN
  | PosInf, Fin y => inf_of_sign (if Qeq_bool y 0 then 1 else y)
  | NegInf, Fin y => inf_of_sign (if Qeq_bool y 0 then - (1) else - y)
  end.

(** Truncation towards zero of a rational. *)
Definition Qtrunc (x : Q) : Z :=
  if Qlt_bool x 0 then - Qfloor (- x) else Qfloor x.

(** The remainder [a % b]: it has the sign of the dividend. *)
Definition rem (a b : number) : number :=
  match a, b with
  | NaN, _ | _, NaN => NaN
  | (PosInf | NegInf), _ => NaN
  | Fin x, (PosInf | NegInf) => Fin x
  | Fin x, Fin y =>
      if Qeq_bool y 0 then NaN
      else fin (x - y * inject_Z (Qtrunc (x / y)))
  end.

Definition Math_floor (a : number) : number :=
  match a with
  | Fin x => of_Z (Qfloor x)
  | _ => a
  end.

(** [Math.round]: the nearest integer, a tie going up. *)
Definition Math_round (a : number) : number :=
  match a with
  | Fin x => of_Z (Qfloor (x + (1 # 2)))
  | _ => a
  end.

Definition Math_abs (a : number) : number :=
  match a with
  | NaN => NaN
  | PosInf | NegInf => PosInf
  | Fin x => fin (Qabs x)
  end.

Definition Number_isInteger (a : number) : bool :=
  match a with
  | Fin x => Qeq_bool x (inject_Z (Qfloor x))
  | _ => false
  end.

(** *** Numbers to strings *)

(** The decimal digits of a positive integer, most significant first,
    produced the way the program's own conversion loops do it: the last
    digit is [m mod 10] and the others are the digits of [m / 10]. *)
Fixpoint digits_loop (fuel : nat) (radix m : Z) (acc : list Z) : list Z :=
  match fuel with
  | O => acc
  | S fuel' =>
      if m <=? 0 then acc
      else digits_loop fuel' radix (m / radix) (m mod radix :: acc)
  end.

Definition digits_of (radix m : Z) : list Z :=
  digits_loop (S (Z.to_nat (Z.log2 m))) radix m [].

Definition digit_char (d : Z) : codeunit :=
  if d <? 10 then Z.to_N (48 + d) else Z.to_N (87 + d).

Definition decimal_digits (m : Z) : jsstring :=
  List.map digit_char (digits_of 10 m).

(** How many fractional digits are tried before an expansion is cut.  A
    finite double has an exact, finite decimal expansion; a rational
    without one (such as 1/3) is cut here, where JavaScript would print the
    shortest digits that identify the double. *)
Definition MAX_FRACTION_DIGITS : nat := 40.

(** [scale_to_integer fuel x f]: multiply [x] by ten until it is an
    integer, counting the steps in [f]. *)
Fixpoint scale_to_integer (fuel : nat) (x : Q) (f : Z) : Z * Z :=
  match fuel with
  | O => (Qfloor x, f)
  | S fuel' =>
      if Qeq_bool x (inject_Z (Qfloor x)) then (Qfloor x, f)
      else scale_to_integer fuel' (Qred (x * inject_Z 10)) (f + 1)
  end.

(** [strip_zeros fuel m e]: drop the trailing zeros of [m], counting them
    in [e]. *)
Fixpoint strip_zeros (fuel : nat) (m e : Z) : Z * Z :=
  match fuel with
  | O => (m, e)
  | S fuel' =>
      if (0 <? m) && (m mod 10 =? 0) then strip_zeros fuel' (m / 10) (e + 1)
      else (m, e)
  end.

(** For [x > 0]: the integers [s] and [e] with [x = s * 10^e] and [s] not
    a multiple of ten. *)
Definition shortest_decimal (x : Q) : Z * Z :=
  let '(m, f) := scale_to_integer MAX_FRACTION_DIGITS x 0 in
  strip_zeros (S (Z.to_nat (Z.log2 m))) m (- f).

Definition zeros (n : Z) : jsstring := repeat (chr "0") (Z.to_nat n).

(** [Number::toString] on a positive finite value (ECMA-262, 6.1.6.1.20,
    radix ten). *)
Definition positive_toString (x : Q) : jsstring :=
  let '(s, e) := shortest_decimal x in
  let ds := decimal_digits s in
  let k := Z.of_nat (List.length ds) in
  let n := k + e in
  if (k <=? n) && (n <=? 21) then
    ds ++ zeros (n - k)
  else if (0 <? n) && (n <=? 21) then
    firstn (Z.to_nat n) ds ++ chr "." :: skipn (Z.to_nat n) ds
  else if (-6 <? n) && (n <=? 0) then
    str "0." ++ zeros (- n) ++ ds
  else
    let ex := n - 1 in
    let sign := if ex <? 0 then chr "-" else chr "+" in
    let mant :=
      if k =? 1 then ds
      else firstn 1 ds ++ chr "." :: skipn 1 ds in
    mant ++ chr "e" :: sign :: decimal_digits (Z.abs ex).

(** [String(x)], [x.toString()] and the conversion that [+] and template
    literals apply to a number. *)
Definition Number_toString (a : number) : jsstring :=
  match a with
  | NaN => str "NaN"
  | PosInf => str "Infinity"
  | NegInf => str "-Infinity"
  | Fin x =>
      if Qeq_bool x 0 then str "0"
      else if Qlt_bool x 0 then chr "-" :: positive_toString (- x)
      else positive_toString x
  end.

(** [x.toFixed(f)] (ECMA-262, 21.1.3.3). *)
Definition toFixed (f : nat) (a : number) : jsstring :=
  match a with
  | Fin x0 =>
      let s := if Qlt_bool x0 0 then [chr "-"] else [] in
      let x := Qabs x0 in
      let m :=
        if Qle_bool (inject_Z (10 ^ 21)) x then Number_toString (Fin x)
        else
          let n := Qfloor (x * inject_Z (10 ^ Z.of_nat f) + (1 # 2)) in
          let m := if n =? 0 then str "0" else decimal_digits n in
          match f with
          | O => m
          | _ =>
              let k := List.length m in
              let m := if (k <=? f)%nat
                       then repeat (chr "0") (f + 1 - k) ++ m else m in
              let k := List.length m in
              firstn (k - f) m ++ chr "." :: skipn (k - f) m
          end in
      s ++ m
  | _ => Number_toString a
  end.

(** *** Strings to numbers *)

Fixpoint take_while (p : codeunit -> bool) (s : jsstring) : jsstring :=
  match s with
  | c :: s' => if p c then c :: take_while p s' else []
  | [] => []
  end.

Fixpoint drop_while (p : codeunit -> bool) (s : jsstring) : jsstring :=
  match s with
  | c :: s' => if p c then drop_while p s' else s
  | [] => []
  end.

(** The value of a character as a digit (letters count from ten, in
    either case), or [None]. *)
Definition digit_value (c : codeunit) : option Z :=
  if in_range 48 57 c then Some (Z.of_N c - 48)
  else if in_range 97 122 c then Some (Z.of_N c - 87)
  else if in_range 65 90 c then Some (Z.of_N c - 55)
  else None.

Definition is_radix_digit (radix : Z) (c : codeunit) : bool :=
  match digit_value c with
  | Some d => d <? radix
  | None => false
  end.

(** Positional value of a run of digits, left to right. *)
Definition positional_value (radix : Z) (s : jsstring) : Z :=
  fold_left
    (fun acc c => acc * radix + match digit_value c with
                                | Some d => d
                                | None => 0
                                end) s 0.

Definition strip_sign (s : jsstring) : bool * jsstring :=
  match s with
  | c :: s' =>
      if cu_eqb c (chr "-") then (true, s')
      else if cu_eqb c (chr "+") then (false, s')
      else (false, s)
  | [] => (false, [])
  end.

Definition strip_hex_prefix (s : jsstring) : jsstring :=
  match s with
  | c0 :: cx :: s' =>
      if cu_eqb c0 (chr "0") && (cu_eqb cx (chr "x") || cu_eqb cx (chr "X"))
      then s' else s
  | _ => s
  end.

(** [parseInt(s, radix)] for a radix between 2 and 36. *)
Definition parseInt (s : jsstring) (radix : Z) : number :=
  let '(negative, s1) := strip_sign (trim_start s) in
  let s2 := if radix =? 16 then strip_hex_prefix s1 else s1 in
  let ds := take_while (is_radix_digit radix) s2 in
  match ds with
  | [] => NaN
  | _ =>
      let v := positional_value radix ds in
      of_Z (if negative then - v else v)
  end.

(** The exponent part [e[+-]ddd] of a decimal literal, when well formed. *)
Definition parse_exponent (s : jsstring) : Z :=
  match s with
  | c :: s' =>
      if cu_eqb c (chr "e") || cu_eqb c (chr "E") then
        let '(negative, s2) := strip_sign s' in
        let ds := take_while is_digit s2 in
        match ds with
        | [] => 0
        | _ => let v := positional_value 10 ds in
               if negative then - v else v
        end
      else 0
  | [] => 0
  end.

Definition Qpow10 (e : Z) : Q :=
  if e <? 0 then 1 / inject_Z (10 ^ (- e)) else inject_Z (10 ^ e).

(** [parseFloat(s)]: the longest prefix that is a decimal literal (the
    literal [Infinity] is not recognised). *)
Definition parseFloat (s : jsstring) : number :=
  let '(negative, s1) := strip_sign (trim_start s) in
  let ip := take_while is_digit s1 in
  let r1 := drop_while is_digit s1 in
  let '(fp, r2) :=
    match r1 with
    | c :: r =>
        if cu_eqb c (chr ".")
        then (take_while is_digit r, drop_while is_digit r)
        else ([], r1)
    | [] => ([], [])
    end in
  match ip, fp with
  | [], [] => NaN
  | _, _ =>
      let mant :=
        (inject_Z (positional_value 10 ip)
         + inject_Z (positional_value 10 fp)
           / inject_Z (10 ^ Z.of_nat (List.length fp)))%Q in
      let v := (mant * Qpow10 (parse_exponent r2))%Q in
      fin (if negative then - v else v)
  end.

(** [s[i]] with a number as the key: the code unit at that index, or
    [None] for [undefined]. *)
Definition string_index (s : jsstring) (i : number) : option codeunit :=
  match i with
  | Fin x =>
      if Number_isInteger i && Qle_bool 0 x
      then nth_error s (Z.to_nat (Qfloor x)) else None
  | _ => None
  end.

(** [v + s] where [v] is a code unit or [undefined]. *)
Definition concat_indexed (v : option codeunit) (s : jsstring) : jsstring :=
  match v with
  | Some c => c :: s
  | None => str "undefined" ++ s
  end.

End JS.

Import JS.

(* ================================================================== *)
(** ** Part II: regular expressions, as far as the program uses them   *)
(* ================================================================== *)

Module Regex.

(** The patterns of the program are built from character classes, the
    greedy quantifiers [*] and [+] on a class, concatenation, an optional
    group and numbered capture groups. *)
Inductive regex : Type :=
| Cls (p : codeunit -> bool)
| Star (p : codeunit -> bool)
| Plus (p : codeunit -> bool)
| Seq (r1 r2 : regex)
| Opt (r : regex)
| Group (i : nat) (r : regex).

Definition captures := list (nat * jsstring).

Definition capture (i : nat) (cs : captures) : jsstring :=
  match find (fun c => Nat.eqb (fst c) i) cs with
  | Some c => snd c
  | None => []
  end.

Section Matcher.

Variable A : Type.

Definition cont := jsstring -> captures -> option A.

(** [p*], greedy: the longest run first, then shorter ones while the rest
    of the pattern fails. *)
Fixpoint match_star (p : codeunit -> bool) (s : jsstring) (cs : captures)
    (k : cont) : option A :=
  match s with
  | c :: s' =>
      if p c then
        match match_star p s' cs k with
        | Some x => Some x
        | None => k s cs
        end
      else k s cs
  | [] => k [] cs
  end.

(** The backtracking matcher: [k] is the rest of the pattern. *)
Fixpoint rmatch (r : regex) (s : jsstring) (cs : captures) (k : cont)
    : option A :=
  match r with
  | Cls p =>
      match s with
      | c :: s' => if p c then k s' cs else None
      | [] => None
      end
  | Star p => match_star p s cs k
  | Plus p =>
      match s with
      | c :: s' => if p c then match_star p s' cs k else None
      | [] => None
      end
  | Seq r1 r2 => rmatch r1 s cs (fun s1 c1 => rmatch r2 s1 c1 k)
  | Opt r1 =>
      match rmatch r1 s cs k with
      | Some x => Some x
      | None => k s cs
      end
  | Group i r1 =>
      rmatch r1 s cs
        (fun s1 c1 =>
           k s1 ((i, firstn (List.length s - List.length s1) s) :: c1))
  end.

End Matcher.

(** A match at the start of [s]: the matched text, the captures and the
    rest of the string. *)
Definition exec (r : regex) (s : jsstring)
    : option (jsstring * captures * jsstring) :=
  rmatch r s []
    (fun rest cs =>
       Some (firstn (List.length s - List.length rest) s, cs, rest)).

(** [/^r$/.test(s)]. *)
Definition test_anchored (r : regex) (s : jsstring) : bool :=
  match rmatch r s []
          (fun rest _ => match rest with [] => Some tt | _ => None end) with
  | Some _ => true
  | None => false
  end.

(** [s.replace(/r/g, f)]: scan from the left; at a match emit
    [f matched captures] and resume after the match ([skip] counts the
    code units of the current match that are still to be passed over); an
    empty match advances by one code unit. *)
Fixpoint replace_from (r : regex) (f : jsstring -> captures -> jsstring)
    (skip : nat) (s : jsstring) : jsstring :=
  match s with
  | [] =>
      match skip, exec r [] with
      | O, Some (m, cs, _) => f m cs
      | _, _ => []
      end
  | c :: s' =>
      match skip with
      | S skip' => replace_from r f skip' s'
      | O =>
          match exec r s with
          | Some (m, cs, _) =>
              f m cs ++
              match List.length m with
              | O => c :: replace_from r f 0 s'
              | S n => replace_from r f n s'
              end
          | None => c :: replace_from r f 0 s'
          end
      end
  end.

Definition replace_all (r : regex) (f : jsstring -> captures -> jsstring)
    (s : jsstring) : jsstring :=
  replace_from r f 0 s.

(** A single literal code unit. *)
Definition Lit (c : codeunit) : regex := Cls (cu_eqb c).

(** The result of a match, seen from a string that continues with [t]. *)
Definition extend_match (t : jsstring)
    (o : option (jsstring * captures * jsstring))
    : option (jsstring * captures * jsstring) :=
  match o with
  | Some (m, cs, rest) => Some (m, cs, rest ++ t)
  | None => None
  end.

End Regex.

(* ================================================================== *)
(** ** Part III: what the program imports                              *)
(* ================================================================== *)

(** The functions the repository calls but does not define.
    [mathjs_evaluate s] stands for [Number(evaluate(s))] of mathjs, [None]
    meaning that [evaluate] threw.  [stack_limit] is the number of nested
    calls the engine allows before it throws a [RangeError]. *)
Class Runtime : Type := {
  mathjs_evaluate : jsstring -> option number;
  Math_sin : number -> number;
  Math_cos : number -> number;
  Math_tan : number -> number;
  Math_sqrt : number -> number;
  Math_exp : number -> number;
  Math_pow : number -> number -> number;
  Math_PI : number;
  stack_limit : nat
}.

(* ================================================================== *)
(** ** Part IV: lib/mathUtils                                          *)
(* ================================================================== *)

Module MathUtils.

(** *** Notifications

    Every failure is reported through [toast.error] or [toast.info] before
    the sentinel is returned.  The messages are named here by what they
    say. *)
Inductive message : Type :=
| DivisorIsZero            (* divide *)
| FactorialNeedsNonNegInt  (* factorial *)
| SqrtNeedsNonNeg          (* squareRoot *)
| ReciprocalOfZero         (* reciprocal *)
| TanUndefinedHere         (* tan *)
| CotUndefinedHere         (* cotan *)
| InfinitelyManySolutions  (* solveLinearEquation *)
| NoSolution               (* solveLinearEquation *)
| NotQuadratic             (* solveQuadraticEquation *)
| NoRealRoots              (* solveQuadraticEquation *)
| InvalidBinary            (* binaryToDecimal *)
| InvalidHex.              (* hexToDecimal *)

Inductive toast : Type :=
| ToastError (m : message)
| ToastInfo (m : message).

(** A computation that posts notifications: its value and what it
    posted, in order. *)
Definition Toasting (A : Type) : Type := (A * list toast)%type.

Definition ret {A} (a : A) : Toasting A := (a, []).

Definition bind {A B} (m : Toasting A) (f : A -> Toasting B) : Toasting B :=
  let '(a, l1) := m in
  let '(b, l2) := f a in
  (b, l1 ++ l2).

Definition toast_error (m : message) : Toasting unit := (tt, [ToastError m]).
Definition toast_info (m : message) : Toasting unit := (tt, [ToastInfo m]).

Definition value {A} (m : Toasting A) : A := fst m.
Definition posted {A} (m : Toasting A) : list toast := snd m.

Notation "m ;; k" := (bind m (fun _ => k))
  (at level 61, right associativity).

Section WithRuntime.

Context {RT : Runtime}.

Definition add (a b : number) : number := JS.add a b.
Definition subtract (a b : number) : number := JS.sub a b.
Definition multiply (a b : number) : number := JS.mul a b.

Definition divide (a b : number) : Toasting number :=
  if strict_eq b (of_Z 0) then toast_error DivisorIsZero ;; ret NaN
  else ret (JS.div a b).

(** [factorial].  [depth] is the number of nested calls still available;
    [None] is the [RangeError] of an exhausted call stack. *)
Fixpoint factorial (depth : nat) (n : number) : option (Toasting number) :=
  match depth with
  | O => None
  | S depth' =>
      if lt n (of_Z 0) then
        Some (toast_error FactorialNeedsNonNegInt ;; ret NaN)
      else if strict_eq n (of_Z 0) || strict_eq n (of_Z 1) then
        Some (ret (of_Z 1))
      else
        match factorial depth' (sub n (of_Z 1)) with
        | Some r => Some (bind r (fun v => ret (mul n v)))
        | None => None
        end
  end.

Definition power (base exponent : number) : number := Math_pow base exponent.

Definition squareRoot (n : number) : Toasting number :=
  if lt n (of_Z 0) then toast_error SqrtNeedsNonNeg ;; ret NaN
  else ret (Math_sqrt n).

Definition reciprocal (n : number) : Toasting number :=
  if strict_eq n (of_Z 0) then toast_error ReciprocalOfZero ;; ret NaN
  else ret (JS.div (of_Z 1) n).

Definition sin (x : number) : number := Math_sin x.
Definition cos (x : number) : number := Math_cos x.

Definition tan (x : number) : Toasting number :=
  let result := Math_tan x in
  if gt (Math_abs result) (of_Z (10 ^ 15)) then
    toast_error TanUndefinedHere ;; ret NaN
  else ret result.

Definition cotan (x : number) : Toasting number :=
  let tanValue := Math_tan x in
  if lt (Math_abs tanValue) (Fin (1 # 10 ^ 15))
     || gt (Math_abs tanValue) (of_Z (10 ^ 15)) then
    toast_error CotUndefinedHere ;; ret NaN
  else ret (JS.div (of_Z 1) tanValue).

(** [a*x + b = 0]; [None] is [null]. *)
Definition solveLinearEquation (a b : number) : Toasting (option number) :=
  if strict_eq a (of_Z 0) then
    if strict_eq b (of_Z 0) then
      toast_info InfinitelyManySolutions ;; ret None
    else toast_info NoSolution ;; ret None
  else ret (Some (JS.div (neg b) a)).

Record roots : Type := { x1 : number; x2 : number }.

(** [a*x^2 + b*x + c = 0]; [None] is [null]. *)
Definition solveQuadraticEquation (a b c : number) : Toasting (option roots) :=
  if strict_eq a (of_Z 0) then toast_error NotQuadratic ;; ret None
  else
    let discriminant := sub (mul b b) (mul (mul (of_Z 4) a) c) in
    if lt discriminant (of_Z 0) then toast_info NoRealRoots ;; ret None
    else if strict_eq discriminant (of_Z 0) then
      let x := JS.div (neg b) (mul (of_Z 2) a) in
      ret (Some {| x1 := x; x2 := x |})
    else
      let sqrtDiscriminant := Math_sqrt discriminant in
      ret (Some {| x1 := JS.div (JS.add (neg b) sqrtDiscriminant)
                                (mul (of_Z 2) a);
                   x2 := JS.div (sub (neg b) sqrtDiscriminant)
                                (mul (of_Z 2) a) |}).

End WithRuntime.

(** *** Base conversion *)

(** The loop [while (n > 0) { binary = (n % 2) + binary;
    n = Math.floor(n / 2) }].  [fuel] bounds the iterations; [None] means
    that the loop was still running when it ran out. *)
Fixpoint binary_loop (fuel : nat) (n : number) (binary : jsstring)
    : option jsstring :=
  if gt n (of_Z 0) then
    match fuel with
    | O => None
    | S fuel' =>
        binary_loop fuel' (Math_floor (div n (of_Z 2)))
                    (Number_toString (rem n (of_Z 2)) ++ binary)
    end
  else Some binary.

(** [decimalToBinary]; [fuel] bounds the calls and loop iterations. *)
Fixpoint decimalToBinary (fuel : nat) (num : number) : option jsstring :=
  match fuel with
  | O => None
  | S fuel' =>
      if lt num (of_Z 0) then
        option_map (cons (chr "-")) (decimalToBinary fuel' (neg num))
      else if strict_eq num (of_Z 0) then Some (str "0")
      else binary_loop fuel' (Math_floor num) []
  end.

Definition hexDigits : jsstring := str "0123456789ABCDEF".

Fixpoint hex_loop (fuel : nat) (n : number) (hex : jsstring)
    : option jsstring :=
  if gt n (of_Z 0) then
    match fuel with
    | O => None
    | S fuel' =>
        hex_loop fuel' (Math_floor (div n (of_Z 16)))
                 (concat_indexed (string_index hexDigits (rem n (of_Z 16)))
                                 hex)
    end
  else Some hex.

Fixpoint decimalToHex (fuel : nat) (num : number) : option jsstring :=
  match fuel with
  | O => None
  | S fuel' =>
      if lt num (of_Z 0) then
        option_map (cons (chr "-")) (decimalToHex fuel' (neg num))
      else if strict_eq num (of_Z 0) then Some (str "0")
      else hex_loop fuel' (Math_floor num) []
  end.

Definition is_binary_digit (c : codeunit) : bool :=
  cu_eqb c (chr "0") || cu_eqb c (chr "1").

Definition is_hex_digit (c : codeunit) : bool :=
  in_range 48 57 c || in_range 65 70 c || in_range 97 102 c.

Definition binaryToDecimal (binary : jsstring) : Toasting number :=
  if negb (Regex.test_anchored (Regex.Plus is_binary_digit) binary) then
    toast_error InvalidBinary ;; ret NaN
  else ret (parseInt binary 2).

Definition hexToDecimal (hex : jsstring) : Toasting number :=
  if negb (Regex.test_anchored (Regex.Plus is_hex_digit) hex) then
    toast_error InvalidHex ;; ret NaN
  else ret (parseInt hex 16).

End MathUtils.

(* ================================================================== *)
(** ** Part V: the AdvancedCalculator component                        *)
(* ================================================================== *)

Module Calculator.

Import Regex.

Inductive AngleMode : Type := deg | rad.

(** The five state variables of the component. *)
Record CalculatorState : Type := {
  input : jsstring;
  result : option jsstring;
  lastExpression : option jsstring;
  angleMode : AngleMode;
  justComputed : bool
}.

Definition initial : CalculatorState :=
  {| input := []; result := None; lastExpression := None;
     angleMode := deg; justComputed := false |}.

Definition setInput v (st : CalculatorState) :=
  {| input := v; result := result st; lastExpression := lastExpression st;
     angleMode := angleMode st; justComputed := justComputed st |}.
Definition setResult v (st : CalculatorState) :=
  {| input := input st; result := v; lastExpression := lastExpression st;
     angleMode := angleMode st; justComputed := justComputed st |}.
Definition setLastExpression v (st : CalculatorState) :=
  {| input := input st; result := result st; lastExpression := v;
     angleMode := angleMode st; justComputed := justComputed st |}.
Definition setAngleMode v (st : CalculatorState) :=
  {| input := input st; result := result st;
     lastExpression := lastExpression st;
     angleMode := v; justComputed := justComputed st |}.
Definition setJustComputed v (st : CalculatorState) :=
  {| input := input st; result := result st;
     lastExpression := lastExpression st;
     angleMode := angleMode st; justComputed := v |}.

(** The markers shown in the result line (the program's texts are
    Chinese; the names say what they mean). *)
Definition MSG_ERROR : jsstring := [38169; 35823]%N.
Definition MSG_INVALID_INPUT : jsstring := [36755; 20837; 26080; 25928]%N.
Definition MSG_NEED_NONNEG_INTEGER : jsstring :=
  [35831; 36755; 20837; 38750; 36127; 25972; 25968]%N.
Definition MSG_CALCULATION_ERROR : jsstring :=
  [35745; 31639; 38169; 35823]%N.
Definition MSG_INVALID_OR_DIV_BY_ZERO : jsstring :=
  [36755; 20837; 26080; 25928; 25110; 38500; 20197; 48]%N.

(** *** formatNumber *)

Definition formatNumber (num : number) : jsstring :=
  if negb (isFinite num) || isNaN num then str "NaN"
  else if lt (Math_abs (sub (Math_round num) num)) (Fin (1 # 10 ^ 12))
  then Number_toString (Math_round num)
  else Number_toString (parseFloat (toFixed 6 num)).

(** *** sanitizeExpressionForEval *)

Definition is_mul_rhs (c : codeunit) : bool :=
  is_letter c || cu_eqb c GREEK_PI || cu_eqb c (chr "(").

(** [/×/g], [/÷/g], [/²/g] and [/π/g]. *)
Definition RE_TIMES : regex := Lit MULTIPLICATION_SIGN.
Definition RE_DIVIDE : regex := Lit DIVISION_SIGN.
Definition RE_SQUARED : regex := Lit SUPERSCRIPT_TWO.
Definition RE_PI : regex := Lit GREEK_PI.

(** [/(\d)\s*([a-zA-Zπ(])/g]. *)
Definition RE_IMPLICIT_MUL : regex :=
  Seq (Group 1 (Cls is_digit))
      (Seq (Star is_space) (Group 2 (Cls is_mul_rhs))).

(** [/\)\s*\(/g]. *)
Definition RE_PAREN_PAREN : regex :=
  Seq (Lit (chr ")")) (Seq (Star is_space) (Lit (chr "("))).

(** [/(\d+(\.\d+)?)%/g]. *)
Definition RE_PERCENT : regex :=
  Seq (Group 1 (Seq (Plus is_digit)
                    (Opt (Group 2 (Seq (Lit (chr ".")) (Plus is_digit))))))
      (Lit (chr "%")).

Definition constant (t : jsstring) : jsstring -> captures -> jsstring :=
  fun _ _ => t.

Definition glyph_pass (e : jsstring) : jsstring :=
  replace_all RE_DIVIDE (constant (str "/"))
    (replace_all RE_TIMES (constant (str "*")) e).

Definition square_pass (e : jsstring) : jsstring :=
  replace_all RE_SQUARED (constant (str "^2")) e.

Definition implicit_mul_pass (e : jsstring) : jsstring :=
  replace_all RE_IMPLICIT_MUL
    (fun _ cs => capture 1 cs ++ chr "*" :: capture 2 cs) e.

Definition paren_pass (e : jsstring) : jsstring :=
  replace_all RE_PAREN_PAREN (constant (str ")*(")) e.

Definition pi_pass (e : jsstring) : jsstring :=
  replace_all RE_PI (constant (str "pi")) e.

Definition percent_pass (e : jsstring) : jsstring :=
  replace_all RE_PERCENT
    (fun _ cs => chr "(" :: capture 1 cs ++ str "/100)") e.

Definition sanitizeExpressionForEval (expr : jsstring) : jsstring :=
  match expr with
  | [] => expr
  | _ =>
      percent_pass
        (pi_pass
           (paren_pass
              (implicit_mul_pass
                 (square_pass
                    (glyph_pass expr)))))
  end.

Section WithRuntime.

Context {RT : Runtime}.

(** *** evaluateExpressionValue: a finite number, or [None] for [null] *)

Definition evaluateExpressionValue (expr : jsstring) : option number :=
  match mathjs_evaluate (sanitizeExpressionForEval expr) with
  | Some num => if negb (isFinite num) || isNaN num then None else Some num
  | None => None
  end.

(** *** The handlers *)

Definition is_operator_char (c : codeunit) : bool :=
  cu_eqb c (chr "+") || cu_eqb c (chr "-") || cu_eqb c (chr "*")
  || cu_eqb c (chr "/") || cu_eqb c (chr "%").

Definition is_digit_or_dot (c : codeunit) : bool :=
  in_range 48 57 c || cu_eqb c (chr ".").

Definition handleInput (value : jsstring) (st : CalculatorState)
    : CalculatorState :=
  let isOperator := test_anchored (Cls is_operator_char) value in
  let isDigitOrDotOrParen :=
    test_anchored (Cls is_digit_or_dot) value
    || jsstring_eqb value (str "(") || jsstring_eqb value (str ")") in
  let append :=
    setJustComputed false (setResult None (setInput (input st ++ value) st)) in
  if justComputed st then
    if isOperator then
      let base := match result st with Some r => r | None => input st end in
      setResult None (setJustComputed false (setInput (base ++ value) st))
    else if isDigitOrDotOrParen then
      setLastExpression None
        (setResult None (setJustComputed false (setInput value st)))
    else append
  else append.

Definition handleClear (st : CalculatorState) : CalculatorState :=
  setJustComputed false
    (setLastExpression None (setResult None (setInput [] st))).

Definition handleBackspace (st : CalculatorState) : CalculatorState :=
  if justComputed st then
    setJustComputed false
      (setLastExpression None (setResult None (setInput [] st)))
  else setInput (slice_drop_last (input st)) st.

Definition is_blank (s : jsstring) : bool :=
  match s with
  | [] => true
  | _ => jsstring_eqb (trim s) []
  end.

Definition handleEquals (st : CalculatorState) : CalculatorState :=
  if is_blank (input st) then
    setJustComputed false (setLastExpression None (setResult None st))
  else
    let originalExpr := input st in
    match evaluateExpressionValue originalExpr with
    | None =>
        setJustComputed true
          (setLastExpression (Some originalExpr)
             (setResult (Some MSG_ERROR) st))
    | Some value =>
        let formatted := formatNumber value in
        setJustComputed true
          (setInput formatted
             (setResult (Some formatted)
                (setLastExpression (Some originalExpr) st)))
    end.

Definition toggleAngleMode (st : CalculatorState) : CalculatorState :=
  setAngleMode (match angleMode st with deg => rad | rad => deg end) st.

(** What the success branch of every function handler does. *)
Definition show (label formatted : jsstring) (st : CalculatorState)
    : CalculatorState :=
  setJustComputed true
    (setInput formatted
       (setResult (Some formatted)
          (setLastExpression (Some label) st))).

(** What the [catch] branch of every function handler does. *)
Definition calculation_error (st : CalculatorState) : CalculatorState :=
  setJustComputed true (setResult (Some MSG_CALCULATION_ERROR) st).

(** [calculateTrigFunction(func, label)]: [func] returns [None] when it
    throws. *)
Definition calculateTrigFunction (func : number -> option number)
    (label : option jsstring) (st : CalculatorState) : CalculatorState :=
  match evaluateExpressionValue (input st) with
  | None =>
      setJustComputed true
        (setLastExpression None (setResult (Some MSG_INVALID_INPUT) st))
  | Some val =>
      let angle :=
        match angleMode st with
        | deg => div (mul val Math_PI) (of_Z 180)
        | rad => val
        end in
      match func angle with
      | Some out =>
          let formatted := formatNumber out in
          let exprLabel :=
            match label with
            | Some l => l
            | None => str "f(" ++ input st ++ str ")"
            end in
          show (exprLabel ++ chr "(" :: input st
                ++ match angleMode st with
                   | deg => [DEGREE_SIGN]
                   | rad => []
                   end ++ str ")")
               formatted st
      | None => calculation_error st
      end
  end.

(** [handleFactorial], over the utility it calls. *)
Definition handleFactorial_with
    (factorialUtil : number -> option (MathUtils.Toasting number))
    (st : CalculatorState) : CalculatorState :=
  match evaluateExpressionValue (input st) with
  | None =>
      setJustComputed true (setResult (Some MSG_NEED_NONNEG_INTEGER) st)
  | Some val =>
      if negb (Number_isInteger val) || lt val (of_Z 0) then
        setJustComputed true (setResult (Some MSG_NEED_NONNEG_INTEGER) st)
      else
        match factorialUtil val with
        | Some out =>
            show (Number_toString val ++ str "!")
                 (Number_toString (MathUtils.value out)) st
        | None => calculation_error st
        end
  end.

Definition handleFactorial : CalculatorState -> CalculatorState :=
  handleFactorial_with (MathUtils.factorial stack_limit).

Definition handleSquareRoot (st : CalculatorState) : CalculatorState :=
  match evaluateExpressionValue (input st) with
  | None => setJustComputed true (setResult (Some MSG_INVALID_INPUT) st)
  | Some val =>
      let out := MathUtils.value (MathUtils.squareRoot val) in
      show (SQUARE_ROOT_SIGN :: chr "(" :: input st ++ str ")")
           (formatNumber out) st
  end.

Definition handleReciprocal (st : CalculatorState) : CalculatorState :=
  match evaluateExpressionValue (input st) with
  | None =>
      setJustComputed true (setResult (Some MSG_INVALID_OR_DIV_BY_ZERO) st)
  | Some val =>
      if strict_eq val (of_Z 0) then
        setJustComputed true (setResult (Some MSG_INVALID_OR_DIV_BY_ZERO) st)
      else
        let out := MathUtils.value (MathUtils.reciprocal val) in
        show (str "1/(" ++ input st ++ str ")") (formatNumber out) st
  end.

Definition handlePower (exponent : number) (st : CalculatorState)
    : CalculatorState :=
  match evaluateExpressionValue (input st) with
  | None => setJustComputed true (setResult (Some MSG_INVALID_INPUT) st)
  | Some val =>
      let out := MathUtils.power val exponent in
      show (chr "(" :: input st ++ str ")^" ++ Number_toString exponent)
           (formatNumber out) st
  end.

(** The action of the [e^x] button. *)
Definition handleExp (st : CalculatorState) : CalculatorState :=
  match evaluateExpressionValue (input st) with
  | None => setJustComputed true (setResult (Some MSG_INVALID_INPUT) st)
  | Some val =>
      show (str "e^(" ++ input st ++ str ")") (formatNumber (Math_exp val)) st
  end.

Definition insert_token (t : jsstring) (st : CalculatorState)
    : CalculatorState :=
  if justComputed st then
    setLastExpression None
      (setResult None (setJustComputed false (setInput t st)))
  else setInput (input st ++ t) st.

Definition handleInsertPi : CalculatorState -> CalculatorState :=
  insert_token (str "pi").

Definition handleInsertE : CalculatorState -> CalculatorState :=
  insert_token (str "e").

(** *** The buttons *)

Inductive event : Type :=
| Input (value : jsstring)
| Clear
| Backspace
| Equals
| ToggleAngleMode
| Sin | Cos | Tan | Cot
| Factorial
| SquareRoot
| Reciprocal
| Power (exponent : number)
| Exp
| InsertPi
| InsertE.

Definition step (ev : event) (st : CalculatorState) : CalculatorState :=
  match ev with
  | Input value => handleInput value st
  | Clear => handleClear st
  | Backspace => handleBackspace st
  | Equals => handleEquals st
  | ToggleAngleMode => toggleAngleMode st
  | Sin =>
      calculateTrigFunction (fun x => Some (MathUtils.sin x))
                            (Some (str "sin")) st
  | Cos =>
      calculateTrigFunction (fun x => Some (MathUtils.cos x))
                            (Some (str "cos")) st
  | Tan =>
      calculateTrigFunction
        (fun x => Some (MathUtils.value (MathUtils.tan x)))
        (Some (str "tan")) st
  | Cot =>
      calculateTrigFunction
        (fun x => Some (div (of_Z 1) (MathUtils.value (MathUtils.tan x))))
        (Some (str "cot")) st
  | Factorial => handleFactorial st
  | SquareRoot => handleSquareRoot st
  | Reciprocal => handleReciprocal st
  | Power exponent => handlePower exponent st
  | Exp => handleExp st
  | InsertPi => handleInsertPi st
  | InsertE => handleInsertE st
  end.

(** The events one after the other, the first of the list first. *)
Definition run (evs : list event) (st : CalculatorState) : CalculatorState :=
  fold_left (fun s ev => step ev s) evs st.

(** The states the component can be in. *)
Inductive reachable : CalculatorState -> Prop :=
| reachable_initial : reachable initial
| reachable_step ev st : reachable st -> reachable (step ev st).

End WithRuntime.

End Calculator.

(** *** What the component displays

    The two lines of the display, as the render function computes them
    from the state. *)
Module Display.

Import Calculator.

(** A string or [null] used as a condition: [null] and the empty string
    count as false. *)
Definition truthy (s : option jsstring) : bool :=
  match s with
  | Some (_ :: _) => true
  | _ => false
  end.

Definition text_of (s : option jsstring) : jsstring :=
  match s with
  | Some t => t
  | None => []
  end.

(** [{justComputed && lastExpression ? lastExpression : ''}]. *)
Definition expression_line (st : CalculatorState) : jsstring :=
  if justComputed st && truthy (lastExpression st)
  then text_of (lastExpression st) else [].

(** [{justComputed && result ? result : (input || '0')}]. *)
Definition result_line (st : CalculatorState) : jsstring :=
  if justComputed st && truthy (result st) then text_of (result st)
  else match input st with
       | [] => str "0"
       | _ => input st
       end.

End Display.

(* ================================================================== *)
(** ** Part V, continued: the converters of lib/mathUtils             *)
(* ================================================================== *)

Module Converters.

(** The notifications of these functions (both through [toast.error]). *)
Inductive notice : Type :=
| BodyDataNotPositive      (* calculateBMI *)
| AmountIsNegative.        (* cnyToUsd, usdToCny *)

Definition Noticing (A : Type) : Type := (A * list notice)%type.

(** [(c * 9/5) + 32] and [(f - 32) * 5/9], read from the left. *)
Definition celsiusToFahrenheit (c : number) : number :=
  add (div (mul c (of_Z 9)) (of_Z 5)) (of_Z 32).

Definition fahrenheitToCelsius (f : number) : number :=
  div (mul (sub f (of_Z 32)) (of_Z 5)) (of_Z 9).

(** Height in centimetres, weight in kilograms. *)
Definition calculateBMI (height weight : number) : Noticing number :=
  if le height (of_Z 0) || le weight (of_Z 0)
  then (NaN, [BodyDataNotPositive])
  else
    let heightInMeters := div height (of_Z 100) in
    (div weight (mul heightInMeters heightInMeters), []).

(** The five categories (the program's texts are Chinese). *)
Definition CATEGORY_INVALID : jsstring := [26080; 25928; 25968; 25454]%N.
Definition CATEGORY_UNDERWEIGHT : jsstring := [20559; 30246]%N.
Definition CATEGORY_NORMAL : jsstring := [27491; 24120]%N.
Definition CATEGORY_OVERWEIGHT : jsstring := [36229; 37325]%N.
Definition CATEGORY_OBESE : jsstring := [32933; 32982]%N.

Definition getBMICategory (bmi : number) : jsstring :=
  if isNaN bmi then CATEGORY_INVALID
  else if lt bmi (Fin (185 # 10)) then CATEGORY_UNDERWEIGHT
  else if lt bmi (of_Z 24) then CATEGORY_NORMAL
  else if lt bmi (of_Z 28) then CATEGORY_OVERWEIGHT
  else CATEGORY_OBESE.

(** [EXCHANGE_RATE]: 0.14 and 7.15. *)
Definition CNY_TO_USD : number := Fin (14 # 100).
Definition USD_TO_CNY : number := Fin (715 # 100).

Definition cnyToUsd (amount : number) : Noticing number :=
  if lt amount (of_Z 0) then (NaN, [AmountIsNegative])
  else (mul amount CNY_TO_USD, []).

Definition usdToCny (amount : number) : Noticing number :=
  if lt amount (of_Z 0) then (NaN, [AmountIsNegative])
  else (mul amount USD_TO_CNY, []).

End Converters.

(* ================================================================== *)
(** ** Part V, continued: the GraphingTool component                   *)
(* ================================================================== *)

(** [mathjs_parse_evaluate s x] stands for
    [Number(parse(s).evaluate({ x }))] of mathjs, [None] meaning that
    [parse] or [evaluate] threw. *)
Class Parser : Type := {
  mathjs_parse_evaluate : jsstring -> number -> option number
}.

Module GraphingTool.

Import Regex.

(** [/^y\s*=\s*/] and [/(\d)\s*x/g]. *)
Definition RE_Y_EQUALS : regex :=
  Seq (Lit (chr "y"))
      (Seq (Star is_space) (Seq (Lit (chr "=")) (Star is_space))).

Definition RE_DIGIT_X : regex :=
  Seq (Group 1 (Cls is_digit)) (Seq (Star is_space) (Lit (chr "x"))).

(** [s.replace(/^r/, t)]: only a match at the start counts, and only
    once. *)
Definition replace_prefix (r : regex) (t : jsstring) (s : jsstring)
    : jsstring :=
  match exec r s with
  | Some (_, _, rest) => t ++ rest
  | None => s
  end.

(** What [evaluateFunction] hands to the parser. *)
Definition prepare (expression : jsstring) : jsstring :=
  let expr := trim expression in
  let expr := replace_prefix RE_Y_EQUALS [] expr in
  let expr := replace_all Calculator.RE_SQUARED
                (Calculator.constant (str "^2")) expr in
  replace_all RE_DIGIT_X (fun _ cs => capture 1 cs ++ str "*x") expr.

Record point : Type := { px : number; py : number }.

(** [!isNaN(y) && isFinite(y) && Math.abs(y) < 1e6]. *)
Definition plottable (y : number) : bool :=
  negb (isNaN y) && isFinite y && lt (Math_abs y) (of_Z (10 ^ 6)).

(** [data.sort((a, b) => a.x - b.x)].  The sort of the language is stable,
    and on abscissas that the comparison orders it has one result, which
    is the one of this insertion sort. *)
Fixpoint insert_by_x (p : point) (l : list point) : list point :=
  match l with
  | [] => [p]
  | q :: l' =>
      if lt (sub (px q) (px p)) (of_Z 0) then q :: insert_by_x p l'
      else p :: l
  end.

Definition sort_by_x (l : list point) : list point :=
  fold_right insert_by_x [] l.

Section WithParser.

Context {PS : Parser}.

Definition evaluateFunction (expression : jsstring) (x : number) : number :=
  match mathjs_parse_evaluate (prepare expression) x with
  | Some val => val
  | None => NaN
  end.

(** The loop [for (let i = 0; i <= steps; i++)] from [i] on; [fuel] bounds
    the iterations, and [None] means that the loop was still running when
    it ran out. *)
Fixpoint sample_loop (fuel : nat) (expression : jsstring)
    (start stepSize steps : number) (i : Z) (data : list point)
    : option (list point) :=
  if le (of_Z i) steps then
    match fuel with
    | O => None
    | S fuel' =>
        let x := add start (mul (of_Z i) stepSize) in
        let y := evaluateFunction expression x in
        sample_loop fuel' expression start stepSize steps (i + 1)%Z
          (if plottable y then data ++ [{| px := x; py := y |}] else data)
    end
  else Some data.

Definition generateFunctionData (fuel : nat) (expression : jsstring)
    (start end_ steps : number) : option (list point) :=
  let stepSize := div (sub end_ start) steps in
  option_map sort_by_x
    (sample_loop fuel expression start stepSize steps 0 []).

End WithParser.

End GraphingTool.

(* ================================================================== *)
(** ** Part VI: a runtime to run the program on                        *)
(* ================================================================== *)

(** One instance of [Runtime], small and computable: an evaluator for sums
    of decimal integers, which is the fragment of mathjs the examples of
    the specification need, and a square root that is exact on squares of
    rationals and rounded down to sixteen decimals elsewhere.  It serves to
    run the handlers on concrete inputs. *)
Module Sample.

Fixpoint split_on (sep : codeunit) (s cur : jsstring) : list jsstring :=
  match s with
  | [] => [rev cur]
  | c :: s' =>
      if cu_eqb c sep then rev cur :: split_on sep s' []
      else split_on sep s' (c :: cur)
  end.

Definition is_numeral (t : jsstring) : bool :=
  match t with
  | [] => false
  | _ => forallb is_digit t
  end.

Definition evaluate_sum (s : jsstring) : option number :=
  let terms := split_on (chr "+") s [] in
  if forallb is_numeral terms
  then Some (of_Z (fold_left Z.add (List.map (positional_value 10) terms) 0%Z))
  else None.

Definition sqrt (a : number) : number :=
  match a with
  | Fin x =>
      if Qlt_bool x 0 then NaN
      else fin (Z.sqrt (Qnum x * Zpos (Qden x) * 10 ^ 32)
                # (Qden x * 10 ^ 16))
  | PosInf => PosInf
  | _ => NaN
  end.

Definition undefined_here (_ : number) : number := NaN.

#[export] Instance runtime : Runtime := {|
  mathjs_evaluate := evaluate_sum;
  Math_sin := undefined_here;
  Math_cos := undefined_here;
  Math_tan := undefined_here;
  Math_sqrt := sqrt;
  Math_exp := undefined_here;
  Math_pow := fun _ _ => NaN;
  Math_PI := Fin (355 # 113);
  stack_limit := 1000
|}.

End Sample.

(** A second runtime, whose evaluator also reads a leading minus sign and
    whose tangent is the identity (good enough to run the guards on), and
    a parser for the plotter that knows the functions [x] and [x^2]. *)
Module SampleMore.

Definition evaluate_signed (s : jsstring) : option number :=
  match s with
  | c :: t =>
      if cu_eqb c (chr "-") then option_map neg (Sample.evaluate_sum t)
      else Sample.evaluate_sum s
  | [] => Sample.evaluate_sum s
  end.

Definition runtime : Runtime := {|
  mathjs_evaluate := evaluate_signed;
  Math_sin := Sample.undefined_here;
  Math_cos := Sample.undefined_here;
  Math_tan := fun x => x;
  Math_sqrt := Sample.sqrt;
  Math_exp := Sample.undefined_here;
  Math_pow := fun _ _ => NaN;
  Math_PI := Fin (355 # 113);
  stack_limit := 1000
|}.

Definition parse_evaluate (s : jsstring) (x : number) : option number :=
  if jsstring_eqb s (str "x") then Some x
  else if jsstring_eqb s (str "x^2") then Some (mul x x)
  else None.

Definition parser : Parser := {|
  mathjs_parse_evaluate := parse_evaluate
|}.

End SampleMore.

(* ================================================================== *)
(** ** Part VII: the vocabulary of the specification                   *)
(* ================================================================== *)

Module Spec.

Import Calculator.

(** The "apply unary function" transitions other than the factorial,
    which has its own guard. *)
Definition is_unary_function (ev : event) : bool :=
  match ev with
  | Sin | Cos | Tan | Cot | SquareRoot | Reciprocal | Power _ | Exp => true
  | _ => false
  end.

(** The marker such a transition shows when the input has no value. *)
Definition invalid_marker (ev : event) : jsstring :=
  match ev with
  | Reciprocal => MSG_INVALID_OR_DIV_BY_ZERO
  | _ => MSG_INVALID_INPUT
  end.

(** The transitions that evaluate: "=" and the function buttons. *)
Definition is_evaluation (ev : event) : bool :=
  match ev with
  | Equals | Sin | Cos | Tan | Cot | Factorial | SquareRoot | Reciprocal
  | Power _ | Exp => true
  | _ => false
  end.

(** Raw input: one operator, or one digit, dot or parenthesis. *)
Definition is_operator (value : jsstring) : bool :=
  match value with
  | [c] => is_operator_char c
  | _ => false
  end.

Definition is_symbol (value : jsstring) : bool :=
  match value with
  | [c] => is_digit c || cu_eqb c (chr ".") || cu_eqb c (chr "(")
           || cu_eqb c (chr ")")
  | _ => false
  end.

Definition is_raw_input (value : jsstring) : bool :=
  is_operator value || is_symbol value.

(** A numeric literal of the percent rule: digits, possibly followed by
    a point and more digits. *)
Inductive numeric_literal : jsstring -> Prop :=
| literal_integer (ds : jsstring) :
    ds <> [] -> forallb is_digit ds = true -> numeric_literal ds
| literal_fraction (ds fs : jsstring) :
    ds <> [] -> forallb is_digit ds = true ->
    fs <> [] -> forallb is_digit fs = true ->
    numeric_literal (ds ++ chr "." :: fs).

(** The last character of [s], if there is one, satisfies [good]. *)
Definition ends_in (good : codeunit -> bool) (s : jsstring) : Prop :=
  forall s' x, s = s' ++ [x] -> good x = true.

(** A character after which a numeric literal starts afresh: no digit, no
    point (which would belong to the literal), and no superscript two
    (which becomes a digit). *)
Definition delimiter (x : codeunit) : bool :=
  negb (is_digit x || cu_eqb (chr ".") x || cu_eqb SUPERSCRIPT_TWO x).

Definition no_digit_or_point (x : codeunit) : bool :=
  negb (is_digit x || cu_eqb (chr ".") x).

(** An integer in plain decimal notation: ["0"] for zero, a leading
    ["-"] when negative, no decimal point, no exponent. *)
Definition integer_numeral (z : Z) : jsstring :=
  if (z =? 0)%Z then str "0"
  else if (z <? 0)%Z then chr "-" :: decimal_digits (- z)
  else decimal_digits z.

(** [v] rounded to six fractional digits, without the trailing zeros of
    the fraction and without the point when nothing is left of it.  The
    magnitude is rounded to the nearest millionth (half a millionth goes
    up); an all-zero result has no sign. *)
Definition pad_zeros (width : nat) (s : jsstring) : jsstring :=
  repeat (chr "0") (width - List.length s) ++ s.

Definition strip_trailing_zeros (s : jsstring) : jsstring :=
  rev (drop_while (cu_eqb (chr "0")) (rev s)).

Definition millionths (v : Q) : Z :=
  Qfloor (Qabs v * inject_Z (10 ^ 6) + (1 # 2)).

Definition fixed6_stripped (v : Q) : jsstring :=
  let m := millionths v in
  let whole := (m / 10 ^ 6)%Z in
  let part := (m mod 10 ^ 6)%Z in
  if (m =? 0)%Z then str "0"
  else
    (if Qlt_bool v 0 then [chr "-"] else [])
    ++ (if (whole =? 0)%Z then str "0" else decimal_digits whole)
    ++ (if (part =? 0)%Z then []
        else chr "." :: strip_trailing_zeros
                          (pad_zeros 6 (decimal_digits part))).

(** [v] is within 1e-12 of its nearest integer. *)
Definition nearest_integer (v : Q) : Z := Qfloor (v + (1 # 2)).

Definition near_integer (v : Q) : Prop :=
  Qabs (inject_Z (nearest_integer v) - v) < 1 # 10 ^ 12.

(** The number [a] is the natural number [k]. *)
Definition is_nat (a : number) (k : nat) : Prop :=
  match a with
  | Fin q => q == inject_Z (Z.of_nat k)
  | _ => False
  end.

Definition non_negative_integer (a : number) : Prop :=
  exists k : nat, is_nat a k.

(** The numeral of a positive integer in base two, and in base sixteen
    with the upper-case digits; the numeral of zero is empty here. *)
Definition binary_numeral (z : Z) : jsstring :=
  List.map digit_char (digits_of 2 z).

Definition hex_char (d : Z) : codeunit :=
  nth (Z.to_nat d) MathUtils.hexDigits 0%N.

Definition hex_numeral (z : Z) : jsstring :=
  List.map hex_char (digits_of 16 z).

(** ["0"] for zero; otherwise the sign, then the numeral of the integer
    part of the magnitude. *)
Definition signed_numeral (numeral : Z -> jsstring) (q : Q) : jsstring :=
  if Qeq_bool q 0 then str "0"
  else (if Qlt_bool q 0 then [chr "-"] else []) ++ numeral (Qfloor (Qabs q)).

(** The texts the result line shows instead of a number. *)
Definition markers : list jsstring :=
  [MSG_ERROR; MSG_INVALID_INPUT; MSG_NEED_NONNEG_INTEGER;
   MSG_CALCULATION_ERROR; MSG_INVALID_OR_DIV_BY_ZERO].

Definition is_toggle (ev : event) : bool :=
  match ev with
  | ToggleAngleMode => true
  | _ => false
  end.

Definition other_mode (m : AngleMode) : AngleMode :=
  match m with
  | deg => rad
  | rad => deg
  end.

(** A character no rule of the pre-processor looks for: no letter, no
    parenthesis, no percent sign and none of the four glyphs. *)
Definition inert (c : codeunit) : bool :=
  negb (is_letter c || cu_eqb c (chr "(") || cu_eqb c (chr ")")
        || cu_eqb c (chr "%") || cu_eqb c MULTIPLICATION_SIGN
        || cu_eqb c DIVISION_SIGN || cu_eqb c SUPERSCRIPT_TWO
        || cu_eqb c GREEK_PI).

(** One of the glyphs the pre-processor replaces. *)
Definition is_glyph (c : codeunit) : bool :=
  cu_eqb c MULTIPLICATION_SIGN || cu_eqb c DIVISION_SIGN
  || cu_eqb c SUPERSCRIPT_TWO || cu_eqb c GREEK_PI.

(** The upper-case form of a hexadecimal digit. *)
Definition upper_hex (c : codeunit) : codeunit :=
  if in_range 97 102 c then (c - 32)%N else c.

(** A numeral without a superfluous leading zero: one digit, or a first
    digit other than [0]. *)
Definition canonical (s : jsstring) : bool :=
  match s with
  | [] => false
  | [_] => true
  | c :: _ => negb (cu_eqb c (chr "0"))
  end.

End Spec.

(* ================================================================== *)
(** ** Part VIII: properties                                            *)
(* ================================================================== *)

(** The conversions on a few values. *)
Example Number_toString_samples :
  Number_toString (Fin (15 # 10)) = str "1.5"
  /\ Number_toString (Fin (-7 # 1)) = str "-7"
  /\ Number_toString (of_Z (10 ^ 21)) = str "1e+21"
  /\ Number_toString (of_Z (15 * 10 ^ 20)) = str "1.5e+21"
  /\ Number_toString (Fin (1 # 1000000)) = str "0.000001"
  /\ Number_toString (Fin (1 # 10000000)) = str "1e-7"
  /\ Number_toString (of_Z 1200) = str "1200"
  /\ toFixed 6 (Fin (1 # 3)) = str "0.333333"
  /\ toFixed 6 (Fin (-1 # 10000000)) = str "-0.000000"
  /\ toFixed 6 (Fin (1234567 # 1000)) = str "1234.567000"
  /\ parseFloat (str "1234.567000") = Fin (1234567 # 1000)
  /\ parseFloat (str "-0.000000") = Fin 0
  /\ parseFloat (str "1.5e+21") = of_Z (15 * 10 ^ 20)
  /\ parseFloat (str "abc") = NaN
  /\ parseInt (str "101") 2 = of_Z 5
  /\ parseInt (str "0x1F") 16 = of_Z 31
  /\ parseInt (str "fF") 16 = of_Z 255.
Proof. vm_compute. repeat split. Qed.

(** *** Numbers *)

Module JSFacts.

Lemma Qlt_bool_iff (x y : Q) : Qlt_bool x y = true <-> x < y.
Proof.
  unfold Qlt_bool. rewrite negb_true_iff. split.
  - intros H. apply Qnot_le_lt. intros Hle.
    apply Qle_bool_iff in Hle. congruence.
  - intros H. destruct (Qle_bool y x) eqn:E; [|reflexivity].
    apply Qle_bool_iff in E. exfalso. exact (Qlt_not_le _ _ H E).
Qed.

Lemma Qlt_bool_false_iff (x y : Q) : Qlt_bool x y = false <-> y <= x.
Proof.
  unfold Qlt_bool. rewrite negb_false_iff. apply Qle_bool_iff.
Qed.

Lemma Qeq_bool_false_iff (x y : Q) : Qeq_bool x y = false <-> ~ x == y.
Proof.
  split; [apply Qeq_bool_neq|].
  intros H. destruct (Qeq_bool x y) eqn:E; [|reflexivity].
  exfalso. apply H. apply Qeq_bool_eq. exact E.
Qed.

Lemma Qred_inject_Z (z : Z) : Qred (inject_Z z) = inject_Z z.
Proof.
  unfold Qred, inject_Z.
  pose proof (Z.ggcd_gcd z 1) as Hg.
  pose proof (Z.ggcd_correct_divisors z 1) as Hd.
  destruct (Z.ggcd z 1) as (g, (aa, bb)). simpl in Hg.
  rewrite Z.gcd_1_r in Hg. subst g. destruct Hd as [Ha Hb].
  rewrite Z.mul_1_l in Ha, Hb. subst aa bb. reflexivity.
Qed.

(** A rational that is an integer is that integer once reduced. *)
Lemma fin_of_Z (x : Q) (z : Z) : x == inject_Z z -> fin x = of_Z z.
Proof.
  intros H. unfold fin, of_Z. f_equal.
  rewrite (Qred_complete _ _ H). apply Qred_inject_Z.
Qed.

Lemma Qfloor_inject (x : Q) (z : Z) : x == inject_Z z -> Qfloor x = z.
Proof. intros H. rewrite H. apply Qfloor_Z. Qed.

Lemma lt_Fin (x y : Q) : lt (Fin x) (Fin y) = true <-> x < y.
Proof. apply Qlt_bool_iff. Qed.

Lemma strict_eq_Fin (x y : Q) : strict_eq (Fin x) (Fin y) = true <-> x == y.
Proof. apply Qeq_bool_iff. Qed.

Lemma inject_Z_lt (a b : Z) : (a < b)%Z <-> inject_Z a < inject_Z b.
Proof. rewrite Zlt_Qlt. tauto. Qed.

Lemma inject_Z_le (a b : Z) : (a <= b)%Z <-> inject_Z a <= inject_Z b.
Proof. rewrite Zle_Qle. tauto. Qed.

Lemma inject_Z_eq (a b : Z) : a = b <-> inject_Z a == inject_Z b.
Proof. symmetry. apply inject_Z_injective. Qed.

Lemma inject_le (a b : Z) : (a <= b)%Z -> inject_Z a <= inject_Z b.
Proof. apply inject_Z_le. Qed.

Lemma inject_lt (a b : Z) : (a < b)%Z -> inject_Z a < inject_Z b.
Proof. apply inject_Z_lt. Qed.

Lemma inject_eq (a b : Z) : a = b -> inject_Z a == inject_Z b.
Proof. apply inject_Z_eq. Qed.

Lemma inject_inj (a b : Z) : inject_Z a == inject_Z b -> a = b.
Proof. apply inject_Z_eq. Qed.

(** The program's own test for "a non-negative integer" is the
    specification's. *)
Lemma non_negative_integer_test (v : number) :
  isFinite v = true ->
  ((negb (Number_isInteger v) || lt v (of_Z 0))%bool = false
   <-> Spec.non_negative_integer v).
Proof.
  destruct v as [| | |q]; try discriminate. intros _.
  rewrite orb_false_iff, negb_false_iff. unfold Number_isInteger, of_Z, lt.
  rewrite Qeq_bool_iff, Qlt_bool_false_iff. split.
  - intros [Hint Hpos]. exists (Z.to_nat (Qfloor q)). simpl.
    rewrite Z2Nat.id; [exact Hint|].
    rewrite Hint in Hpos. apply (proj2 (inject_Z_le 0 (Qfloor q))). exact Hpos.
  - intros [k Hk]. simpl in Hk. split.
    + rewrite (Qfloor_inject Hk). exact Hk.
    + rewrite Hk. apply (proj1 (inject_Z_le 0 (Z.of_nat k))). lia.
Qed.

End JSFacts.

(** *** Positional notation *)

Module DigitsFacts.

Local Open Scope Z_scope.

Lemma digits_loop_acc (fuel : nat) (r : Z) :
  forall m acc, digits_loop fuel r m acc = digits_loop fuel r m [] ++ acc.
Proof.
  induction fuel as [|fuel IH]; intros m acc; simpl; [reflexivity|].
  destruct (m <=? 0); [reflexivity|].
  rewrite (IH _ (m mod r :: acc)), (IH _ [m mod r]).
  rewrite <- app_assoc. reflexivity.
Qed.

(** Any fuel that covers the binary length of [m] gives the same digits. *)
Lemma digits_loop_fuel (r : Z) (fuel : nat) :
  2 <= r ->
  forall fuel' m acc,
    m < 2 ^ Z.of_nat fuel -> m < 2 ^ Z.of_nat fuel' ->
    digits_loop fuel r m acc = digits_loop fuel' r m acc.
Proof.
  intros Hr. induction fuel as [|fuel IH]; intros fuel' m acc H1 H2.
  - simpl in H1. destruct fuel' as [|fuel']; [reflexivity|]. simpl.
    destruct (Z.leb_spec m 0); [reflexivity|lia].
  - destruct fuel' as [|fuel'].
    + simpl in H2. simpl. destruct (Z.leb_spec m 0); [reflexivity|lia].
    + simpl. destruct (Z.leb_spec m 0); [reflexivity|].
      rewrite Nat2Z.inj_succ, Z.pow_succ_r in H1, H2 by lia.
      assert (m / r <= m / 2)
        by (apply Z.div_le_compat_l; lia).
      assert (m / 2 < 2 ^ Z.of_nat fuel)
        by (apply Z.div_lt_upper_bound; lia).
      assert (m / 2 < 2 ^ Z.of_nat fuel')
        by (apply Z.div_lt_upper_bound; lia).
      apply IH; lia.
Qed.

Lemma digits_of_nonpos (r m : Z) : m <= 0 -> digits_of r m = [].
Proof.
  intros H. unfold digits_of. simpl.
  destruct (Z.leb_spec m 0); [reflexivity|lia].
Qed.

Lemma digits_of_step (r m : Z) :
  2 <= r -> 0 < m -> digits_of r m = digits_of r (m / r) ++ [m mod r].
Proof.
  intros Hr Hm. unfold digits_of at 1. simpl.
  destruct (Z.leb_spec m 0); [lia|].
  rewrite digits_loop_acc. f_equal.
  destruct (Z.leb_spec (m / r) 0) as [Hq|Hq].
  - rewrite (digits_of_nonpos r Hq).
    destruct (Z.to_nat (Z.log2 m)); simpl; [reflexivity|].
    destruct (Z.leb_spec (m / r) 0); [reflexivity|lia].
  - unfold digits_of. apply digits_loop_fuel; [exact Hr| |].
    + rewrite Z2Nat.id by apply Z.log2_nonneg.
      apply Z.le_lt_trans with (m / 2).
      * apply Z.div_le_compat_l; lia.
      * apply Z.div_lt_upper_bound; [lia|].
        rewrite <- Z.pow_succ_r by apply Z.log2_nonneg.
        apply Z.log2_spec. lia.
    + rewrite Nat2Z.inj_succ, Z2Nat.id by apply Z.log2_nonneg.
      apply Z.log2_spec. exact Hq.
Qed.

(** Induction along the digits. *)
Lemma digits_ind (r : Z) (P : Z -> Prop) :
  2 <= r ->
  (forall m, m <= 0 -> P m) ->
  (forall m, 0 < m -> P (m / r) -> P m) ->
  forall m, P m.
Proof.
  intros Hr H0 Hs m.
  induction m as [m IH] using (well_founded_induction (Z.lt_wf 0)).
  destruct (Z.leb_spec m 0) as [Hm|Hm]; [auto|].
  apply Hs; [exact Hm|]. apply IH. split.
  - apply Z.div_pos; lia.
  - apply Z.div_lt; lia.
Qed.

Lemma digits_of_range (r m : Z) :
  2 <= r -> Forall (fun d => 0 <= d < r) (digits_of r m).
Proof.
  intros Hr. pattern m. apply (digits_ind (r := r)); [exact Hr| |]; clear m.
  - intros m Hm. rewrite (digits_of_nonpos r Hm). constructor.
  - intros m Hm IH. rewrite digits_of_step by assumption.
    apply Forall_app. split; [exact IH|].
    repeat constructor; apply Z.mod_pos_bound; lia.
Qed.

Lemma digits_of_nonempty (r m : Z) :
  2 <= r -> 0 < m -> digits_of r m <> [].
Proof.
  intros Hr Hm. rewrite digits_of_step by assumption.
  intros H. apply app_eq_nil in H. destruct H; discriminate.
Qed.

Lemma positional_value_snoc (r : Z) (s : jsstring) (c : codeunit) :
  positional_value r (s ++ [c])
  = positional_value r s * r
    + match digit_value c with Some d => d | None => 0 end.
Proof. unfold positional_value. rewrite fold_left_app. reflexivity. Qed.

(** Reading back the digits of [m], written with any characters that
    denote them, gives [m]. *)
Lemma positional_value_digits (r : Z) (ch : Z -> codeunit) (m : Z) :
  2 <= r ->
  (forall d, 0 <= d < r -> digit_value (ch d) = Some d) ->
  0 <= m ->
  positional_value r (List.map ch (digits_of r m)) = m.
Proof.
  intros Hr Hch. pattern m. apply (digits_ind (r := r)); [exact Hr| |]; clear m.
  - intros m Hm Hm'. rewrite (digits_of_nonpos r Hm). simpl.
    unfold positional_value. simpl. lia.
  - intros m Hm IH _. rewrite digits_of_step by assumption.
    rewrite map_app. simpl List.map. rewrite positional_value_snoc.
    rewrite IH by (apply Z.div_pos; lia).
    rewrite Hch by (apply Z.mod_pos_bound; lia).
    rewrite (Z.div_mod m r) at 3 by lia. lia.
Qed.

Lemma digit_value_digit_char (d : Z) :
  0 <= d < 36 -> digit_value (digit_char d) = Some d.
Proof.
  intros H. unfold digit_char, digit_value, in_range.
  destruct (Z.ltb_spec d 10).
  - replace (N.leb 48 (Z.to_N (48 + d)) && N.leb (Z.to_N (48 + d)) 57)%bool
      with true.
    + f_equal. rewrite Z2N.id by lia. lia.
    + symmetry. apply andb_true_iff. split; apply N.leb_le; lia.
  - replace (N.leb 48 (Z.to_N (87 + d)) && N.leb (Z.to_N (87 + d)) 57)%bool
      with false.
    + replace (N.leb 97 (Z.to_N (87 + d)) && N.leb (Z.to_N (87 + d)) 122)%bool
        with true.
      * f_equal. rewrite Z2N.id by lia. lia.
      * symmetry. apply andb_true_iff. split; apply N.leb_le; lia.
    + symmetry. apply andb_false_iff. right. apply N.leb_gt. lia.
Qed.

(** Appending a digit, a run of zeros, or a block of fixed width. *)
Lemma digits_of_snoc (r m d : Z) :
  2 <= r -> 0 <= m -> 0 <= d < r -> 0 < m * r + d ->
  digits_of r (m * r + d) = digits_of r m ++ [d].
Proof.
  intros Hr Hm Hd Hpos. rewrite digits_of_step by assumption.
  replace ((m * r + d) / r) with m
    by (apply Z.div_unique with d; lia).
  replace ((m * r + d) mod r) with d
    by (apply Z.mod_unique with m; lia).
  reflexivity.
Qed.

Lemma repeat_snoc (A : Type) (a : A) (n : nat) :
  repeat a n ++ [a] = repeat a (S n).
Proof. induction n as [|n IH]; simpl; [reflexivity|]. rewrite IH. reflexivity. Qed.

Lemma digits_of_shift (r m : Z) (j : nat) :
  2 <= r -> 0 < m ->
  digits_of r (m * r ^ Z.of_nat j) = digits_of r m ++ repeat 0 j.
Proof.
  intros Hr Hm. induction j as [|j IH].
  - simpl. rewrite Z.mul_1_r, app_nil_r. reflexivity.
  - rewrite Nat2Z.inj_succ, Z.pow_succ_r by lia.
    replace (m * (r * r ^ Z.of_nat j)) with (m * r ^ Z.of_nat j * r + 0)
      by ring.
    assert (0 < r ^ Z.of_nat j) by (apply Z.pow_pos_nonneg; lia).
    rewrite digits_of_snoc by nia.
    rewrite IH, <- app_assoc, repeat_snoc. reflexivity.
Qed.

Lemma digits_of_length (r : Z) (j : nat) :
  2 <= r ->
  forall m, 0 <= m < r ^ Z.of_nat j -> (List.length (digits_of r m) <= j)%nat.
Proof.
  intros Hr. induction j as [|j IH]; intros m Hm.
  - simpl in Hm. assert (m = 0) by lia. subst m.
    rewrite digits_of_nonpos by lia. simpl. lia.
  - destruct (Z.eq_dec m 0) as [->|Hnz].
    + rewrite digits_of_nonpos by lia. simpl. lia.
    + rewrite digits_of_step by lia. rewrite length_app. simpl.
      rewrite Nat2Z.inj_succ, Z.pow_succ_r in Hm by lia.
      assert (0 <= m / r < r ^ Z.of_nat j).
      { split; [apply Z.div_pos; lia|].
        apply Z.div_lt_upper_bound; lia. }
      specialize (IH (m / r) H). lia.
Qed.

(** [l] padded on the left with zeros up to the width [j]. *)
Lemma digits_of_block (r m : Z) (j : nat) :
  2 <= r -> 0 < m ->
  forall x, 0 <= x < r ^ Z.of_nat j ->
    digits_of r (m * r ^ Z.of_nat j + x)
    = digits_of r m
      ++ repeat 0 (j - List.length (digits_of r x)) ++ digits_of r x.
Proof.
  intros Hr Hm. induction j as [|j IH]; intros x Hx.
  - simpl in Hx. assert (x = 0) by lia. subst x.
    rewrite digits_of_nonpos with (m := 0) by lia.
    simpl. rewrite Z.mul_1_r, Z.add_0_r, app_nil_r. reflexivity.
  - rewrite Nat2Z.inj_succ, Z.pow_succ_r in * by lia.
    assert (Hp : 0 < r ^ Z.of_nat j) by (apply Z.pow_pos_nonneg; lia).
    assert (Hq : 0 <= x / r < r ^ Z.of_nat j).
    { split; [apply Z.div_pos; lia|]. apply Z.div_lt_upper_bound; lia. }
    assert (Hd : 0 <= x mod r < r) by (apply Z.mod_pos_bound; lia).
    replace (m * (r * r ^ Z.of_nat j) + x)
      with ((m * r ^ Z.of_nat j + x / r) * r + x mod r)
      by (rewrite (Z.div_mod x r) at 3 by lia; ring).
    rewrite digits_of_snoc by nia.
    rewrite (IH (x / r) Hq), <- !app_assoc. f_equal.
    destruct (Z.eq_dec x 0) as [->|Hnz].
    + rewrite Zdiv_0_l, Zmod_0_l. rewrite digits_of_nonpos with (m := 0) by lia.
      simpl List.length. rewrite !Nat.sub_0_r, !app_nil_r.
      apply repeat_snoc.
    + rewrite (@digits_of_step r x) by lia.
      rewrite length_app. simpl List.length.
      replace (S j - (List.length (digits_of r (x / r)) + 1))%nat
        with (j - List.length (digits_of r (x / r)))%nat by lia.
      reflexivity.
Qed.

(** Every positive integer is a number that does not end in zero,
    followed by zeros. *)
Lemma trailing_zeros (m : Z) :
  0 < m ->
  exists s (t : nat), m = s * 10 ^ Z.of_nat t /\ 0 < s /\ s mod 10 <> 0.
Proof.
  pattern m. apply (@digits_ind 10); [lia| |]; clear m.
  - intros m Hm Hpos. lia.
  - intros m Hm IH _.
    destruct (Z.eq_dec (m mod 10) 0) as [Hz|Hnz].
    + assert (Hq : 0 < m / 10).
      { pose proof (Z.div_mod m 10). lia. }
      destruct (IH Hq) as (s & t & Hs & Hpos & Hmod).
      exists s, (S t). split; [|split; assumption].
      rewrite Nat2Z.inj_succ, Z.pow_succ_r by lia.
      rewrite (Z.div_mod m 10) by lia. rewrite Hz, Hs. ring.
    + exists m, 0%nat. simpl. split; [lia|]. split; assumption.
Qed.

Lemma strip_zeros_unfold (fuel : nat) (m e : Z) :
  strip_zeros (S fuel) m e =
  if (0 <? m) && (m mod 10 =? 0) then strip_zeros fuel (m / 10) (e + 1)
  else (m, e).
Proof. reflexivity. Qed.

(** [strip_zeros] finds that decomposition. *)
Lemma strip_zeros_spec (t : nat) :
  forall (fuel : nat) (s e : Z),
    0 < s -> s mod 10 <> 0 -> s * 10 ^ Z.of_nat t < 2 ^ Z.of_nat fuel ->
    strip_zeros fuel (s * 10 ^ Z.of_nat t) e = (s, e + Z.of_nat t).
Proof.
  induction t as [|t IH]; intros fuel s e Hs Hmod Hf.
  - simpl Z.of_nat. rewrite Z.pow_0_r, Z.mul_1_r, Z.add_0_r.
    destruct fuel as [|fuel]; [reflexivity|]. rewrite strip_zeros_unfold.
    destruct (Z.eqb_spec (s mod 10) 0); [contradiction|].
    rewrite andb_false_r. reflexivity.
  - assert (Hp : 0 < 10 ^ Z.of_nat t) by (apply Z.pow_pos_nonneg; lia).
    rewrite Nat2Z.inj_succ, Z.pow_succ_r in * by lia.
    destruct fuel as [|fuel];
      [change (2 ^ Z.of_nat 0) with 1 in Hf; nia|].
    rewrite Nat2Z.inj_succ, Z.pow_succ_r in Hf by lia.
    replace (s * (10 * 10 ^ Z.of_nat t)) with (s * 10 ^ Z.of_nat t * 10)
      by ring.
    rewrite strip_zeros_unfold.
    rewrite Z_mod_mult, Z_div_mult by lia.
    destruct (Z.ltb_spec 0 (s * 10 ^ Z.of_nat t * 10)); [|nia].
    rewrite Z.eqb_refl, andb_true_r.
    rewrite IH by (try assumption; nia). f_equal. lia.
Qed.

End DigitsFacts.

(** *** Number::toString *)

Module ToStringFacts.

Import JSFacts DigitsFacts.

Local Open Scope Z_scope.

Lemma Qpow_nonzero (j : nat) : ~ (inject_Z (10 ^ Z.of_nat j) == 0)%Q.
Proof.
  intros H. apply (@inject_inj _ 0) in H.
  assert (0 < 10 ^ Z.of_nat j) by (apply Z.pow_pos_nonneg; lia). lia.
Qed.

Lemma scale_to_integer_unfold (fuel : nat) (x : Q) (f : Z) :
  scale_to_integer (S fuel) x f =
  if Qeq_bool x (inject_Z (Qfloor x)) then (Qfloor x, f)
  else scale_to_integer fuel (Qred (x * inject_Z 10)) (f + 1).
Proof. reflexivity. Qed.

Lemma scale_to_integer_done (fuel : nat) (x : Q) (f z : Z) :
  (x == inject_Z z)%Q -> scale_to_integer fuel x f = (z, f).
Proof.
  intros H. assert (F : Qfloor x = z) by exact (Qfloor_inject H).
  destruct fuel as [|fuel]; simpl; rewrite F; [reflexivity|].
  apply Qeq_bool_iff in H. rewrite H. reflexivity.
Qed.

(** A number with [j] fractional digits becomes an integer after [j]
    multiplications by ten, and not before. *)
Lemma scale_to_integer_spec (j : nat) :
  forall (fuel : nat) (x : Q) (f s : Z),
    s mod 10 <> 0 ->
    (x == inject_Z s / inject_Z (10 ^ Z.of_nat j))%Q ->
    (j <= fuel)%nat ->
    scale_to_integer fuel x f = (s, f + Z.of_nat j).
Proof.
  induction j as [|j IH]; intros fuel x f s Hmod Hx Hf.
  - rewrite Z.add_0_r. apply scale_to_integer_done.
    rewrite Hx. change (inject_Z (10 ^ Z.of_nat 0)) with 1%Q.
    field.
  - destruct fuel as [|fuel]; [lia|]. rewrite scale_to_integer_unfold.
    assert (Hp : 0 < 10 ^ Z.of_nat j) by (apply Z.pow_pos_nonneg; lia).
    rewrite Nat2Z.inj_succ, Z.pow_succ_r in Hx by lia.
    assert (Hnz : ~ (inject_Z (10 * 10 ^ Z.of_nat j) == 0)%Q).
    { intros H. apply (@inject_inj _ 0) in H. lia. }
    destruct (Qeq_bool x (inject_Z (Qfloor x))) eqn:E.
    + exfalso. apply Qeq_bool_iff in E. rewrite Hx in E at 1.
      apply Hmod.
      assert (Hs : (inject_Z s
                    == inject_Z (Qfloor x * (10 * 10 ^ Z.of_nat j)))%Q).
      { rewrite inject_Z_mult, <- E. field. exact Hnz. }
      apply inject_inj in Hs. rewrite Hs.
      replace (Qfloor x * (10 * 10 ^ Z.of_nat j))
        with (Qfloor x * 10 ^ Z.of_nat j * 10) by ring.
      apply Z_mod_mult.
    + rewrite (IH fuel _ (f + 1) s); [f_equal; lia|exact Hmod| |lia].
      rewrite Qred_correct, Hx, inject_Z_mult.
      field. apply Qpow_nonzero.
Qed.

Lemma log2_fuel (m : Z) : 0 < m -> m < 2 ^ Z.of_nat (S (Z.to_nat (Z.log2 m))).
Proof.
  intros Hm. rewrite Nat2Z.inj_succ, Z2Nat.id by apply Z.log2_nonneg.
  apply Z.log2_spec. exact Hm.
Qed.

(** The two shapes of a positive decimal: an integer ending in [t] zeros,
    and a number with [j] fractional digits. *)
Lemma shortest_decimal_integer (x : Q) (s : Z) (t : nat) :
  0 < s -> s mod 10 <> 0 ->
  (x == inject_Z (s * 10 ^ Z.of_nat t))%Q ->
  shortest_decimal x = (s, Z.of_nat t).
Proof.
  intros Hs Hmod Hx. unfold shortest_decimal.
  rewrite (scale_to_integer_done _ _ Hx).
  assert (0 < 10 ^ Z.of_nat t) by (apply Z.pow_pos_nonneg; lia).
  rewrite strip_zeros_spec by (try assumption; apply log2_fuel; nia).
  reflexivity.
Qed.

Lemma shortest_decimal_fraction (x : Q) (s : Z) (j : nat) :
  0 < s -> s mod 10 <> 0 -> (j <= MAX_FRACTION_DIGITS)%nat ->
  (x == inject_Z s / inject_Z (10 ^ Z.of_nat j))%Q ->
  shortest_decimal x = (s, - Z.of_nat j).
Proof.
  intros Hs Hmod Hj Hx. unfold shortest_decimal.
  rewrite (@scale_to_integer_spec j _ x 0 s Hmod Hx Hj).
  rewrite strip_zeros_unfold.
  destruct (Z.eqb_spec (s mod 10) 0); [contradiction|].
  rewrite andb_false_r. reflexivity.
Qed.

Lemma decimal_digits_shift (s : Z) (t : nat) :
  0 < s ->
  decimal_digits (s * 10 ^ Z.of_nat t)
  = decimal_digits s ++ repeat (chr "0") t.
Proof.
  intros Hs. unfold decimal_digits.
  rewrite digits_of_shift by lia. rewrite map_app, map_repeat. reflexivity.
Qed.

Lemma decimal_digits_length (m : Z) (j : nat) :
  0 <= m < 10 ^ Z.of_nat j -> (List.length (decimal_digits m) <= j)%nat.
Proof.
  intros H. unfold decimal_digits. rewrite length_map.
  apply digits_of_length; [lia | exact H].
Qed.

(** A positive integer below 10^21 is printed as its digits. *)
Lemma positive_toString_integer (x : Q) (p : Z) :
  0 < p < 10 ^ 21 -> (x == inject_Z p)%Q ->
  positive_toString x = decimal_digits p.
Proof.
  intros Hp Hx. destruct (@trailing_zeros p) as (s & t & Hst & Hs & Hmod);
    [lia|].
  unfold positive_toString. rewrite Hst in Hx.
  rewrite (@shortest_decimal_integer x s t Hs Hmod Hx).
  assert (Hlen : (List.length (decimal_digits p) <= 21)%nat)
    by (apply decimal_digits_length; change (Z.of_nat 21) with 21; lia).
  rewrite Hst, decimal_digits_shift in * by assumption.
  rewrite length_app, repeat_length in Hlen.
  set (ds := decimal_digits s) in *.
  replace ((Z.of_nat (List.length ds) <=? Z.of_nat (List.length ds) + Z.of_nat t)
           && (Z.of_nat (List.length ds) + Z.of_nat t <=? 21))%bool with true.
  - unfold zeros. f_equal. f_equal. lia.
  - symmetry. apply andb_true_iff. split; apply Z.leb_le; lia.
Qed.

(** An integer below 10^21 in magnitude is printed in plain notation. *)
Lemma Number_toString_integer (z : Z) :
  - 10 ^ 21 < z < 10 ^ 21 ->
  Number_toString (of_Z z) = Spec.integer_numeral z.
Proof.
  intros Hz. unfold Number_toString, of_Z, Spec.integer_numeral.
  destruct (Z.eqb_spec z 0) as [->|Hnz]; [reflexivity|].
  assert (E : Qeq_bool (inject_Z z) 0 = false).
  { apply Qeq_bool_false_iff. intros H. apply (@inject_inj z 0) in H. lia. }
  rewrite E. destruct (Z.ltb_spec z 0) as [Hneg|Hpos].
  - assert (L : Qlt_bool (inject_Z z) 0 = true)
      by (apply Qlt_bool_iff, (@inject_lt z 0); exact Hneg).
    rewrite L. f_equal. apply positive_toString_integer; [lia|].
    rewrite inject_Z_opp. reflexivity.
  - assert (L : Qlt_bool (inject_Z z) 0 = false)
      by (apply Qlt_bool_false_iff, (@inject_le 0 z); exact Hpos).
    rewrite L. apply positive_toString_integer; [lia|reflexivity].
Qed.

(** **** Numbers with at most six fractional digits *)

Lemma digit_char_zero (d : Z) :
  0 <= d < 10 -> (cu_eqb (chr "0") (digit_char d) = true <-> d = 0).
Proof.
  intros H. unfold digit_char, cu_eqb, chr. simpl N_of_ascii.
  destruct (Z.ltb_spec d 10); [|lia]. rewrite N.eqb_eq. lia.
Qed.

(** The digits of a number that does not end in zero do not either. *)
Lemma decimal_digits_last (s : Z) :
  0 < s -> s mod 10 <> 0 ->
  exists l c, decimal_digits s = l ++ [c] /\ cu_eqb (chr "0") c = false.
Proof.
  intros Hs Hmod. unfold decimal_digits.
  rewrite digits_of_step by lia. rewrite map_app. simpl List.map.
  eexists. eexists. split; [reflexivity|].
  destruct (cu_eqb (chr "0") (digit_char (s mod 10))) eqn:E; [|reflexivity].
  apply digit_char_zero in E; [contradiction|].
  apply Z.mod_pos_bound. lia.
Qed.

Lemma drop_while_zeros (t : nat) (s : jsstring) :
  drop_while (cu_eqb (chr "0")) (repeat (chr "0") t ++ s)
  = drop_while (cu_eqb (chr "0")) s.
Proof. induction t as [|t IH]; [reflexivity|]. simpl. exact IH. Qed.

Lemma drop_while_stop (p : codeunit -> bool) (c : codeunit) (s : jsstring) :
  p c = false -> drop_while p (c :: s) = c :: s.
Proof. intros H. simpl. rewrite H. reflexivity. Qed.

Lemma strip_trailing_zeros_app (l : jsstring) (c : codeunit) (t : nat) :
  cu_eqb (chr "0") c = false ->
  Spec.strip_trailing_zeros ((l ++ [c]) ++ repeat (chr "0") t) = l ++ [c].
Proof.
  intros Hc. unfold Spec.strip_trailing_zeros.
  rewrite rev_app_distr, rev_repeat, drop_while_zeros.
  rewrite rev_app_distr. change (rev [c] ++ rev l) with (c :: rev l).
  rewrite drop_while_stop by exact Hc.
  change (c :: rev l) with (rev [c] ++ rev l).
  rewrite <- rev_app_distr, rev_involutive. reflexivity.
Qed.

Lemma app_split_at (A : Type) (l1 l2 l3 l4 : list A) :
  l1 ++ l2 = l3 ++ l4 -> (List.length l3 <= List.length l1)%nat ->
  exists m, l1 = l3 ++ m /\ l4 = m ++ l2.
Proof.
  revert l3. induction l1 as [|a l1 IH]; intros l3 H Hlen.
  - destruct l3; [|simpl in Hlen; lia]. exists []. simpl in *. auto.
  - destruct l3 as [|b l3].
    + exists (a :: l1). simpl in *. auto.
    + simpl in H. injection H as -> H. simpl in Hlen.
      destruct (IH l3 H ltac:(lia)) as (m & -> & ->).
      exists m. auto.
Qed.

Lemma decimal_digits_block (m x : Z) (j : nat) :
  0 < m -> 0 <= x < 10 ^ Z.of_nat j ->
  decimal_digits (m * 10 ^ Z.of_nat j + x)
  = decimal_digits m ++ Spec.pad_zeros j (decimal_digits x).
Proof.
  intros Hm Hx. unfold decimal_digits, Spec.pad_zeros.
  rewrite digits_of_block by (try lia; exact Hx).
  rewrite !map_app, map_repeat, length_map. reflexivity.
Qed.

Lemma decimal_digits_nonempty (m : Z) : 0 < m -> decimal_digits m <> [].
Proof.
  intros Hm H. unfold decimal_digits in H. apply map_eq_nil in H.
  revert H. apply digits_of_nonempty; lia.
Qed.

(** A positive multiple [m / 10^6] of a millionth, below 10^21, is
    printed in plain notation: the digits of the whole part (["0"] when
    there is none), then, unless the fraction is zero, the point and the
    six digits of the fraction up to the last one that is not zero. *)
Lemma positive_toString_millionths (x : Q) (m : Z) :
  0 < m < 10 ^ 27 ->
  (x == inject_Z m / inject_Z (10 ^ 6))%Q ->
  positive_toString x
  = (if m / 10 ^ 6 =? 0 then str "0" else decimal_digits (m / 10 ^ 6))
    ++ (if m mod 10 ^ 6 =? 0 then []
        else chr "." :: Spec.strip_trailing_zeros
                          (Spec.pad_zeros 6 (decimal_digits (m mod 10 ^ 6)))).
Proof.
  intros Hm Hx.
  destruct (@trailing_zeros m) as (s & t & Hst & Hs & Hmod); [lia|].
  pose proof (Z.div_mod m (10 ^ 6) ltac:(lia)) as Hdm.
  pose proof (Z.mod_pos_bound m (10 ^ 6) ltac:(lia)) as Hfr.
  assert (Hwhole : 0 <= m / 10 ^ 6 < 10 ^ 21).
  { split; [apply Z.div_pos; lia|]. apply Z.div_lt_upper_bound; lia. }
  set (whole := m / 10 ^ 6) in *. set (part := m mod 10 ^ 6) in *.
  assert (Hpt : 0 < 10 ^ Z.of_nat t) by (apply Z.pow_pos_nonneg; lia).
  destruct (Nat.le_gt_cases 6 t) as [Hge|Hlt].
  - (* the value is an integer *)
    assert (Ht : 10 ^ Z.of_nat t = 10 ^ Z.of_nat (t - 6) * 10 ^ 6).
    { rewrite <- (Z.pow_add_r 10 (Z.of_nat (t - 6)) 6) by lia.
      f_equal. lia. }
    assert (Hw : whole = s * 10 ^ Z.of_nat (t - 6) /\ part = 0).
    { assert (E : m = s * 10 ^ Z.of_nat (t - 6) * 10 ^ 6 + 0)
        by (rewrite Hst, Ht; ring).
      split; [symmetry; apply Z.div_unique with 0; lia
             |symmetry; apply Z.mod_unique with (s * 10 ^ Z.of_nat (t - 6));
              lia]. }
    destruct Hw as [Hw Hp0]. rewrite Hp0. simpl (0 =? 0).
    rewrite app_nil_r.
    assert (0 < whole).
    { rewrite Hw. apply Z.mul_pos_pos; [lia|].
      apply Z.pow_pos_nonneg; lia. }
    destruct (Z.eqb_spec whole 0); [lia|].
    apply positive_toString_integer; [lia|].
    rewrite Hx. rewrite Hdm, Hp0, Z.add_0_r, inject_Z_mult. field.
    discriminate.
  - (* the value has [6 - t] fractional digits *)
    assert (Ht : 10 ^ 6 = 10 ^ Z.of_nat (6 - t) * 10 ^ Z.of_nat t).
    { rewrite <- Z.pow_add_r by lia. f_equal. lia. }
    assert (Hp6 : 0 < 10 ^ Z.of_nat (6 - t)) by (apply Z.pow_pos_nonneg; lia).
    assert (Hpart : part <> 0).
    { intros Hp0. apply Hmod.
      assert (E : s * 10 ^ Z.of_nat t
                  = whole * 10 ^ Z.of_nat (6 - t) * 10 ^ Z.of_nat t)
        by (rewrite <- Hst, Hdm, Hp0, Ht; ring).
      apply Z.mul_cancel_r in E; [|lia]. rewrite E.
      replace (6 - t)%nat with (S (5 - t)) by lia.
      rewrite Nat2Z.inj_succ, Z.pow_succ_r by lia.
      replace (whole * (10 * 10 ^ Z.of_nat (5 - t)))
        with (whole * 10 ^ Z.of_nat (5 - t) * 10) by ring.
      apply Z_mod_mult. }
    destruct (Z.eqb_spec part 0) as [|_]; [contradiction|].
    assert (Hxs : (x == inject_Z s / inject_Z (10 ^ Z.of_nat (6 - t)))%Q).
    { rewrite Hx, Hst, Ht, !inject_Z_mult. field.
      split; apply Qpow_nonzero. }
    unfold positive_toString.
    rewrite (@shortest_decimal_fraction x s (6 - t) Hs Hmod) by
      (try exact Hxs; unfold MAX_FRACTION_DIGITS; lia).
    destruct (@decimal_digits_last s Hs Hmod) as (l & c & Hds & Hc).
    pose proof (@decimal_digits_shift s t Hs) as Hshift.
    rewrite <- Hst in Hshift.
    set (ds := decimal_digits s) in *.
    assert (Hk : (1 <= List.length ds)%nat)
      by (rewrite Hds, length_app; simpl; lia).
    destruct (Z.eqb_spec whole 0) as [Hw0|Hwnz].
    + (* below one *)
      assert (Hmp : m = part) by lia.
      assert (Hlen : (List.length (decimal_digits m) <= 6)%nat)
        by (apply decimal_digits_length; change (Z.of_nat 6) with 6; lia).
      rewrite Hshift, length_app, repeat_length in Hlen.
      rewrite <- Hmp. unfold Spec.pad_zeros.
      rewrite Hshift, length_app, repeat_length.
      replace ((Z.of_nat (List.length ds)
                <=? Z.of_nat (List.length ds) + - Z.of_nat (6 - t))
               && (Z.of_nat (List.length ds) + - Z.of_nat (6 - t) <=? 21))%bool
        with false
        by (symmetry; apply andb_false_iff; left; apply Z.leb_gt; lia).
      replace ((0 <? Z.of_nat (List.length ds) + - Z.of_nat (6 - t))
               && (Z.of_nat (List.length ds) + - Z.of_nat (6 - t) <=? 21))%bool
        with false
        by (symmetry; apply andb_false_iff; left; apply Z.ltb_ge; lia).
      replace ((-6 <? Z.of_nat (List.length ds) + - Z.of_nat (6 - t))
               && (Z.of_nat (List.length ds) + - Z.of_nat (6 - t) <=? 0))%bool
        with true
        by (symmetry; apply andb_true_iff; split;
            [apply Z.ltb_lt | apply Z.leb_le]; lia).
      unfold zeros.
      replace (Z.to_nat (- (Z.of_nat (List.length ds) + - Z.of_nat (6 - t))))
        with (6 - (List.length ds + t))%nat by lia.
      change (str "0." ++ repeat (chr "0") (6 - (List.length ds + t)) ++ ds)
        with (str "0" ++ chr "." ::
              repeat (chr "0") (6 - (List.length ds + t)) ++ ds).
      f_equal. f_equal.
      generalize (6 - (List.length ds + t))%nat. intros pad.
      rewrite Hds.
      replace (repeat (chr "0") pad ++ (l ++ [c]) ++ repeat (chr "0") t)
        with (((repeat (chr "0") pad ++ l) ++ [c]) ++ repeat (chr "0") t)
        by (rewrite <- !app_assoc; reflexivity).
      rewrite strip_trailing_zeros_app by exact Hc.
      rewrite <- app_assoc. reflexivity.
    + (* one or more *)
      assert (Hw : 0 < whole) by lia.
      pose proof (@decimal_digits_block whole part 6 Hw) as Hblock.
      change (Z.of_nat 6) with 6 in Hblock.
      specialize (Hblock Hfr).
      replace (whole * 10 ^ 6 + part) with m in Hblock by lia.
      rewrite Hshift in Hblock.
      set (A := decimal_digits whole) in *.
      set (B := Spec.pad_zeros 6 (decimal_digits part)) in *.
      assert (HlenB : List.length B = 6%nat).
      { unfold B, Spec.pad_zeros. rewrite length_app, repeat_length.
        assert (List.length (decimal_digits part) <= 6)%nat
          by (apply decimal_digits_length; change (Z.of_nat 6) with 6; lia).
        lia. }
      assert (HlenA : (1 <= List.length A <= 21)%nat).
      { split.
        - pose proof (@decimal_digits_nonempty whole Hw) as Hne.
          fold A in Hne. destruct A; [congruence|simpl; lia].
        - apply decimal_digits_length. change (Z.of_nat 21) with 21. lia. }
      assert (Hsum : (List.length ds + t = List.length A + 6)%nat).
      { apply (f_equal (@List.length _)) in Hblock.
        rewrite !length_app, repeat_length, HlenB in Hblock. exact Hblock. }
      destruct (@app_split_at _ ds (repeat (chr "0") t) A B Hblock)
        as (mm & HdsA & HB); [lia|].
      assert (Hmm : exists l', mm = l' ++ [c]).
      { destruct (exists_last (l := mm)) as (l' & c' & Hl').
        - intros ->. rewrite app_nil_r in HdsA.
          rewrite HdsA in Hsum. lia.
        - exists l'. rewrite Hl' in HdsA. rewrite Hds, app_assoc in HdsA.
          apply app_inj_tail in HdsA. destruct HdsA as [_ ->]. exact Hl'. }
      destruct Hmm as (l' & Hl').
      replace (Z.of_nat (List.length ds) + - Z.of_nat (6 - t))
        with (Z.of_nat (List.length A)) by lia.
      replace ((Z.of_nat (List.length ds) <=? Z.of_nat (List.length A))
               && (Z.of_nat (List.length A) <=? 21))%bool
        with false
        by (symmetry; apply andb_false_iff; left; apply Z.leb_gt; lia).
      replace ((0 <? Z.of_nat (List.length A))
               && (Z.of_nat (List.length A) <=? 21))%bool
        with true
        by (symmetry; apply andb_true_iff; split;
            [apply Z.ltb_lt | apply Z.leb_le]; lia).
      rewrite Nat2Z.id, HdsA.
      rewrite firstn_app, firstn_all, Nat.sub_diag, firstn_O, app_nil_r.
      rewrite skipn_app, skipn_all, Nat.sub_diag, skipn_O. simpl app.
      f_equal. f_equal. rewrite HB, Hl'.
      rewrite strip_trailing_zeros_app by exact Hc. reflexivity.
Qed.

End ToStringFacts.

(** *** lib/mathUtils *)

Module MathUtilsFacts.

Import MathUtils JSFacts.

(** **** factorial *)

Lemma factorial_unfold (depth : nat) (n : number) :
  factorial (S depth) n =
  if lt n (of_Z 0) then
    Some (toast_error FactorialNeedsNonNegInt ;; ret NaN)
  else if strict_eq n (of_Z 0) || strict_eq n (of_Z 1) then
    Some (ret (of_Z 1))
  else
    match factorial depth (sub n (of_Z 1)) with
    | Some r => Some (bind r (fun v => ret (mul n v)))
    | None => None
    end.
Proof. reflexivity. Qed.

(** On the natural number [k] the recursion needs [k] nested calls (one
    for 0) and returns [k!] without posting anything. *)
Lemma factorial_nat (k : nat) :
  forall (depth : nat) (q : Q),
    (k < depth)%nat -> q == inject_Z (Z.of_nat k) ->
    factorial depth (Fin q) = Some (of_Z (Z.of_nat (fact k)), []).
Proof.
  induction k as [|k IH]; intros depth q Hd Hq;
    (destruct depth as [|depth]; [lia|]); rewrite factorial_unfold.
  - assert (L : lt (Fin q) (of_Z 0) = false).
    { apply Qlt_bool_false_iff. rewrite Hq. apply Qle_refl. }
    assert (E : strict_eq (Fin q) (of_Z 0) = true).
    { apply Qeq_bool_iff. exact Hq. }
    rewrite L, E. reflexivity.
  - assert (L : lt (Fin q) (of_Z 0) = false).
    { apply Qlt_bool_false_iff. rewrite Hq. apply inject_le. lia. }
    rewrite L.
    assert (E0 : strict_eq (Fin q) (of_Z 0) = false).
    { apply Qeq_bool_false_iff. rewrite Hq. intros H.
      apply inject_inj in H. lia. }
    rewrite E0, orb_false_l.
    destruct k as [|k].
    + assert (E1 : strict_eq (Fin q) (of_Z 1) = true).
      { apply Qeq_bool_iff. exact Hq. }
      rewrite E1. reflexivity.
    + assert (E1 : strict_eq (Fin q) (of_Z 1) = false).
      { apply Qeq_bool_false_iff. rewrite Hq. intros H.
        apply inject_inj in H. lia. }
      rewrite E1.
      assert (Hsub : sub (Fin q) (of_Z 1) = of_Z (Z.of_nat (S k))).
      { unfold sub, neg, of_Z, add. apply fin_of_Z.
        rewrite Qred_correct, Hq.
        rewrite <- inject_Z_opp, <- inject_Z_plus.
        apply inject_eq. lia. }
      rewrite Hsub. unfold of_Z at 1.
      rewrite (IH depth (inject_Z (Z.of_nat (S k)))); [|lia|reflexivity].
      unfold bind, ret. rewrite app_nil_r. do 2 f_equal.
      unfold mul, of_Z. apply fin_of_Z. rewrite Hq.
      rewrite <- inject_Z_mult. apply inject_eq.
      change (fact (S (S k))) with (S (S k) * fact (S k))%nat. lia.
Qed.

(** On a finite number the recursion ends: each call is on a value
    smaller by one, and a negative value is answered at once. *)
Lemma factorial_finite_returns (k : nat) :
  forall (depth : nat) (q : Q),
    (k < depth)%nat -> q <= inject_Z (Z.of_nat k) ->
    exists r, factorial depth (Fin q) = Some r.
Proof.
  induction k as [|k IH]; intros depth q Hd Hq;
    (destruct depth as [|depth]; [lia|]); rewrite factorial_unfold;
    destruct (lt (Fin q) (of_Z 0)) eqn:L; eauto;
    destruct (strict_eq (Fin q) (of_Z 0) || strict_eq (Fin q) (of_Z 1))%bool
      eqn:E; eauto.
  - exfalso. apply orb_false_iff in E. destruct E as [E _].
    apply Qeq_bool_false_iff in E. apply Qlt_bool_false_iff in L.
    apply E. apply Qle_antisym; assumption.
  - destruct (IH depth (Qred (q + Qred (- inject_Z 1)))) as [r Hr];
      [lia| |].
    + rewrite !Qred_correct. rewrite <- inject_Z_opp.
      apply Qle_trans with (inject_Z (Z.of_nat (S k)) + inject_Z (- (1)));
        [apply Qplus_le_l; exact Hq|].
      rewrite <- inject_Z_plus. apply inject_le. lia.
    + change (sub (Fin q) (of_Z 1))
        with (Fin (Qred (q + Qred (- inject_Z 1)))).
      rewrite Hr. eauto.
Qed.

(** C9 at its failing inputs.  On [NaN] and on [Infinity] no test of the
    function holds, so it calls itself on [n - 1], which is [n] again:
    every call stack is exhausted, however deep. *)
Theorem factorial_never_returns (depth : nat) :
  factorial depth NaN = None /\ factorial depth PosInf = None.
Proof.
  induction depth as [|depth [IHn IHi]]; [split; reflexivity|].
  split; rewrite factorial_unfold.
  - change (sub NaN (of_Z 1)) with NaN. rewrite IHn. reflexivity.
  - change (sub PosInf (of_Z 1)) with PosInf. rewrite IHi. reflexivity.
Qed.

(** **** solveQuadraticEquation *)

Section Quadratic.

Context {RT : Runtime}.

Lemma div_Fin (x y : Q) : ~ y == 0 -> div (Fin x) (Fin y) = fin (x / y).
Proof.
  intros Hy. unfold div. apply Qeq_bool_false_iff in Hy.
  rewrite Hy. reflexivity.
Qed.

(** The discriminant the function computes, as a rational. *)
Lemma discriminant_value (a b c : Q) :
  exists d, sub (mul (Fin b) (Fin b)) (mul (mul (of_Z 4) (Fin a)) (Fin c))
            = Fin d
            /\ d == b * b - 4 * a * c.
Proof.
  eexists. split; [reflexivity|].
  rewrite !Qred_correct. unfold Qminus. reflexivity.
Qed.


End Quadratic.

#[local] Existing Instance Sample.runtime.

Lemma sample_sqrt_positive (d : Q) :
  0 < d -> exists s, Math_sqrt (Fin d) = Fin s /\ 0 < s.
Proof.
  intros Hd. simpl Math_sqrt. unfold Sample.sqrt.
  assert (L : Qlt_bool d 0 = false)
    by (apply Qlt_bool_false_iff, Qlt_le_weak, Hd).
  rewrite L. eexists. split; [reflexivity|].
  rewrite Qred_correct. unfold Qlt. simpl. rewrite Z.mul_1_r.
  apply Z.sqrt_pos.
  assert (0 < Qnum d)%Z.
  { unfold Qlt in Hd. simpl in Hd. lia. }
  apply Z.mul_pos_pos; [apply Z.mul_pos_pos|]; lia.
Qed.



End MathUtilsFacts.

(** *** Regular expressions and the string functions *)

Module StringFacts.

Import Regex.

(** A run of [p] that reaches the end of the string is matched whole. *)
Lemma match_star_all (A : Type) (p : codeunit -> bool) (s : jsstring)
    (cs : captures) (k : cont A) (x : A) :
  forallb p s = true -> k [] cs = Some x -> match_star p s cs k = Some x.
Proof.
  intros Hall Hk. induction s as [|c s IH]; simpl; [exact Hk|].
  simpl in Hall. apply andb_true_iff in Hall. destruct Hall as [Hc Hs].
  rewrite Hc, (IH Hs). reflexivity.
Qed.

(** [/^[p]+$/] accepts the non-empty strings made of [p]. *)
Lemma test_plus_all (p : codeunit -> bool) (s : jsstring) :
  s <> [] -> forallb p s = true -> test_anchored (Plus p) s = true.
Proof.
  intros Hne Hall. destruct s as [|c s]; [congruence|].
  simpl in Hall. apply andb_true_iff in Hall. destruct Hall as [Hc Hs].
  unfold test_anchored. simpl. rewrite Hc.
  rewrite (@match_star_all unit p s [] _ tt Hs eq_refl). reflexivity.
Qed.

Lemma take_while_all (p : codeunit -> bool) (s : jsstring) :
  forallb p s = true -> take_while p s = s.
Proof.
  induction s as [|c s IH]; simpl; [reflexivity|].
  intros H. apply andb_true_iff in H. destruct H as [Hc Hs].
  rewrite Hc, (IH Hs). reflexivity.
Qed.

Lemma drop_while_all (p : codeunit -> bool) (s : jsstring) :
  forallb p s = true -> drop_while p s = [].
Proof.
  induction s as [|c s IH]; simpl; [reflexivity|].
  intros H. apply andb_true_iff in H. destruct H as [Hc Hs].
  rewrite Hc. exact (IH Hs).
Qed.

Lemma take_while_stop (p : codeunit -> bool) (a : jsstring) (c : codeunit)
    (r : jsstring) :
  forallb p a = true -> p c = false ->
  take_while p (a ++ c :: r) = a /\ drop_while p (a ++ c :: r) = c :: r.
Proof.
  intros Ha Hc. induction a as [|x a IH]; simpl.
  - rewrite Hc. split; reflexivity.
  - simpl in Ha. apply andb_true_iff in Ha. destruct Ha as [Hx Ha].
    rewrite Hx. destruct (IH Ha) as [-> ->]. split; reflexivity.
Qed.

(** Comparisons of code units, turned into arithmetic. *)
Ltac cu_cases :=
  unfold Calculator.is_mul_rhs, is_radix_digit, digit_value, is_space,
         is_digit, is_letter, in_range, cu_eqb, chr,
         GREEK_PI, SUPERSCRIPT_TWO, MULTIPLICATION_SIGN, DIVISION_SIGN in *;
  simpl N_of_ascii in *;
  repeat match goal with
         | |- context [N.leb ?a ?b] =>
             destruct (N.leb_spec a b); simpl; try lia
         | |- context [N.eqb ?a ?b] =>
             destruct (N.eqb_spec a b); simpl; try lia
         | H : context [N.leb ?a ?b] |- _ =>
             destruct (N.leb_spec a b); simpl in H; try lia
         | H : context [N.eqb ?a ?b] |- _ =>
             destruct (N.eqb_spec a b); simpl in H; try lia
         | H : context [Z.ltb ?a ?b] |- _ =>
             destruct (Z.ltb_spec a b); simpl in H; try lia
         end;
  try discriminate; try reflexivity; try lia.

(** A digit of a radix up to sixteen is no white space, no sign and no
    [x]. *)
Lemma radix_digit_plain (r : Z) (c : codeunit) :
  (r <= 16)%Z -> is_radix_digit r c = true ->
  is_space c = false
  /\ cu_eqb c (chr "-") = false /\ cu_eqb c (chr "+") = false
  /\ cu_eqb c (chr "x") = false /\ cu_eqb c (chr "X") = false.
Proof.
  intros Hr H. repeat split; cu_cases.
Qed.

(** On a non-empty run of digits of the radix, [parseInt] is the
    positional value. *)
Lemma parseInt_digits (r : Z) (s : jsstring) :
  (r <= 16)%Z -> s <> [] -> forallb (is_radix_digit r) s = true ->
  parseInt s r = of_Z (positional_value r s).
Proof.
  intros Hr Hne Hall. destruct s as [|c s]; [congruence|].
  pose proof Hall as Hall'. simpl in Hall'.
  apply andb_true_iff in Hall'. destruct Hall' as [Hc Hs].
  destruct (radix_digit_plain c Hr Hc) as (Hsp & Hm & Hp & _).
  unfold parseInt. simpl trim_start. rewrite Hsp.
  unfold strip_sign. rewrite Hm, Hp.
  assert (Hx : strip_hex_prefix (c :: s) = c :: s).
  { destruct s as [|cx s]; [reflexivity|]. simpl in Hs.
    apply andb_true_iff in Hs. destruct Hs as [Hcx _].
    destruct (radix_digit_plain cx Hr Hcx) as (_ & _ & _ & Hx1 & Hx2).
    unfold strip_hex_prefix. rewrite Hx1, Hx2, andb_false_r. reflexivity. }
  rewrite Hx.
  destruct (r =? 16)%Z; rewrite (take_while_all _ _ Hall); reflexivity.
Qed.

(** **** The matcher *)

Lemma take_drop_while (p : codeunit -> bool) (s : jsstring) :
  take_while p s ++ drop_while p s = s.
Proof.
  induction s as [|c s IH]; simpl; [reflexivity|].
  destruct (p c); simpl; [rewrite IH|]; reflexivity.
Qed.

Lemma firstn_prefix (A : Type) (a b : list A) :
  firstn (List.length (a ++ b) - List.length b) (a ++ b) = a.
Proof.
  rewrite length_app, Nat.add_sub.
  rewrite firstn_app, Nat.sub_diag, firstn_all, firstn_O, app_nil_r.
  reflexivity.
Qed.

Lemma firstn_len_sub (A : Type) (s a b : list A) :
  s = a ++ b -> firstn (List.length s - List.length b) s = a.
Proof. intros ->. apply firstn_prefix. Qed.

(** When the rest of the pattern cannot start with a character of the
    class, the greedy [p*] takes the whole run and never gives back. *)
Lemma match_star_commit (A : Type) (p : codeunit -> bool) (k : cont A) :
  (forall c s cs, p c = true -> k (c :: s) cs = None) ->
  forall s cs, match_star p s cs k = k (drop_while p s) cs.
Proof.
  intros Hk s cs. induction s as [|c s IH]; simpl; [reflexivity|].
  destruct (p c) eqn:E; [|reflexivity].
  rewrite IH, (Hk c s cs E). destruct (k (drop_while p s) cs); reflexivity.
Qed.

(** Whatever the pattern, the continuation is run on a suffix of the
    string. *)
Lemma match_star_suffix (A : Type) (p : codeunit -> bool) (k : cont A)
    (s : jsstring) (cs : captures) (x : A) :
  match_star p s cs k = Some x ->
  exists pre s1 c1, s = pre ++ s1 /\ k s1 c1 = Some x.
Proof.
  induction s as [|c s IH]; simpl; intros H.
  - exists [], [], cs. auto.
  - destruct (p c).
    + destruct (match_star p s cs k) as [y|] eqn:E.
      * injection H as ->. destruct (IH eq_refl) as (pre & s1 & c1 & -> & Hk).
        exists (c :: pre), s1, c1. auto.
      * exists [], (c :: s), cs. auto.
    + exists [], (c :: s), cs. auto.
Qed.

Lemma rmatch_suffix (A : Type) (r : regex) :
  forall (s : jsstring) (cs : captures) (k : cont A) (x : A),
    rmatch r s cs k = Some x ->
    exists pre s1 c1, s = pre ++ s1 /\ k s1 c1 = Some x.
Proof.
  induction r as [p|p|p|r1 IH1 r2 IH2|r1 IH1|i r1 IH1];
    intros s cs k x H; simpl in H.
  - destruct s as [|c s]; [discriminate|]. destruct (p c); [|discriminate].
    exists [c], s, cs. auto.
  - apply match_star_suffix in H. exact H.
  - destruct s as [|c s]; [discriminate|]. destruct (p c); [|discriminate].
    apply match_star_suffix in H. destruct H as (pre & s1 & c1 & -> & Hk).
    exists (c :: pre), s1, c1. auto.
  - apply IH1 in H. destruct H as (pre1 & s1 & c1 & -> & H).
    apply IH2 in H. destruct H as (pre2 & s2 & c2 & -> & H).
    exists (pre1 ++ pre2), s2, c2. rewrite <- app_assoc. auto.
  - destruct (rmatch r1 s cs k) as [y|] eqn:E.
    + injection H as ->. apply IH1 in E. exact E.
    + exists [], s, cs. auto.
  - apply IH1 in H. destruct H as (pre & s1 & c1 & -> & H).
    eexists pre, s1, _. split; [reflexivity | exact H].
Qed.

(** A match is a prefix of the string, and the rest is what follows. *)
Lemma exec_split (r : regex) (s m rest : jsstring) (cs : captures) :
  exec r s = Some (m, cs, rest) -> s = m ++ rest.
Proof.
  unfold exec. intros H. apply rmatch_suffix in H.
  destruct H as (pre & s1 & c1 & -> & H). injection H as <- _ <-.
  rewrite firstn_prefix. reflexivity.
Qed.

(** **** Global replacement *)

(** Replacement can be done piece by piece at a place that no match
    crosses: the matches found in [u] are the same whether or not [t]
    follows. *)
Lemma replace_from_app (r : regex) (f : jsstring -> captures -> jsstring)
    (t : jsstring) :
  exec r [] = None ->
  forall (u : jsstring) (n : nat),
    (n <= List.length u)%nat ->
    (forall pre w, u = pre ++ w -> w <> [] ->
                   exec r (w ++ t) = extend_match t (exec r w)) ->
    replace_from r f n (u ++ t) = replace_from r f n u ++ replace_from r f 0 t.
Proof.
  intros Hnil u. induction u as [|c u IH]; intros n Hn Hloc.
  - simpl in Hn. assert (n = 0)%nat by lia. subst n.
    simpl. rewrite Hnil. reflexivity.
  - assert (Hloc' : forall pre w, u = pre ++ w -> w <> [] ->
                      exec r (w ++ t) = extend_match t (exec r w)).
    { intros pre w -> Hw. apply (Hloc (c :: pre) w); auto. }
    destruct n as [|n].
    + simpl app. simpl replace_from.
      change (c :: u ++ t) with ((c :: u) ++ t).
      rewrite (Hloc [] (c :: u) eq_refl) by discriminate.
      destruct (exec r (c :: u)) as [[[m cs] rest]|] eqn:E; simpl extend_match.
      * apply exec_split in E.
        destruct m as [|m0 m]; simpl List.length.
        -- rewrite IH by (auto; lia). rewrite <- app_assoc. reflexivity.
        -- assert (List.length m <= List.length u)%nat.
           { apply (f_equal (@List.length _)) in E.
             simpl in E. rewrite length_app in E. lia. }
           cbv iota. rewrite IH by auto. rewrite <- app_assoc. reflexivity.
      * rewrite IH by (auto; lia). reflexivity.
    + simpl. simpl in Hn. apply IH; [lia | exact Hloc'].
Qed.

Lemma replace_all_app (r : regex) (f : jsstring -> captures -> jsstring)
    (u t : jsstring) :
  exec r [] = None ->
  (forall pre w, u = pre ++ w -> w <> [] ->
                 exec r (w ++ t) = extend_match t (exec r w)) ->
  replace_all r f (u ++ t) = replace_all r f u ++ replace_all r f t.
Proof.
  intros Hnil Hloc. unfold replace_all.
  apply replace_from_app; [exact Hnil | lia | exact Hloc].
Qed.

(** One step of the scan. *)
Lemma replace_from_cons (r : regex) (f : jsstring -> captures -> jsstring)
    (c : codeunit) (s : jsstring) :
  replace_from r f 0 (c :: s)
  = match exec r (c :: s) with
    | Some (m, cs, _) =>
        f m cs ++
        match List.length m with
        | O => c :: replace_from r f 0 s
        | S n => replace_from r f n s
        end
    | None => c :: replace_from r f 0 s
    end.
Proof. reflexivity. Qed.

Lemma replace_all_skip (r : regex) (f : jsstring -> captures -> jsstring)
    (c : codeunit) (s : jsstring) :
  exec r (c :: s) = None ->
  replace_all r f (c :: s) = c :: replace_all r f s.
Proof. intros H. unfold replace_all. simpl. rewrite H. reflexivity. Qed.

Lemma replace_from_skip (r : regex) (f : jsstring -> captures -> jsstring)
    (m s : jsstring) :
  replace_from r f (List.length m) (m ++ s) = replace_from r f 0 s.
Proof.
  induction m as [|c m IH]; [reflexivity|]. simpl. exact IH.
Qed.

Lemma replace_all_match (r : regex) (f : jsstring -> captures -> jsstring)
    (c : codeunit) (m s : jsstring) (cs : captures) :
  exec r ((c :: m) ++ s) = Some (c :: m, cs, s) ->
  replace_all r f ((c :: m) ++ s) = f (c :: m) cs ++ replace_all r f s.
Proof.
  intros H. unfold replace_all. simpl app in *. simpl replace_from.
  rewrite H. simpl List.length. cbv iota.
  rewrite replace_from_skip. reflexivity.
Qed.

(** **** Replacing one character *)

Lemma exec_Lit (c : codeunit) (s : jsstring) :
  exec (Lit c) s =
  match s with
  | x :: s' => if cu_eqb c x then Some ([x], [], s') else None
  | [] => None
  end.
Proof.
  unfold exec, Lit. simpl. destruct s as [|x s']; [reflexivity|].
  destruct (cu_eqb c x); [|reflexivity].
  change (x :: s') with ([x] ++ s').
  rewrite (firstn_prefix [x] s'). reflexivity.
Qed.

Lemma replace_Lit_cons (c : codeunit) (t : jsstring) (x : codeunit)
    (s : jsstring) :
  replace_all (Lit c) (Calculator.constant t) (x :: s)
  = (if cu_eqb c x then t else [x])
    ++ replace_all (Lit c) (Calculator.constant t) s.
Proof.
  destruct (cu_eqb c x) eqn:E.
  - change (x :: s) with ([x] ++ s). rewrite (@replace_all_match _ _ x [] s []).
    + reflexivity.
    + rewrite exec_Lit. simpl. rewrite E. reflexivity.
  - rewrite replace_all_skip; [reflexivity|].
    rewrite exec_Lit, E. reflexivity.
Qed.

Lemma replace_Lit_nil (c : codeunit) (t : jsstring) :
  replace_all (Lit c) (Calculator.constant t) [] = [].
Proof. reflexivity. Qed.

Lemma replace_Lit_app (c : codeunit) (t u v : jsstring) :
  replace_all (Lit c) (Calculator.constant t) (u ++ v)
  = replace_all (Lit c) (Calculator.constant t) u
    ++ replace_all (Lit c) (Calculator.constant t) v.
Proof.
  induction u as [|x u IH]; [reflexivity|].
  simpl app. rewrite !replace_Lit_cons, IH, app_assoc. reflexivity.
Qed.

End StringFacts.

(** *** sanitizeExpressionForEval *)

Module SanitizeFacts.

Import Regex StringFacts Calculator.

Lemma drop_while_app (p : codeunit -> bool) (a b : jsstring) :
  drop_while p (a ++ b)
  = match drop_while p a with
    | [] => drop_while p b
    | c :: r => c :: r ++ b
    end.
Proof.
  induction a as [|x a IH]; simpl; [destruct (drop_while p b); reflexivity|].
  destruct (p x); [exact IH | reflexivity].
Qed.

Lemma take_while_app (p : codeunit -> bool) (a b : jsstring) :
  take_while p (a ++ b)
  = match drop_while p a with
    | [] => a ++ take_while p b
    | _ :: _ => take_while p a
    end.
Proof.
  induction a as [|x a IH]; simpl; [reflexivity|].
  destruct (p x); [|reflexivity].
  rewrite IH. destruct (drop_while p a); reflexivity.
Qed.

(** The first character of what [drop_while] leaves is outside the
    class. *)
Lemma drop_while_head (p : codeunit -> bool) (s : jsstring) (c : codeunit)
    (r : jsstring) :
  drop_while p s = c :: r -> p c = false.
Proof.
  induction s as [|x s IH]; simpl; [discriminate|].
  destruct (p x) eqn:E; [exact IH|]. intros H. injection H as <- _. exact E.
Qed.

(** **** The three patterns with a quantifier, as functions of the
    string *)

Lemma space_is_no_mul_rhs (c : codeunit) :
  is_space c = true -> is_mul_rhs c = false.
Proof.
  intros H. cu_cases.
Qed.

Lemma space_is_no_paren (c : codeunit) :
  is_space c = true -> cu_eqb (chr "(") c = false.
Proof. intros H. cu_cases. Qed.

(** [/(\d)\s*([a-zA-Zπ(])/]: a digit, the white space after it, and a
    letter, a pi or an opening parenthesis. *)
Lemma exec_implicit_mul (s : jsstring) :
  exec RE_IMPLICIT_MUL s =
  match s with
  | d :: t =>
      if is_digit d then
        match drop_while is_space t with
        | c :: t' =>
            if is_mul_rhs c
            then Some (d :: take_while is_space t ++ [c],
                       [(2%nat, [c]); (1%nat, [d])], t')
            else None
        | [] => None
        end
      else None
  | [] => None
  end.
Proof.
  unfold exec, RE_IMPLICIT_MUL. destruct s as [|d t]; [reflexivity|].
  cbn [rmatch]. destruct (is_digit d); [|reflexivity].
  rewrite match_star_commit.
  - pose proof (take_drop_while is_space t) as Ht.
    destruct (drop_while is_space t) as [|c t'] eqn:E; [reflexivity|].
    cbn [rmatch]. destruct (is_mul_rhs c); [|reflexivity].
    rewrite (@firstn_len_sub _ (c :: t') [c] t' eq_refl).
    rewrite (@firstn_len_sub _ (d :: t) [d] t eq_refl).
    rewrite (@firstn_len_sub _ (d :: t) (d :: take_while is_space t ++ [c]) t')
      by (rewrite <- Ht at 1; simpl; rewrite <- app_assoc; reflexivity).
    reflexivity.
  - intros c s0 cs Hc. cbn [rmatch].
    rewrite (space_is_no_mul_rhs c Hc). reflexivity.
Qed.

(** [/\)\s*\(/]. *)
Lemma exec_paren_paren (s : jsstring) :
  exec RE_PAREN_PAREN s =
  match s with
  | c0 :: t =>
      if cu_eqb (chr ")") c0 then
        match drop_while is_space t with
        | c :: t' =>
            if cu_eqb (chr "(") c
            then Some (c0 :: take_while is_space t ++ [c], [], t')
            else None
        | [] => None
        end
      else None
  | [] => None
  end.
Proof.
  unfold exec, RE_PAREN_PAREN, Lit. destruct s as [|c0 t]; [reflexivity|].
  cbn [rmatch]. destruct (cu_eqb (chr ")") c0); [|reflexivity].
  rewrite match_star_commit.
  - pose proof (take_drop_while is_space t) as Ht.
    destruct (drop_while is_space t) as [|c t'] eqn:E; [reflexivity|].
    cbn [rmatch]. destruct (cu_eqb (chr "(") c); [|reflexivity].
    rewrite (@firstn_len_sub _ (c0 :: t) (c0 :: take_while is_space t ++ [c]) t')
      by (rewrite <- Ht at 1; simpl; rewrite <- app_assoc; reflexivity).
    reflexivity.
  - intros c s0 cs Hc. cbn [rmatch].
    rewrite (space_is_no_paren c Hc). reflexivity.
Qed.

Lemma digit_is_no_punctuation (c : codeunit) :
  is_digit c = true ->
  cu_eqb (chr ".") c = false /\ cu_eqb (chr "%") c = false
  /\ is_space c = false /\ is_mul_rhs c = false
  /\ cu_eqb (chr ")") c = false /\ cu_eqb (chr "(") c = false.
Proof. intros H. repeat split; cu_cases. Qed.

Lemma point_is_no_percent (c : codeunit) :
  cu_eqb (chr ".") c = true -> cu_eqb (chr "%") c = false.
Proof. intros H. cu_cases. Qed.

(** [/(\d+(\.\d+)?)%/]: a run of digits, possibly a point and another
    run of digits, and the percent sign. *)
Lemma exec_percent (s : jsstring) :
  exec RE_PERCENT s =
  match s with
  | d :: t =>
      if is_digit d then
        let ds := d :: take_while is_digit t in
        match drop_while is_digit t with
        | c1 :: r1 =>
            if cu_eqb (chr ".") c1 then
              match r1 with
              | d2 :: u =>
                  if is_digit d2 then
                    match drop_while is_digit u with
                    | c3 :: r3 =>
                        if cu_eqb (chr "%") c3 then
                          let fs := c1 :: d2 :: take_while is_digit u in
                          Some (ds ++ fs ++ [c3],
                                [(1%nat, ds ++ fs); (2%nat, fs)], r3)
                        else None
                    | [] => None
                    end
                  else None
              | [] => None
              end
            else if cu_eqb (chr "%") c1
                 then Some (ds ++ [c1], [(1%nat, ds)], r1)
                 else None
        | [] => None
        end
      else None
  | [] => None
  end.
Proof.
  unfold exec, RE_PERCENT, Lit. destruct s as [|d t]; [reflexivity|].
  cbn [rmatch]. destruct (is_digit d); [|reflexivity].
  rewrite match_star_commit.
  2:{ intros c s0 cs Hc. cbn [rmatch].
      destruct (digit_is_no_punctuation c Hc) as (H1 & H2 & _).
      rewrite H1, H2. reflexivity. }
  pose proof (take_drop_while is_digit t) as Ht.
  destruct (drop_while is_digit t) as [|c1 r1] eqn:E1; [reflexivity|].
  cbn [rmatch]. cbv zeta.
  assert (F1 : firstn (List.length (d :: t) - List.length (c1 :: r1)) (d :: t)
               = d :: take_while is_digit t).
  { apply firstn_len_sub. rewrite <- Ht at 1. reflexivity. }
  assert (F2 : firstn (List.length (d :: t) - List.length r1) (d :: t)
               = (d :: take_while is_digit t) ++ [c1]).
  { apply firstn_len_sub. rewrite <- Ht at 1. simpl.
    rewrite <- app_assoc. reflexivity. }
  destruct (cu_eqb (chr ".") c1) eqn:Ep.
  - rewrite (point_is_no_percent c1 Ep).
    destruct r1 as [|d2 u]; [reflexivity|].
    destruct (is_digit d2); [|reflexivity].
    rewrite match_star_commit.
    2:{ intros c s0 cs Hc. cbn [rmatch].
        destruct (digit_is_no_punctuation c Hc) as (_ & H2 & _).
        rewrite H2. reflexivity. }
    pose proof (take_drop_while is_digit u) as Hu.
    destruct (drop_while is_digit u) as [|c3 r3] eqn:E3; [reflexivity|].
    cbn [rmatch]. destruct (cu_eqb (chr "%") c3); [|reflexivity].
    rewrite (@firstn_len_sub _ (d :: t)
               ((d :: take_while is_digit t)
                ++ (c1 :: d2 :: take_while is_digit u) ++ [c3]) r3).
    2:{ rewrite <- Ht at 1. rewrite <- Hu at 1. simpl.
        rewrite <- !app_assoc. simpl. rewrite <- !app_assoc. reflexivity. }
    rewrite (@firstn_len_sub _ (d :: t)
               ((d :: take_while is_digit t)
                ++ (c1 :: d2 :: take_while is_digit u)) (c3 :: r3)).
    2:{ rewrite <- Ht at 1. rewrite <- Hu at 1. simpl.
        rewrite <- !app_assoc. reflexivity. }
    rewrite (@firstn_len_sub _ (c1 :: d2 :: u)
               (c1 :: d2 :: take_while is_digit u) (c3 :: r3)).
    2:{ rewrite <- Hu at 1. reflexivity. }
    reflexivity.
  - destruct (cu_eqb (chr "%") c1); [|reflexivity].
    rewrite F1, F2. reflexivity.
Qed.

(** **** The implicit-multiplication pass *)

Lemma implicit_mul_local (x : codeunit) (t w : jsstring) :
  is_space x = false -> is_mul_rhs x = false -> w <> [] ->
  exec RE_IMPLICIT_MUL (w ++ x :: t)
  = extend_match (x :: t) (exec RE_IMPLICIT_MUL w).
Proof.
  intros Hs Hr Hw. destruct w as [|d w]; [congruence|].
  simpl app. rewrite !exec_implicit_mul.
  destruct (is_digit d); [|reflexivity].
  rewrite drop_while_app, take_while_app.
  destruct (drop_while is_space w) as [|c r].
  - simpl. rewrite Hs, Hr. reflexivity.
  - destruct (is_mul_rhs c); reflexivity.
Qed.

Lemma implicit_mul_app (u : jsstring) (x : codeunit) (t : jsstring) :
  is_space x = false -> is_mul_rhs x = false ->
  implicit_mul_pass (u ++ x :: t)
  = implicit_mul_pass u ++ implicit_mul_pass (x :: t).
Proof.
  intros Hs Hr. unfold implicit_mul_pass.
  apply replace_all_app; [reflexivity|].
  intros pre w _ Hw. apply implicit_mul_local; assumption.
Qed.

Lemma implicit_mul_skip (x : codeunit) (s : jsstring) :
  is_digit x = false ->
  implicit_mul_pass (x :: s) = x :: implicit_mul_pass s.
Proof.
  intros H. unfold implicit_mul_pass. apply replace_all_skip.
  rewrite exec_implicit_mul, H. reflexivity.
Qed.

Lemma implicit_mul_skip_digit (d x : codeunit) (s : jsstring) :
  is_space x = false -> is_mul_rhs x = false ->
  implicit_mul_pass (d :: x :: s) = d :: implicit_mul_pass (x :: s).
Proof.
  intros Hs Hr. unfold implicit_mul_pass. apply replace_all_skip.
  rewrite exec_implicit_mul. destruct (is_digit d); [|reflexivity].
  simpl. rewrite Hs, Hr. reflexivity.
Qed.

Lemma mul_rhs_is_plain (c : codeunit) :
  is_mul_rhs c = true ->
  is_space c = false /\ is_digit c = false
  /\ cu_eqb (chr ")") c = false /\ cu_eqb (chr "%") c = false
  /\ cu_eqb (chr ".") c = false
  /\ cu_eqb MULTIPLICATION_SIGN c = false
  /\ cu_eqb DIVISION_SIGN c = false
  /\ cu_eqb SUPERSCRIPT_TWO c = false.
Proof. intros H. repeat split; cu_cases. Qed.

Lemma implicit_mul_match (d c : codeunit) (s : jsstring) :
  is_digit d = true -> is_mul_rhs c = true ->
  implicit_mul_pass (d :: c :: s)
  = d :: chr "*" :: c :: implicit_mul_pass s.
Proof.
  intros Hd Hc. destruct (mul_rhs_is_plain c Hc) as (Hs & _).
  unfold implicit_mul_pass.
  change (d :: c :: s) with ((d :: [c]) ++ s).
  rewrite (@replace_all_match _ _ d [c] s [(2%nat, [c]); (1%nat, [d])]).
  - reflexivity.
  - rewrite exec_implicit_mul. simpl. rewrite Hd, Hs, Hc. reflexivity.
Qed.

(** **** The parenthesis pass *)

Lemma paren_local (x : codeunit) (t w : jsstring) :
  is_space x = false -> cu_eqb (chr "(") x = false -> w <> [] ->
  exec RE_PAREN_PAREN (w ++ x :: t)
  = extend_match (x :: t) (exec RE_PAREN_PAREN w).
Proof.
  intros Hs Hr Hw. destruct w as [|d w]; [congruence|].
  simpl app. rewrite !exec_paren_paren.
  destruct (cu_eqb (chr ")") d); [|reflexivity].
  rewrite drop_while_app, take_while_app.
  destruct (drop_while is_space w) as [|c r].
  - cbn [drop_while]. rewrite Hs, Hr. reflexivity.
  - destruct (cu_eqb (chr "(") c); reflexivity.
Qed.

Lemma paren_app (u : jsstring) (x : codeunit) (t : jsstring) :
  is_space x = false -> cu_eqb (chr "(") x = false ->
  paren_pass (u ++ x :: t) = paren_pass u ++ paren_pass (x :: t).
Proof.
  intros Hs Hr. unfold paren_pass.
  apply replace_all_app; [reflexivity|].
  intros pre w _ Hw. apply paren_local; assumption.
Qed.

Lemma paren_skip (x : codeunit) (s : jsstring) :
  cu_eqb (chr ")") x = false -> paren_pass (x :: s) = x :: paren_pass s.
Proof.
  intros H. unfold paren_pass. apply replace_all_skip.
  rewrite exec_paren_paren, H. reflexivity.
Qed.

Lemma paren_match (s : jsstring) :
  paren_pass (chr ")" :: chr "(" :: s) = str ")*(" ++ paren_pass s.
Proof.
  unfold paren_pass.
  change (chr ")" :: chr "(" :: s) with ((chr ")" :: [chr "("]) ++ s).
  rewrite (@replace_all_match _ _ (chr ")") [chr "("] s []).
  - reflexivity.
  - rewrite exec_paren_paren. reflexivity.
Qed.

(** **** The percent pass *)

Lemma drop_digits (ds : jsstring) (x : codeunit) (t : jsstring) :
  forallb is_digit ds = true -> is_digit x = false ->
  drop_while is_digit (ds ++ x :: t) = x :: t
  /\ take_while is_digit (ds ++ x :: t) = ds.
Proof.
  intros Hds Hx. destruct (@take_while_stop is_digit ds x t Hds Hx).
  split; assumption.
Qed.

(** Nothing that starts before a run of digits followed by a character
    that is no part of a percentage can match across it. *)
Lemma percent_local_right (ds : jsstring) (x : codeunit) (t w : jsstring) :
  forallb is_digit ds = true ->
  is_digit x = false -> cu_eqb (chr ".") x = false ->
  cu_eqb (chr "%") x = false ->
  w <> [] ->
  exec RE_PERCENT (w ++ ds ++ x :: t)
  = extend_match (ds ++ x :: t) (exec RE_PERCENT w).
Proof.
  intros Hds Hx Hp Hc Hw. destruct w as [|d w]; [congruence|].
  simpl app. rewrite !exec_percent.
  destruct (is_digit d); [|reflexivity]. cbv zeta.
  destruct (drop_digits ds x t Hds Hx) as [Hdrop Htake].
  rewrite drop_while_app, take_while_app.
  destruct (drop_while is_digit w) as [|c1 r1].
  - rewrite Hdrop, Hp, Hc. reflexivity.
  - destruct (cu_eqb (chr ".") c1).
    + destruct r1 as [|d2 u].
      * cbn [app]. destruct ds as [|d2 ds'].
        -- cbn [app]. rewrite Hx. reflexivity.
        -- cbn [app]. simpl in Hds. apply andb_true_iff in Hds.
           destruct Hds as [Hd2 Hds']. rewrite Hd2.
           destruct (drop_digits ds' x t Hds' Hx) as [-> _].
           rewrite Hc. reflexivity.
      * cbn [app]. destruct (is_digit d2); [|reflexivity].
        rewrite drop_while_app, take_while_app.
        destruct (drop_while is_digit u) as [|c3 r3].
        -- rewrite Hdrop, Hc. reflexivity.
        -- destruct (cu_eqb (chr "%") c3); reflexivity.
    + destruct (cu_eqb (chr "%") c1); reflexivity.
Qed.

Lemma percent_app_right (u ds : jsstring) (x : codeunit) (t : jsstring) :
  forallb is_digit ds = true ->
  is_digit x = false -> cu_eqb (chr ".") x = false ->
  cu_eqb (chr "%") x = false ->
  percent_pass (u ++ ds ++ x :: t)
  = percent_pass u ++ percent_pass (ds ++ x :: t).
Proof.
  intros Hds Hx Hp Hc. unfold percent_pass.
  apply replace_all_app; [reflexivity|].
  intros pre w _ Hw. apply percent_local_right; assumption.
Qed.

Lemma percent_skip (x : codeunit) (s : jsstring) :
  is_digit x = false -> percent_pass (x :: s) = x :: percent_pass s.
Proof.
  intros H. unfold percent_pass. apply replace_all_skip.
  rewrite exec_percent, H. reflexivity.
Qed.

Lemma percent_skip_digit (d x : codeunit) (s : jsstring) :
  is_digit x = false -> cu_eqb (chr ".") x = false ->
  cu_eqb (chr "%") x = false ->
  percent_pass (d :: x :: s) = d :: percent_pass (x :: s).
Proof.
  intros Hx Hp Hc. unfold percent_pass. apply replace_all_skip.
  rewrite exec_percent. destruct (is_digit d); [|reflexivity].
  cbn [drop_while take_while]. rewrite Hx, Hp, Hc. reflexivity.
Qed.

(** **** The passes that replace one character *)

Lemma glyph_pass_cons (x : codeunit) (s : jsstring) :
  glyph_pass (x :: s)
  = (if cu_eqb MULTIPLICATION_SIGN x then str "*"
     else if cu_eqb DIVISION_SIGN x then str "/" else [x])
    ++ glyph_pass s.
Proof.
  unfold glyph_pass, RE_DIVIDE, RE_TIMES.
  rewrite replace_Lit_cons, replace_Lit_app. f_equal.
  destruct (cu_eqb MULTIPLICATION_SIGN x) eqn:E; [reflexivity|].
  rewrite replace_Lit_cons, replace_Lit_nil, app_nil_r. reflexivity.
Qed.

Lemma glyph_pass_app (u v : jsstring) :
  glyph_pass (u ++ v) = glyph_pass u ++ glyph_pass v.
Proof.
  unfold glyph_pass, RE_DIVIDE, RE_TIMES. rewrite !replace_Lit_app.
  reflexivity.
Qed.

Lemma square_pass_cons (x : codeunit) (s : jsstring) :
  square_pass (x :: s)
  = (if cu_eqb SUPERSCRIPT_TWO x then str "^2" else [x]) ++ square_pass s.
Proof. apply replace_Lit_cons. Qed.

Lemma square_pass_app (u v : jsstring) :
  square_pass (u ++ v) = square_pass u ++ square_pass v.
Proof. apply replace_Lit_app. Qed.

Lemma pi_pass_cons (x : codeunit) (s : jsstring) :
  pi_pass (x :: s)
  = (if cu_eqb GREEK_PI x then str "pi" else [x]) ++ pi_pass s.
Proof. apply replace_Lit_cons. Qed.

Lemma pi_pass_app (u v : jsstring) :
  pi_pass (u ++ v) = pi_pass u ++ pi_pass v.
Proof. apply replace_Lit_app. Qed.

(** **** The whole pre-processor *)

Lemma sanitize_pipeline (e : jsstring) :
  sanitizeExpressionForEval e
  = percent_pass
      (pi_pass (paren_pass (implicit_mul_pass (square_pass (glyph_pass e))))).
Proof. destruct e; reflexivity. Qed.

(** The first two passes leave every other character where it is. *)
Lemma glyphs_keep (x : codeunit) (u v : jsstring) :
  cu_eqb MULTIPLICATION_SIGN x = false -> cu_eqb DIVISION_SIGN x = false ->
  cu_eqb SUPERSCRIPT_TWO x = false ->
  square_pass (glyph_pass (u ++ x :: v))
  = square_pass (glyph_pass u) ++ x :: square_pass (glyph_pass v).
Proof.
  intros H1 H2 H3.
  rewrite glyph_pass_app, glyph_pass_cons, H1, H2.
  rewrite square_pass_app. simpl app. rewrite square_pass_cons, H3.
  reflexivity.
Qed.

Lemma glyphs_keep_head (x : codeunit) (v : jsstring) :
  cu_eqb MULTIPLICATION_SIGN x = false -> cu_eqb DIVISION_SIGN x = false ->
  cu_eqb SUPERSCRIPT_TWO x = false ->
  square_pass (glyph_pass (x :: v)) = x :: square_pass (glyph_pass v).
Proof. intros H1 H2 H3. apply (@glyphs_keep x [] v H1 H2 H3). Qed.

Lemma digit_facts (d : codeunit) :
  is_digit d = true ->
  (cu_eqb MULTIPLICATION_SIGN d = false /\ cu_eqb DIVISION_SIGN d = false
   /\ cu_eqb SUPERSCRIPT_TWO d = false /\ cu_eqb GREEK_PI d = false)
  /\ is_space d = false /\ is_mul_rhs d = false
  /\ cu_eqb (chr ")") d = false /\ cu_eqb (chr "(") d = false.
Proof. intros H. repeat split; cu_cases. Qed.

Lemma star_facts :
  is_digit (chr "*") = false /\ cu_eqb (chr ".") (chr "*") = false
  /\ cu_eqb (chr "%") (chr "*") = false /\ cu_eqb (chr ")") (chr "*") = false
  /\ cu_eqb GREEK_PI (chr "*") = false.
Proof. repeat split. Qed.

(** Rule 3 of the pre-processor, first half, in any context: between a
    digit and a letter, pi or opening parenthesis that follows it at once,
    a [*] appears, and the two sides are processed as they would be on
    their own. *)
Lemma sanitize_digit_then_operand (u v : jsstring) (d c : codeunit) :
  is_digit d = true -> is_mul_rhs c = true ->
  sanitizeExpressionForEval (u ++ d :: c :: v)
  = sanitizeExpressionForEval u
    ++ d :: chr "*" :: sanitizeExpressionForEval (c :: v).
Proof.
  intros Hd Hc. rewrite !sanitize_pipeline.
  destruct (digit_facts d Hd)
    as ((Hd1 & Hd2 & Hd3 & Hd4) & Hds & Hdr & Hdc & Hdo).
  destruct (mul_rhs_is_plain c Hc)
    as (Hcs & Hcd & Hcc & Hcp & Hcq & Hc1 & Hc2 & Hc3).
  rewrite (glyphs_keep d u (c :: v) Hd1 Hd2 Hd3).
  rewrite (glyphs_keep_head c v Hc1 Hc2 Hc3).
  set (X := square_pass (glyph_pass u)).
  set (Y := square_pass (glyph_pass v)).
  rewrite (implicit_mul_app X d (c :: Y) Hds Hdr).
  rewrite (implicit_mul_match d c Y Hd Hc).
  rewrite (implicit_mul_skip c Y Hcd).
  set (A := implicit_mul_pass X). set (B := implicit_mul_pass Y).
  rewrite (paren_app A d (chr "*" :: c :: B) Hds Hdo).
  rewrite (paren_skip d _ Hdc), (paren_skip (chr "*") _ eq_refl).
  rewrite pi_pass_app, pi_pass_cons, Hd4, pi_pass_cons.
  change (cu_eqb GREEK_PI (chr "*")) with false. cbv iota. cbn [app].
  set (A' := pi_pass (paren_pass A)).
  set (B' := pi_pass (paren_pass (c :: B))).
  change (A' ++ d :: chr "*" :: B') with (A' ++ [d] ++ chr "*" :: B').
  rewrite (@percent_app_right A' [d] (chr "*") B' (eq_trans (andb_true_r _) Hd)
             eq_refl eq_refl eq_refl).
  cbn [app].
  rewrite (percent_skip_digit d (chr "*") B' eq_refl eq_refl eq_refl).
  rewrite (percent_skip (chr "*") B' eq_refl).
  reflexivity.
Qed.

(** Rule 3, second half, in any context. *)
Lemma sanitize_paren_paren (u v : jsstring) :
  sanitizeExpressionForEval (u ++ chr ")" :: chr "(" :: v)
  = sanitizeExpressionForEval u ++ str ")*(" ++ sanitizeExpressionForEval v.
Proof.
  rewrite !sanitize_pipeline.
  rewrite (glyphs_keep (chr ")") u (chr "(" :: v) eq_refl eq_refl eq_refl).
  rewrite (glyphs_keep_head (chr "(") v eq_refl eq_refl eq_refl).
  set (X := square_pass (glyph_pass u)).
  set (Y := square_pass (glyph_pass v)).
  rewrite (implicit_mul_app X (chr ")") (chr "(" :: Y) eq_refl eq_refl).
  rewrite (implicit_mul_skip (chr ")") _ eq_refl).
  rewrite (implicit_mul_skip (chr "(") _ eq_refl).
  set (A := implicit_mul_pass X). set (B := implicit_mul_pass Y).
  rewrite (paren_app A (chr ")") (chr "(" :: B) eq_refl eq_refl).
  rewrite paren_match.
  rewrite !pi_pass_app.
  change (pi_pass (str ")*(")) with (str ")*(").
  set (A' := pi_pass (paren_pass A)). set (B' := pi_pass (paren_pass B)).
  change (str ")*(" ++ B') with (chr ")" :: chr "*" :: chr "(" :: B').
  change (A' ++ chr ")" :: chr "*" :: chr "(" :: B')
    with (A' ++ [] ++ chr ")" :: chr "*" :: chr "(" :: B').
  rewrite (@percent_app_right A' [] (chr ")") (chr "*" :: chr "(" :: B')
             eq_refl eq_refl eq_refl eq_refl).
  cbn [app].
  rewrite (percent_skip (chr ")") _ eq_refl).
  rewrite (percent_skip (chr "*") _ eq_refl).
  rewrite (percent_skip (chr "(") _ eq_refl).
  reflexivity.
Qed.

(** Rule 2 in any context: a superscript two is read as [^2]. *)
Lemma sanitize_superscript_two (u v : jsstring) :
  sanitizeExpressionForEval (u ++ SUPERSCRIPT_TWO :: v)
  = sanitizeExpressionForEval (u ++ chr "^" :: chr "2" :: v).
Proof.
  rewrite !sanitize_pipeline. do 4 f_equal.
  rewrite !glyph_pass_app, !glyph_pass_cons, !square_pass_app.
  change (cu_eqb MULTIPLICATION_SIGN SUPERSCRIPT_TWO) with false.
  change (cu_eqb DIVISION_SIGN SUPERSCRIPT_TWO) with false.
  change (cu_eqb MULTIPLICATION_SIGN (chr "^")) with false.
  change (cu_eqb DIVISION_SIGN (chr "^")) with false.
  change (cu_eqb MULTIPLICATION_SIGN (chr "2")) with false.
  change (cu_eqb DIVISION_SIGN (chr "2")) with false.
  cbv iota. cbn [app]. rewrite !square_pass_cons. reflexivity.
Qed.

(** **** What the passes leave at the end of the string *)

(** A replacement that ends as the match does keeps the last character
    of the string. *)
Lemma replace_from_last (r : regex) (f : jsstring -> captures -> jsstring) :
  exec r [] = None ->
  (forall s m cs rest, exec r s = Some (m, cs, rest) ->
     exists m' z b, m = m' ++ [z] /\ f m cs = b ++ [z]) ->
  forall (s : jsstring) (n : nat) (x : codeunit),
    (n <= List.length s)%nat ->
    exists b, replace_from r f n (s ++ [x]) = b ++ [x].
Proof.
  intros Hnil Hf s. induction s as [|c s IH]; intros n x Hn.
  - simpl in Hn. assert (n = 0)%nat by lia. subst n. simpl app.
    simpl replace_from.
    destruct (exec r [x]) as [[[m cs] rest]|] eqn:E.
    + pose proof (exec_split _ _ E) as Hs.
      destruct (Hf _ _ _ _ E) as (m' & z & b & -> & Hb).
      destruct m' as [|y m'].
      * simpl in Hs. injection Hs as <- <-. simpl List.length. cbv iota.
        simpl replace_from. rewrite Hnil, app_nil_r. exists b. exact Hb.
      * exfalso. apply (f_equal (@List.length _)) in Hs. simpl in Hs.
        rewrite !length_app in Hs. simpl in Hs. lia.
    + simpl. rewrite Hnil. exists []. reflexivity.
  - destruct n as [|n].
    + simpl app. simpl replace_from.
      destruct (exec r (c :: s ++ [x])) as [[[m cs] rest]|] eqn:E.
      * pose proof (exec_split _ _ E) as Hs.
        destruct (Hf _ _ _ _ E) as (m' & z & b & -> & Hb).
        rewrite Hb.
        assert (Hlen : List.length (m' ++ [z]) = S (List.length m'))
          by (rewrite length_app; simpl; lia).
        rewrite Hlen. cbv iota.
        destruct rest as [|y rest _] using rev_ind.
        -- rewrite app_nil_r in Hs.
           change (c :: s ++ [x]) with ((c :: s) ++ [x]) in Hs.
           apply app_inj_tail in Hs. destruct Hs as [Hm <-].
           assert (Hl : List.length m' = List.length (s ++ [x])).
           { rewrite <- Hm, length_app. simpl. lia. }
           rewrite Hl.
           replace (replace_from r f (List.length (s ++ [x])) (s ++ [x]))
             with (replace_from r f (List.length (s ++ [x])) ((s ++ [x]) ++ []))
             by (rewrite app_nil_r; reflexivity).
           rewrite replace_from_skip. simpl replace_from. rewrite Hnil.
           rewrite app_nil_r. exists b. reflexivity.
        -- assert (Hl : (List.length m' <= List.length s)%nat).
           { apply (f_equal (@List.length _)) in Hs. simpl in Hs.
             rewrite !length_app in Hs. simpl in Hs. lia. }
           destruct (IH (List.length m') x Hl) as [b' Hb'].
           rewrite Hb'. exists ((b ++ [z]) ++ b').
           rewrite <- !app_assoc. reflexivity.
      * destruct (IH 0%nat x ltac:(lia)) as [b' Hb'].
        rewrite Hb'. exists (c :: b'). reflexivity.
    + simpl. simpl in Hn. apply IH. lia.
Qed.

Lemma replace_all_ends (r : regex) (f : jsstring -> captures -> jsstring)
    (good : codeunit -> bool) (s : jsstring) :
  exec r [] = None ->
  (forall s m cs rest, exec r s = Some (m, cs, rest) ->
     exists m' z b, m = m' ++ [z] /\ f m cs = b ++ [z]) ->
  Spec.ends_in good s -> Spec.ends_in good (replace_all r f s).
Proof.
  intros Hnil Hf Hs s' y Hy.
  destruct s as [|c s _] using rev_ind.
  - unfold replace_all in Hy. simpl in Hy. rewrite Hnil in Hy.
    destruct s'; discriminate.
  - destruct (@replace_from_last r f Hnil Hf s 0%nat c ltac:(lia)) as [b Hb].
    unfold replace_all in Hy. rewrite Hb in Hy.
    apply app_inj_tail in Hy. destruct Hy as [_ <-].
    apply (Hs s c eq_refl).
Qed.

Lemma implicit_mul_ends (good : codeunit -> bool) (s : jsstring) :
  Spec.ends_in good s -> Spec.ends_in good (implicit_mul_pass s).
Proof.
  apply replace_all_ends; [reflexivity|].
  intros s0 m cs rest H. rewrite exec_implicit_mul in H.
  destruct s0 as [|d t]; [discriminate|].
  destruct (is_digit d); [|discriminate].
  destruct (drop_while is_space t) as [|c t']; [discriminate|].
  destruct (is_mul_rhs c); [|discriminate].
  injection H as <- <- <-.
  exists (d :: take_while is_space t), c, [d; chr "*"]. split; reflexivity.
Qed.

Lemma paren_ends (good : codeunit -> bool) (s : jsstring) :
  Spec.ends_in good s -> Spec.ends_in good (paren_pass s).
Proof.
  apply replace_all_ends; [reflexivity|].
  intros s0 m cs rest H. rewrite exec_paren_paren in H.
  destruct s0 as [|d t]; [discriminate|].
  destruct (cu_eqb (chr ")") d); [|discriminate].
  destruct (drop_while is_space t) as [|c t']; [discriminate|].
  destruct (cu_eqb (chr "(") c) eqn:E; [|discriminate].
  injection H as <- <- <-. apply N.eqb_eq in E. subst c.
  exists (d :: take_while is_space t), (chr "("), (str ")*").
  split; reflexivity.
Qed.

(** A pass that works character by character. *)
Lemma hom_pass_ends (pass : jsstring -> jsstring)
    (good1 good2 : codeunit -> bool) (s : jsstring) :
  pass [] = [] ->
  (forall a b, pass (a ++ b) = pass a ++ pass b) ->
  (forall x, good1 x = true ->
     exists i z, pass [x] = i ++ [z] /\ good2 z = true) ->
  Spec.ends_in good1 s -> Spec.ends_in good2 (pass s).
Proof.
  intros Hnil Happ Himg Hs s' y Hy.
  destruct s as [|c s _] using rev_ind.
  - rewrite Hnil in Hy. destruct s'; discriminate.
  - destruct (Himg c (Hs s c eq_refl)) as (i & z & Hi & Hz).
    rewrite Happ, Hi, app_assoc in Hy.
    apply app_inj_tail in Hy. destruct Hy as [_ <-]. exact Hz.
Qed.

Lemma delimiter_facts (x : codeunit) :
  Spec.delimiter x = true ->
  is_digit x = false /\ cu_eqb (chr ".") x = false
  /\ cu_eqb SUPERSCRIPT_TWO x = false.
Proof.
  unfold Spec.delimiter. rewrite negb_true_iff, !orb_false_iff. tauto.
Qed.

Lemma no_digit_or_point_facts (x : codeunit) :
  Spec.no_digit_or_point x = true ->
  is_digit x = false /\ cu_eqb (chr ".") x = false.
Proof.
  unfold Spec.no_digit_or_point. rewrite negb_true_iff, orb_false_iff. tauto.
Qed.

Lemma glyph_ends (s : jsstring) :
  Spec.ends_in Spec.delimiter s -> Spec.ends_in Spec.delimiter (glyph_pass s).
Proof.
  apply hom_pass_ends; [reflexivity | apply glyph_pass_app |].
  intros x Hx. rewrite glyph_pass_cons.
  change (glyph_pass []) with (@nil codeunit). rewrite app_nil_r.
  destruct (cu_eqb MULTIPLICATION_SIGN x);
    [exists [], (chr "*"); split; reflexivity|].
  destruct (cu_eqb DIVISION_SIGN x);
    [exists [], (chr "/"); split; reflexivity|].
  exists [], x. split; [reflexivity | exact Hx].
Qed.

Lemma square_ends (s : jsstring) :
  Spec.ends_in Spec.delimiter s ->
  Spec.ends_in Spec.no_digit_or_point (square_pass s).
Proof.
  apply hom_pass_ends; [reflexivity | apply square_pass_app |].
  intros x Hx. rewrite square_pass_cons.
  change (square_pass []) with (@nil codeunit). rewrite app_nil_r.
  destruct (delimiter_facts x Hx) as (Hd & Hp & ->).
  exists [], x. split; [reflexivity|].
  unfold Spec.no_digit_or_point. rewrite Hd, Hp. reflexivity.
Qed.

Lemma pi_ends (s : jsstring) :
  Spec.ends_in Spec.no_digit_or_point s ->
  Spec.ends_in Spec.no_digit_or_point (pi_pass s).
Proof.
  apply hom_pass_ends; [reflexivity | apply pi_pass_app |].
  intros x Hx. rewrite pi_pass_cons.
  change (pi_pass []) with (@nil codeunit). rewrite app_nil_r.
  destruct (cu_eqb GREEK_PI x);
    [exists [chr "p"], (chr "i"); split; reflexivity|].
  exists [], x. split; [reflexivity | exact Hx].
Qed.

(** **** The percent pass, to the left of a literal *)

Lemma drop_while_nil (p : codeunit -> bool) (s : jsstring) :
  drop_while p s = [] -> forallb p s = true.
Proof.
  induction s as [|c s IH]; simpl; [reflexivity|].
  destruct (p c); [exact IH | discriminate].
Qed.

Lemma ends_in_suffix (good : codeunit -> bool) (a b : jsstring) :
  Spec.ends_in good (a ++ b) -> Spec.ends_in good b.
Proof.
  intros H s' x ->. apply (H (a ++ s') x). rewrite app_assoc. reflexivity.
Qed.

Lemma digits_end_in_digit (s : jsstring) :
  s <> [] -> forallb is_digit s = true ->
  Spec.ends_in Spec.no_digit_or_point s -> False.
Proof.
  intros Hne Hall H. destruct s as [|x s _] using rev_ind; [congruence|].
  rewrite forallb_app in Hall. apply andb_true_iff in Hall.
  destruct Hall as [_ Hx]. simpl in Hx. rewrite andb_true_r in Hx.
  destruct (no_digit_or_point_facts x (H s x eq_refl)) as [Hd _].
  congruence.
Qed.

(** Nothing that starts in a string whose last character is neither a
    digit nor a point can match beyond its end. *)
Lemma percent_local_left (w t : jsstring) :
  w <> [] -> Spec.ends_in Spec.no_digit_or_point w ->
  exec RE_PERCENT (w ++ t) = extend_match t (exec RE_PERCENT w).
Proof.
  intros Hw He. destruct w as [|d w]; [congruence|].
  simpl app. rewrite !exec_percent.
  destruct (is_digit d) eqn:Hd; [|reflexivity]. cbv zeta.
  rewrite drop_while_app, take_while_app.
  pose proof (take_drop_while is_digit w) as Hsplit.
  destruct (drop_while is_digit w) as [|c1 r1] eqn:E1.
  - exfalso. apply (@digits_end_in_digit (d :: w)); [discriminate| |exact He].
    simpl. rewrite Hd. apply drop_while_nil. exact E1.
  - destruct (cu_eqb (chr ".") c1) eqn:Ep.
    + destruct r1 as [|d2 u].
      * exfalso.
        assert (Hc1 : Spec.no_digit_or_point c1 = true).
        { apply (He (d :: take_while is_digit w) c1).
          rewrite <- Hsplit at 1. reflexivity. }
        apply no_digit_or_point_facts in Hc1. destruct Hc1. congruence.
      * cbn [app]. destruct (is_digit d2) eqn:Hd2; [|reflexivity].
        rewrite drop_while_app, take_while_app.
        destruct (drop_while is_digit u) as [|c3 r3] eqn:E3.
        -- exfalso. apply (@digits_end_in_digit (d2 :: u)); [discriminate| |].
           ++ simpl. rewrite Hd2. apply drop_while_nil. exact E3.
           ++ apply (@ends_in_suffix _ (d :: take_while is_digit w ++ [c1])).
              simpl. rewrite <- app_assoc. simpl. rewrite Hsplit. exact He.
        -- destruct (cu_eqb (chr "%") c3); reflexivity.
    + destruct (cu_eqb (chr "%") c1); reflexivity.
Qed.

Lemma percent_app_left (u t : jsstring) :
  Spec.ends_in Spec.no_digit_or_point u ->
  percent_pass (u ++ t) = percent_pass u ++ percent_pass t.
Proof.
  intros He. unfold percent_pass.
  apply replace_all_app; [reflexivity|].
  intros pre w -> Hw. apply percent_local_left; [exact Hw|].
  apply (@ends_in_suffix _ pre). exact He.
Qed.

(** A literal with its percent sign is a match, and the whole of it. *)
Lemma percent_match (lit s : jsstring) :
  Spec.numeric_literal lit ->
  percent_pass (lit ++ chr "%" :: s)
  = chr "(" :: lit ++ str "/100)" ++ percent_pass s.
Proof.
  intros H. unfold percent_pass. destruct H as [ds Hne Hds | ds fs Hne Hds Hnf Hfs].
  - destruct ds as [|d ds]; [congruence|].
    simpl in Hds. apply andb_true_iff in Hds. destruct Hds as [Hd Hds].
    replace ((d :: ds) ++ chr "%" :: s) with ((d :: ds ++ [chr "%"]) ++ s)
      by (simpl; rewrite <- app_assoc; reflexivity).
    rewrite (@replace_all_match _ _ d (ds ++ [chr "%"]) s [(1%nat, d :: ds)]).
    + change (capture 1 [(1%nat, d :: ds)]) with (d :: ds).
      cbn [app]. rewrite <- app_assoc. reflexivity.
    + cbn [app]. rewrite <- app_assoc. cbn [app].
      rewrite exec_percent, Hd. cbv zeta.
      destruct (@take_while_stop is_digit ds (chr "%") s Hds eq_refl)
        as [-> ->].
      reflexivity.
  - destruct ds as [|d ds]; [congruence|].
    destruct fs as [|d2 fs]; [congruence|].
    simpl in Hds. apply andb_true_iff in Hds. destruct Hds as [Hd Hds].
    simpl in Hfs. apply andb_true_iff in Hfs. destruct Hfs as [Hd2 Hfs].
    replace (((d :: ds) ++ chr "." :: d2 :: fs) ++ chr "%" :: s)
      with ((d :: ds ++ (chr "." :: d2 :: fs) ++ [chr "%"]) ++ s)
      by (simpl; rewrite <- !app_assoc; simpl; rewrite <- !app_assoc;
          reflexivity).
    rewrite (@replace_all_match _ _ d (ds ++ (chr "." :: d2 :: fs) ++ [chr "%"])
               s [(1%nat, (d :: ds) ++ chr "." :: d2 :: fs);
                  (2%nat, chr "." :: d2 :: fs)]).
    + change (capture 1 [(1%nat, (d :: ds) ++ chr "." :: d2 :: fs);
                         (2%nat, chr "." :: d2 :: fs)])
        with ((d :: ds) ++ chr "." :: d2 :: fs).
      cbn [app]. rewrite <- !app_assoc. reflexivity.
    + cbn [app]. rewrite <- !app_assoc. cbn [app]. rewrite <- !app_assoc.
      cbn [app].
      rewrite exec_percent, Hd. cbv zeta.
      destruct (@take_while_stop is_digit ds (chr ".")
                  (d2 :: fs ++ chr "%" :: s) Hds eq_refl) as [-> ->].
      change (cu_eqb (chr ".") (chr ".")) with true. cbv iota.
      rewrite Hd2.
      destruct (@take_while_stop is_digit fs (chr "%") s Hfs eq_refl)
        as [-> ->].
      reflexivity.
Qed.

(** **** A numeric literal under the passes *)

Lemma literal_chars (lit : jsstring) :
  Spec.numeric_literal lit ->
  Forall (fun x => is_digit x = true \/ x = chr ".") lit.
Proof.
  assert (D : forall ds, forallb is_digit ds = true ->
                Forall (fun x => is_digit x = true \/ x = chr ".") ds).
  { intros ds H. apply Forall_forall. intros x Hx. left.
    rewrite forallb_forall in H. exact (H x Hx). }
  intros [ds _ Hds | ds fs _ Hds _ Hfs]; [exact (D ds Hds)|].
  apply Forall_app. split; [exact (D ds Hds)|].
  constructor; [right; reflexivity | exact (D fs Hfs)].
Qed.

Lemma literal_head (lit : jsstring) :
  Spec.numeric_literal lit ->
  exists d l, lit = d :: l /\ is_digit d = true.
Proof.
  intros [ds Hne Hds | ds fs Hne Hds _ _];
    (destruct ds as [|d ds]; [congruence|]);
    simpl in Hds; apply andb_true_iff in Hds; destruct Hds as [Hd _].
  - exists d, ds. split; [reflexivity | exact Hd].
  - exists d, (ds ++ chr "." :: fs). split; [reflexivity | exact Hd].
Qed.

(** The characters of a literal are left alone by the passes that
    replace one character and by the pass for parentheses. *)
Lemma literal_run (l s : jsstring) :
  Forall (fun x => is_digit x = true \/ x = chr ".") l ->
  glyph_pass (l ++ s) = l ++ glyph_pass s
  /\ square_pass (l ++ s) = l ++ square_pass s
  /\ paren_pass (l ++ s) = l ++ paren_pass s
  /\ pi_pass (l ++ s) = l ++ pi_pass s.
Proof.
  induction 1 as [|x l Hx _ (IH1 & IH2 & IH3 & IH4)];
    [repeat split; reflexivity|].
  cbn [app]. rewrite glyph_pass_cons, square_pass_cons, pi_pass_cons.
  assert (F : (cu_eqb MULTIPLICATION_SIGN x = false
               /\ cu_eqb DIVISION_SIGN x = false
               /\ cu_eqb SUPERSCRIPT_TWO x = false
               /\ cu_eqb GREEK_PI x = false)
              /\ cu_eqb (chr ")") x = false).
  { destruct Hx as [Hd | ->]; [|repeat split; reflexivity].
    destruct (digit_facts x Hd) as (F & _ & _ & Hc & _). split; assumption. }
  destruct F as ((F1 & F2 & F3 & F4) & F5).
  rewrite F1, F2, F3, F4, (paren_skip x _ F5), IH1, IH2, IH3, IH4.
  repeat split; reflexivity.
Qed.

Lemma implicit_mul_digits (ds : jsstring) (x : codeunit) (s : jsstring) :
  forallb is_digit ds = true -> is_space x = false -> is_mul_rhs x = false ->
  implicit_mul_pass (ds ++ x :: s) = ds ++ implicit_mul_pass (x :: s).
Proof.
  intros Hds Hs Hr. induction ds as [|d ds IH]; [reflexivity|].
  simpl in Hds. apply andb_true_iff in Hds. destruct Hds as [_ Hds].
  specialize (IH Hds). cbn [app]. destruct ds as [|d' ds].
  - cbn [app]. rewrite (implicit_mul_skip_digit d x s Hs Hr). reflexivity.
  - simpl in Hds. apply andb_true_iff in Hds. destruct Hds as [Hd' _].
    destruct (digit_facts d' Hd') as (_ & Hs' & Hr' & _).
    cbn [app] in *. rewrite (implicit_mul_skip_digit d d' _ Hs' Hr'), IH.
    reflexivity.
Qed.

Lemma implicit_mul_literal (lit s : jsstring) :
  Spec.numeric_literal lit ->
  implicit_mul_pass (lit ++ chr "%" :: s)
  = lit ++ chr "%" :: implicit_mul_pass s.
Proof.
  intros [ds _ Hds | ds fs _ Hds _ Hfs].
  - rewrite (implicit_mul_digits ds (chr "%") s Hds eq_refl eq_refl).
    rewrite (implicit_mul_skip (chr "%") s eq_refl). reflexivity.
  - rewrite <- app_assoc. cbn [app].
    rewrite (implicit_mul_digits ds (chr ".") _ Hds eq_refl eq_refl).
    rewrite (implicit_mul_skip (chr ".") _ eq_refl).
    rewrite (implicit_mul_digits fs (chr "%") s Hfs eq_refl eq_refl).
    rewrite (implicit_mul_skip (chr "%") s eq_refl).
    rewrite <- app_assoc. reflexivity.
Qed.

(** Rule 6 of the pre-processor, in any context that does not run into
    the literal from the left: the literal and its percent sign become the
    literal divided by one hundred, in parentheses, and the two sides are
    processed as they would be on their own. *)
Lemma sanitize_percent (u lit v : jsstring) :
  Spec.numeric_literal lit -> Spec.ends_in Spec.delimiter u ->
  sanitizeExpressionForEval (u ++ lit ++ chr "%" :: v)
  = sanitizeExpressionForEval u
    ++ chr "(" :: lit ++ str "/100)" ++ sanitizeExpressionForEval v.
Proof.
  intros Hlit Hu. rewrite !sanitize_pipeline.
  pose proof (literal_chars Hlit) as Hchars.
  destruct (literal_head Hlit) as (d & l & Hl & Hd).
  destruct (digit_facts d Hd) as (_ & Hds & Hdr & _ & Hdo).
  assert (Hend : Spec.ends_in Spec.no_digit_or_point
                   (pi_pass (paren_pass (implicit_mul_pass
                      (square_pass (glyph_pass u)))))).
  { apply pi_ends, paren_ends, implicit_mul_ends, square_ends, glyph_ends.
    exact Hu. }
  rewrite glyph_pass_app.
  destruct (literal_run (chr "%" :: v) Hchars) as (-> & _).
  rewrite (glyph_pass_cons (chr "%") v).
  change (cu_eqb MULTIPLICATION_SIGN (chr "%")) with false.
  change (cu_eqb DIVISION_SIGN (chr "%")) with false. cbv iota. cbn [app].
  rewrite square_pass_app.
  destruct (literal_run (chr "%" :: glyph_pass v) Hchars) as (_ & -> & _).
  rewrite (square_pass_cons (chr "%") (glyph_pass v)).
  change (cu_eqb SUPERSCRIPT_TWO (chr "%")) with false. cbv iota. cbn [app].
  set (X := square_pass (glyph_pass u)) in *.
  set (Y := square_pass (glyph_pass v)).
  assert (HM : implicit_mul_pass (X ++ lit ++ chr "%" :: Y)
               = implicit_mul_pass X ++ lit ++ chr "%" :: implicit_mul_pass Y).
  { rewrite <- (implicit_mul_literal Y Hlit). rewrite Hl. cbn [app].
    apply implicit_mul_app; assumption. }
  rewrite HM.
  set (A := implicit_mul_pass X) in *. set (B := implicit_mul_pass Y).
  assert (HP : paren_pass (A ++ lit ++ chr "%" :: B)
               = paren_pass A ++ lit ++ chr "%" :: paren_pass B).
  { destruct (literal_run (chr "%" :: B) Hchars) as (_ & _ & HP & _).
    rewrite <- (paren_skip (chr "%") B eq_refl), <- HP. rewrite Hl.
    cbn [app]. apply paren_app; assumption. }
  rewrite HP.
  set (A' := paren_pass A) in *. set (B' := paren_pass B).
  rewrite pi_pass_app.
  destruct (literal_run (chr "%" :: B') Hchars) as (_ & _ & _ & ->).
  rewrite (pi_pass_cons (chr "%") B').
  change (cu_eqb GREEK_PI (chr "%")) with false. cbv iota. cbn [app].
  rewrite (percent_app_left _ Hend), (percent_match _ Hlit). reflexivity.
Qed.

(** **** Pi and its spelling *)

(** What the pass for implicit multiplication does before a letter, a pi
    or an opening parenthesis does not depend on which of them it is, nor
    on what follows. *)
Lemma implicit_mul_before_operand (x : jsstring) :
  forall n : nat, (n <= List.length x)%nat ->
  exists b, forall (c : codeunit) (y : jsstring),
    is_mul_rhs c = true ->
    replace_from RE_IMPLICIT_MUL
      (fun _ cs => capture 1 cs ++ chr "*" :: capture 2 cs) n (x ++ c :: y)
    = b ++ c :: implicit_mul_pass y.
Proof.
  induction x as [|d x IH]; intros n Hn.
  - simpl in Hn. assert (n = 0)%nat by lia. subst n. exists [].
    intros c y Hc. destruct (mul_rhs_is_plain c Hc) as (_ & Hd & _).
    cbn [app]. rewrite replace_from_cons. rewrite exec_implicit_mul, Hd.
    reflexivity.
  - destruct n as [|n]; [|simpl in Hn; apply (IH n); lia].
    destruct (IH 0%nat ltac:(lia)) as [b0 Hb0].
    destruct (is_digit d) eqn:Hd.
    2:{ exists (d :: b0). intros c y Hc. cbn [app]. rewrite replace_from_cons.
        rewrite exec_implicit_mul, Hd, (Hb0 c y Hc). reflexivity. }
    pose proof (take_drop_while is_space x) as Hsplit.
    destruct (drop_while is_space x) as [|c' r] eqn:E.
    + exists [d; chr "*"]. intros c y Hc.
      destruct (mul_rhs_is_plain c Hc) as (Hs & _).
      cbn [app]. rewrite replace_from_cons. rewrite exec_implicit_mul, Hd.
      rewrite drop_while_app, take_while_app, E. cbn [drop_while take_while].
      rewrite Hs, Hc.
      assert (Hlen : List.length (d :: (x ++ []) ++ [c])
                     = S (List.length (x ++ [c]))).
      { rewrite app_nil_r. reflexivity. }
      rewrite Hlen. cbv iota.
      replace (x ++ c :: y) with ((x ++ [c]) ++ y)
        by (rewrite <- app_assoc; reflexivity).
      rewrite replace_from_skip. reflexivity.
    + destruct (is_mul_rhs c') eqn:Hc'.
      * assert (Hl : (S (List.length (take_while is_space x))
                      <= List.length x)%nat).
        { rewrite <- Hsplit at 2. rewrite length_app. simpl. lia. }
        destruct (IH _ Hl) as [b1 Hb1].
        exists ([d; chr "*"; c'] ++ b1). intros c y Hc.
        cbn [app]. rewrite replace_from_cons. rewrite exec_implicit_mul, Hd.
        rewrite drop_while_app, take_while_app, E, Hc'.
        assert (Hlen : List.length (d :: take_while is_space x ++ [c'])
                       = S (S (List.length (take_while is_space x)))).
        { simpl. rewrite length_app. simpl. lia. }
        rewrite Hlen. cbv iota. rewrite (Hb1 c y Hc). reflexivity.
      * exists (d :: b0). intros c y Hc. cbn [app]. rewrite replace_from_cons.
        rewrite exec_implicit_mul, Hd.
        rewrite drop_while_app, E, Hc', (Hb0 c y Hc). reflexivity.
Qed.

(** Rule 5 of the pre-processor, in any context: a pi is processed as
    its spelling [pi] would be in its place. *)
Lemma sanitize_pi (u v : jsstring) :
  sanitizeExpressionForEval (u ++ GREEK_PI :: v)
  = sanitizeExpressionForEval (u ++ chr "p" :: chr "i" :: v).
Proof.
  rewrite !sanitize_pipeline. f_equal.
  rewrite (glyphs_keep GREEK_PI u v eq_refl eq_refl eq_refl).
  rewrite (glyphs_keep (chr "p") u (chr "i" :: v) eq_refl eq_refl eq_refl).
  rewrite (glyphs_keep_head (chr "i") v eq_refl eq_refl eq_refl).
  set (X := square_pass (glyph_pass u)).
  set (Y := square_pass (glyph_pass v)).
  destruct (@implicit_mul_before_operand X 0%nat ltac:(lia)) as [b Hb].
  unfold implicit_mul_pass at 1 2. unfold replace_all.
  rewrite (Hb GREEK_PI Y eq_refl), (Hb (chr "p") (chr "i" :: Y) eq_refl).
  rewrite (implicit_mul_skip (chr "i") Y eq_refl).
  set (B := implicit_mul_pass Y).
  rewrite (paren_app b GREEK_PI B eq_refl eq_refl).
  rewrite (paren_app b (chr "p") (chr "i" :: B) eq_refl eq_refl).
  rewrite (paren_skip GREEK_PI B eq_refl).
  rewrite (paren_skip (chr "p") (chr "i" :: B) eq_refl).
  rewrite (paren_skip (chr "i") B eq_refl).
  rewrite !pi_pass_app, !pi_pass_cons. reflexivity.
Qed.

(** C4. The pre-processor of expressions, on every input: between a
    digit and a letter, a pi or an opening parenthesis that follows it at
    once a [*] is inserted, and so it is between a closing and an opening
    parenthesis; a superscript two is read as [^2] and a pi as the
    identifier [pi] of the evaluator; a numeric literal with a percent
    sign attached, where the literal is not the continuation of a longer
    one, becomes the literal divided by one hundred, in parentheses.  Each
    rule holds wherever the pattern stands in the input, and what stands
    to its left and to its right is processed as the rules say.  In
    particular ["2x+3"] becomes ["2*x+3"], ["3²"] becomes ["3^2"] and
    ["50%+30"] becomes ["(50/100)+30"]. *)
Theorem sanitize_rules :
  (forall (u v : jsstring) (d c : codeunit),
     is_digit d = true ->
     is_letter c || cu_eqb c GREEK_PI || cu_eqb c (chr "(") = true ->
     sanitizeExpressionForEval (u ++ d :: c :: v)
     = sanitizeExpressionForEval u
       ++ d :: chr "*" :: sanitizeExpressionForEval (c :: v))
  /\ (forall u v : jsstring,
        sanitizeExpressionForEval (u ++ chr ")" :: chr "(" :: v)
        = sanitizeExpressionForEval u
          ++ str ")*(" ++ sanitizeExpressionForEval v)
  /\ (forall u v : jsstring,
        sanitizeExpressionForEval (u ++ SUPERSCRIPT_TWO :: v)
        = sanitizeExpressionForEval (u ++ str "^2" ++ v))
  /\ (forall u v : jsstring,
        sanitizeExpressionForEval (u ++ GREEK_PI :: v)
        = sanitizeExpressionForEval (u ++ str "pi" ++ v))
  /\ (forall u lit v : jsstring,
        Spec.numeric_literal lit -> Spec.ends_in Spec.delimiter u ->
        sanitizeExpressionForEval (u ++ lit ++ chr "%" :: v)
        = sanitizeExpressionForEval u
          ++ chr "(" :: lit ++ str "/100)" ++ sanitizeExpressionForEval v)
  /\ sanitizeExpressionForEval (str "2x+3") = str "2*x+3"
  /\ sanitizeExpressionForEval [chr "3"; SUPERSCRIPT_TWO] = str "3^2"
  /\ sanitizeExpressionForEval (str "50%+30") = str "(50/100)+30".
Proof.
  split; [|split; [|split; [|split; [|split; [|repeat split]]]]].
  - intros u v d c Hd Hc. apply sanitize_digit_then_operand; [exact Hd|].
    unfold is_mul_rhs. exact Hc.
  - exact sanitize_paren_paren.
  - exact sanitize_superscript_two.
  - exact sanitize_pi.
  - intros u lit v Hlit Hu. apply sanitize_percent; assumption.
Qed.

Lemma sanitize_rules_witness :
  sanitizeExpressionForEval (str "1+" ++ chr "2" :: chr "x" :: str "+3")
  = sanitizeExpressionForEval (str "1+")
    ++ chr "2" :: chr "*" :: sanitizeExpressionForEval (chr "x" :: str "+3")
  /\ sanitizeExpressionForEval (str "1+" ++ str "2.5" ++ chr "%" :: str "*4")
     = sanitizeExpressionForEval (str "1+")
       ++ chr "(" :: str "2.5" ++ str "/100)"
       ++ sanitizeExpressionForEval (str "*4").
Proof.
  destruct sanitize_rules as (L1 & _ & _ & _ & L5 & _). split.
  - apply L1; reflexivity.
  - apply L5.
    + apply (@Spec.literal_fraction [chr "2"] [chr "5"]);
        [discriminate | reflexivity | discriminate | reflexivity].
    + intros s' x H. change (str "1+") with ([chr "1"] ++ [chr "+"]) in H.
      apply app_inj_tail in H. destruct H as [_ <-]. reflexivity.
Defined.

End SanitizeFacts.

(** *** lib/mathUtils: base conversion *)

Module BaseConversionFacts.

Import MathUtils JSFacts DigitsFacts Spec.

Local Open Scope Z_scope.

Lemma inject_nonzero (r : Z) : 0 < r -> Qeq_bool (inject_Z r) 0 = false.
Proof.
  intros Hr. apply Qeq_bool_false_iff. intros H.
  apply (@inject_inj r 0) in H. lia.
Qed.

Lemma gt_of_Z (z : Z) : gt (of_Z z) (of_Z 0) = (0 <? z).
Proof.
  unfold gt, lt, of_Z. destruct (Z.ltb_spec 0 z) as [H|H].
  - apply Qlt_bool_iff, inject_lt, H.
  - apply Qlt_bool_false_iff, inject_le, H.
Qed.

Lemma floor_div_of_Z (z r : Z) :
  0 < r -> Math_floor (div (of_Z z) (of_Z r)) = of_Z (z / r).
Proof.
  intros Hr. unfold div, of_Z. rewrite (inject_nonzero Hr).
  unfold fin, Math_floor, of_Z. f_equal. f_equal.
  rewrite Qred_correct. symmetry. apply Zdiv_Qdiv.
Qed.

Lemma Qtrunc_nonneg (x : Q) : (0 <= x)%Q -> Qtrunc x = Qfloor x.
Proof.
  intros H. unfold Qtrunc.
  destruct (Qlt_bool x 0) eqn:L; [|reflexivity].
  apply Qlt_bool_iff in L. exfalso. exact (Qle_not_lt _ _ H L).
Qed.

Lemma rem_of_Z (z r : Z) :
  0 <= z -> 0 < r -> rem (of_Z z) (of_Z r) = of_Z (z mod r).
Proof.
  intros Hz Hr. unfold rem, of_Z. rewrite (inject_nonzero Hr).
  apply fin_of_Z. rewrite Qtrunc_nonneg.
  - rewrite <- Zdiv_Qdiv. unfold Qminus.
    rewrite <- inject_Z_mult, <- inject_Z_opp, <- inject_Z_plus.
    apply inject_eq. rewrite Z.mod_eq by lia. lia.
  - apply Qle_shift_div_l; [apply (@inject_lt 0); exact Hr|].
    rewrite Qmult_0_l. apply (@inject_le 0). exact Hz.
Qed.

Lemma toString_bit (d : Z) :
  0 <= d < 2 -> Number_toString (of_Z d) = [digit_char d].
Proof.
  intros H. assert (E : d = 0 \/ d = 1) by lia.
  destruct E as [-> | ->]; reflexivity.
Qed.

Lemma hexDigits_index (d : Z) :
  0 <= d < 16 -> string_index hexDigits (of_Z d) = Some (hex_char d).
Proof.
  intros H.
  assert (E : d = 0 \/ d = 1 \/ d = 2 \/ d = 3 \/ d = 4 \/ d = 5 \/ d = 6
              \/ d = 7 \/ d = 8 \/ d = 9 \/ d = 10 \/ d = 11 \/ d = 12
              \/ d = 13 \/ d = 14 \/ d = 15) by lia.
  repeat (destruct E as [-> | E]; [reflexivity|]). subst d. reflexivity.
Qed.

Lemma binary_loop_unfold (fuel : nat) (n : number) (binary : jsstring) :
  binary_loop fuel n binary =
  if gt n (of_Z 0) then
    match fuel with
    | O => None
    | S fuel' =>
        binary_loop fuel' (Math_floor (div n (of_Z 2)))
                    (Number_toString (rem n (of_Z 2)) ++ binary)
    end
  else Some binary.
Proof. destruct fuel; reflexivity. Qed.

Lemma hex_loop_unfold (fuel : nat) (n : number) (hex : jsstring) :
  hex_loop fuel n hex =
  if gt n (of_Z 0) then
    match fuel with
    | O => None
    | S fuel' =>
        hex_loop fuel' (Math_floor (div n (of_Z 16)))
                 (concat_indexed (string_index hexDigits (rem n (of_Z 16)))
                                 hex)
    end
  else Some hex.
Proof. destruct fuel; reflexivity. Qed.

(** The loop of [decimalToBinary] on a non-negative integer prints its
    binary numeral in front of what it was given, provided it is allowed
    one iteration per bit. *)
Lemma binary_loop_spec (fuel : nat) :
  forall z acc, 0 <= z < 2 ^ Z.of_nat fuel ->
    binary_loop fuel (of_Z z) acc = Some (binary_numeral z ++ acc).
Proof.
  unfold binary_numeral.
  induction fuel as [|fuel IH]; intros z acc Hz;
    rewrite binary_loop_unfold, gt_of_Z.
  - simpl in Hz. assert (z = 0) by lia. subst z. reflexivity.
  - destruct (Z.ltb_spec 0 z) as [Hp|Hp].
    + rewrite floor_div_of_Z, rem_of_Z by lia.
      rewrite toString_bit by (apply Z.mod_pos_bound; lia).
      rewrite Nat2Z.inj_succ, Z.pow_succ_r in Hz by lia.
      rewrite IH.
      * rewrite (@digits_of_step 2 z) by lia.
        rewrite map_app, <- app_assoc. reflexivity.
      * split; [apply Z.div_pos; lia|].
        apply Z.div_lt_upper_bound; lia.
    + assert (z = 0) by lia. subst z. reflexivity.
Qed.

Lemma hex_loop_spec (fuel : nat) :
  forall z acc, 0 <= z < 2 ^ Z.of_nat fuel ->
    hex_loop fuel (of_Z z) acc = Some (hex_numeral z ++ acc).
Proof.
  unfold hex_numeral.
  induction fuel as [|fuel IH]; intros z acc Hz;
    rewrite hex_loop_unfold, gt_of_Z.
  - simpl in Hz. assert (z = 0) by lia. subst z. reflexivity.
  - destruct (Z.ltb_spec 0 z) as [Hp|Hp].
    + rewrite floor_div_of_Z, rem_of_Z by lia.
      rewrite hexDigits_index by (apply Z.mod_pos_bound; lia).
      rewrite Nat2Z.inj_succ, Z.pow_succ_r in Hz by lia.
      rewrite IH.
      * rewrite (@digits_of_step 16 z) by lia.
        rewrite map_app, <- app_assoc. reflexivity.
      * split; [apply Z.div_pos; lia|].
        apply Z.div_lt_upper_bound; lia.
    + assert (z = 0) by lia. subst z. reflexivity.
Qed.

Lemma decimalToBinary_unfold (fuel : nat) (num : number) :
  decimalToBinary (S fuel) num =
  if lt num (of_Z 0) then
    option_map (cons (chr "-")) (decimalToBinary fuel (neg num))
  else if strict_eq num (of_Z 0) then Some (str "0")
  else binary_loop fuel (Math_floor num) [].
Proof. reflexivity. Qed.

Lemma decimalToHex_unfold (fuel : nat) (num : number) :
  decimalToHex (S fuel) num =
  if lt num (of_Z 0) then
    option_map (cons (chr "-")) (decimalToHex fuel (neg num))
  else if strict_eq num (of_Z 0) then Some (str "0")
  else hex_loop fuel (Math_floor num) [].
Proof. reflexivity. Qed.

Lemma lt_zero (q : Q) : lt (Fin q) (of_Z 0) = Qlt_bool q 0.
Proof. reflexivity. Qed.

Lemma strict_eq_zero (q : Q) : strict_eq (Fin q) (of_Z 0) = Qeq_bool q 0.
Proof. reflexivity. Qed.

Lemma Qfloor_nonneg (q : Q) : (0 <= q)%Q -> 0 <= Qfloor q.
Proof. intros H. apply (Qfloor_resp_le 0 q H). Qed.

(** Every finite number, with one iteration allowed per bit of its
    integer part: the sign, then the binary numeral of the integer part of
    the magnitude, and ["0"] for zero itself. *)
Lemma decimalToBinary_finite (q : Q) (fuel : nat) :
  Qfloor (Qabs q) < 2 ^ Z.of_nat fuel ->
  decimalToBinary (S (S fuel)) (Fin q)
  = Some (signed_numeral binary_numeral q).
Proof.
  intros Hb. unfold signed_numeral.
  rewrite decimalToBinary_unfold, lt_zero.
  destruct (Qlt_bool q 0) eqn:L.
  - apply Qlt_bool_iff in L.
    assert (E : Qeq_bool q 0 = false).
    { apply Qeq_bool_false_iff. intros H. rewrite H in L.
      exact (Qlt_irrefl _ L). }
    rewrite E. unfold neg, fin.
    rewrite decimalToBinary_unfold, lt_zero, strict_eq_zero.
    assert (Hpos : (0 < Qred (- q))%Q).
    { rewrite Qred_correct. apply (Qopp_lt_compat q 0). exact L. }
    assert (L' : Qlt_bool (Qred (- q)) 0 = false).
    { apply Qlt_bool_false_iff, Qlt_le_weak, Hpos. }
    assert (E' : Qeq_bool (Qred (- q)) 0 = false).
    { apply Qeq_bool_false_iff. intros H. rewrite H in Hpos.
      exact (Qlt_irrefl _ Hpos). }
    rewrite L', E'. unfold Math_floor.
    assert (F : Qfloor (Qred (- q)) = Qfloor (Qabs q)).
    { rewrite Qred_correct. rewrite Qabs_neg by (apply Qlt_le_weak, L).
      reflexivity. }
    rewrite F, binary_loop_spec.
    + rewrite app_nil_r. reflexivity.
    + split; [apply Qfloor_nonneg, Qabs_nonneg | exact Hb].
  - rewrite strict_eq_zero. destruct (Qeq_bool q 0) eqn:E; [reflexivity|].
    apply Qlt_bool_false_iff in L. unfold Math_floor.
    assert (F : Qfloor q = Qfloor (Qabs q)) by (rewrite Qabs_pos; auto).
    rewrite F, binary_loop_spec.
    + rewrite app_nil_r. reflexivity.
    + split; [apply Qfloor_nonneg, Qabs_nonneg|].
      rewrite Nat2Z.inj_succ, Z.pow_succ_r by lia. lia.
Qed.

Lemma decimalToHex_finite (q : Q) (fuel : nat) :
  Qfloor (Qabs q) < 2 ^ Z.of_nat fuel ->
  decimalToHex (S (S fuel)) (Fin q) = Some (signed_numeral hex_numeral q).
Proof.
  intros Hb. unfold signed_numeral.
  rewrite decimalToHex_unfold, lt_zero.
  destruct (Qlt_bool q 0) eqn:L.
  - apply Qlt_bool_iff in L.
    assert (E : Qeq_bool q 0 = false).
    { apply Qeq_bool_false_iff. intros H. rewrite H in L.
      exact (Qlt_irrefl _ L). }
    rewrite E. unfold neg, fin.
    rewrite decimalToHex_unfold, lt_zero, strict_eq_zero.
    assert (Hpos : (0 < Qred (- q))%Q).
    { rewrite Qred_correct. apply (Qopp_lt_compat q 0). exact L. }
    assert (L' : Qlt_bool (Qred (- q)) 0 = false).
    { apply Qlt_bool_false_iff, Qlt_le_weak, Hpos. }
    assert (E' : Qeq_bool (Qred (- q)) 0 = false).
    { apply Qeq_bool_false_iff. intros H. rewrite H in Hpos.
      exact (Qlt_irrefl _ Hpos). }
    rewrite L', E'. unfold Math_floor.
    assert (F : Qfloor (Qred (- q)) = Qfloor (Qabs q)).
    { rewrite Qred_correct. rewrite Qabs_neg by (apply Qlt_le_weak, L).
      reflexivity. }
    rewrite F, hex_loop_spec.
    + rewrite app_nil_r. reflexivity.
    + split; [apply Qfloor_nonneg, Qabs_nonneg | exact Hb].
  - rewrite strict_eq_zero. destruct (Qeq_bool q 0) eqn:E; [reflexivity|].
    apply Qlt_bool_false_iff in L. unfold Math_floor.
    assert (F : Qfloor q = Qfloor (Qabs q)) by (rewrite Qabs_pos; auto).
    rewrite F, hex_loop_spec.
    + rewrite app_nil_r. reflexivity.
    + split; [apply Qfloor_nonneg, Qabs_nonneg|].
      rewrite Nat2Z.inj_succ, Z.pow_succ_r by lia. lia.
Qed.

(** C6 at its failing inputs.  A number strictly between 0 and 1 is not
    0, so the test for zero lets it through; its integer part is 0, so the
    loop does not run; the result is the empty string, not ["0"].  The
    specification's own examples hold. *)
Theorem base_conversion_of_fraction (q : Q) (fuel : nat) :
  (0 < q)%Q -> (q < 1)%Q ->
  (decimalToBinary (2 + fuel) (Fin q) = Some []
   /\ decimalToHex (2 + fuel) (Fin q) = Some []
   /\ decimalToBinary (2 + fuel) (Fin (- q)) = Some (str "-")
   /\ decimalToHex (2 + fuel) (Fin (- q)) = Some (str "-"))
  /\ (decimalToBinary (2 + fuel) (of_Z 0) = Some (str "0")
      /\ decimalToHex (2 + fuel) (of_Z 0) = Some (str "0")
      /\ decimalToBinary (5 + fuel) (of_Z (-5)) = Some (str "-101")).
Proof.
  intros H0 H1.
  assert (F : Qfloor q = 0).
  { assert (0 <= Qfloor q) by (apply Qfloor_nonneg, Qlt_le_weak, H0).
    assert (Qfloor q < 1).
    { apply (inject_Z_lt (Qfloor q) 1).
      apply Qle_lt_trans with q; [apply Qfloor_le | exact H1]. }
    lia. }
  assert (P : forall n : nat, 0 < 2 ^ Z.of_nat n)
    by (intros n; apply Z.pow_pos_nonneg; lia).
  assert (E0 : Qeq_bool q 0 = false).
  { apply Qeq_bool_false_iff. intros H. rewrite H in H0.
    exact (Qlt_irrefl _ H0). }
  assert (L0 : Qlt_bool q 0 = false)
    by (apply Qlt_bool_false_iff, Qlt_le_weak, H0).
  assert (Hn : (- q < 0)%Q) by (apply (Qopp_lt_compat 0 q), H0).
  assert (E1 : Qeq_bool (- q) 0 = false).
  { apply Qeq_bool_false_iff. intros H. rewrite H in Hn.
    exact (Qlt_irrefl _ Hn). }
  assert (L1 : Qlt_bool (- q) 0 = true) by (apply Qlt_bool_iff, Hn).
  assert (A0 : Qfloor (Qabs q) = 0)
    by (rewrite Qabs_pos; [exact F | apply Qlt_le_weak, H0]).
  assert (A1 : Qfloor (Qabs (- q)) = 0) by (rewrite Qabs_opp; exact A0).
  change (2 + fuel)%nat with (S (S fuel)).
  split; [split; [|split; [|split]] | split; [|split]].
  - rewrite decimalToBinary_finite by (rewrite A0; apply P).
    unfold signed_numeral. rewrite E0, L0, A0. reflexivity.
  - rewrite decimalToHex_finite by (rewrite A0; apply P).
    unfold signed_numeral. rewrite E0, L0, A0. reflexivity.
  - rewrite decimalToBinary_finite by (rewrite A1; apply P).
    unfold signed_numeral. rewrite E1, L1, A1. reflexivity.
  - rewrite decimalToHex_finite by (rewrite A1; apply P).
    unfold signed_numeral. rewrite E1, L1, A1. reflexivity.
  - reflexivity.
  - reflexivity.
  - change (5 + fuel)%nat with (S (S (3 + fuel))).
    unfold of_Z. rewrite decimalToBinary_finite; [reflexivity|].
    change (Qfloor (Qabs (inject_Z (-5)))) with 5.
    rewrite Nat2Z.inj_add, Z.pow_add_r by lia.
    specialize (P fuel). change (2 ^ Z.of_nat 3) with 8. lia.
Qed.

Lemma base_conversion_of_fraction_witness :
  decimalToBinary 2 (Fin (1 # 2)) = Some []
  /\ decimalToHex 2 (Fin (1 # 2)) = Some [].
Proof.
  assert (H0 : (0 < 1 # 2)%Q) by reflexivity.
  assert (H1 : (1 # 2 < 1)%Q) by reflexivity.
  destruct (base_conversion_of_fraction 0 H0 H1) as [(Hb & Hh & _) _].
  split; [exact Hb | exact Hh].
Defined.

(** **** Reading the numerals back *)

Lemma hex_char_value (d : Z) :
  0 <= d < 16 ->
  digit_value (hex_char d) = Some d /\ is_hex_digit (hex_char d) = true.
Proof.
  intros H.
  assert (E : d = 0 \/ d = 1 \/ d = 2 \/ d = 3 \/ d = 4 \/ d = 5 \/ d = 6
              \/ d = 7 \/ d = 8 \/ d = 9 \/ d = 10 \/ d = 11 \/ d = 12
              \/ d = 13 \/ d = 14 \/ d = 15) by lia.
  repeat (destruct E as [-> | E]; [split; reflexivity|]).
  subst d. split; reflexivity.
Qed.

Lemma binary_char_value (d : Z) :
  0 <= d < 2 ->
  digit_value (digit_char d) = Some d /\ is_binary_digit (digit_char d) = true.
Proof.
  intros H. assert (E : d = 0 \/ d = 1) by lia.
  destruct E as [-> | ->]; split; reflexivity.
Qed.

(** The numeral of a positive integer, written with characters [ch] that
    the reader [ok] accepts and that denote the digits, is accepted and
    read back as the integer. *)
Lemma numeral_read_back (r : Z) (ch : Z -> codeunit)
    (ok : codeunit -> bool) (z : Z) :
  2 <= r <= 16 ->
  (forall d, 0 <= d < r -> digit_value (ch d) = Some d /\ ok (ch d) = true) ->
  0 < z ->
  let s := List.map ch (digits_of r z) in
  Regex.test_anchored (Regex.Plus ok) s = true
  /\ parseInt s r = of_Z z.
Proof.
  intros Hr Hch Hz s.
  assert (Hrange := @digits_of_range r z ltac:(lia)).
  assert (Hne : s <> []).
  { unfold s. intros E. apply map_eq_nil in E.
    revert E. apply digits_of_nonempty; lia. }
  split.
  - apply StringFacts.test_plus_all; [exact Hne|].
    unfold s. rewrite forallb_forall. intros c Hc.
    apply in_map_iff in Hc. destruct Hc as (d & <- & Hd).
    rewrite Forall_forall in Hrange. apply Hch, Hrange, Hd.
  - rewrite StringFacts.parseInt_digits; [|lia|exact Hne|].
    + f_equal. unfold s. apply positional_value_digits; try lia.
      intros d Hd. apply Hch, Hd.
    + unfold s. rewrite forallb_forall. intros c Hc.
      apply in_map_iff in Hc. destruct Hc as (d & <- & Hd).
      rewrite Forall_forall in Hrange. specialize (Hrange d Hd).
      unfold is_radix_digit. destruct (Hch d Hrange) as [-> _].
      apply Z.ltb_lt. lia.
Qed.

(** C5.  For every integer [n] with [0 <= n < 2^31], printing [n] in base
    two and reading the result back gives [n], and so does base sixteen;
    nothing is reported on the way.  (33 covers the call and one loop
    iteration per bit.) *)
Theorem base_conversion_round_trip (n : Z) (fuel : nat) :
  0 <= n < 2 ^ 31 -> (33 <= fuel)%nat ->
  (exists s, decimalToBinary fuel (of_Z n) = Some s
             /\ binaryToDecimal s = (of_Z n, []))
  /\ (exists s, decimalToHex fuel (of_Z n) = Some s
                /\ hexToDecimal s = (of_Z n, [])).
Proof.
  intros Hn Hf.
  destruct fuel as [|[|fuel]]; try lia.
  assert (F : Qfloor (Qabs (inject_Z n)) = n).
  { assert (Ha : (Qabs (inject_Z n) == inject_Z n)%Q)
      by (apply Qabs_pos, (@inject_le 0); lia).
    rewrite Ha. apply Qfloor_Z. }
  assert (Hb : Qfloor (Qabs (inject_Z n)) < 2 ^ Z.of_nat fuel).
  { rewrite F. apply Z.lt_le_trans with (2 ^ 31); [lia|].
    apply Z.pow_le_mono_r; lia. }
  unfold of_Z at 1 3.
  rewrite decimalToBinary_finite, decimalToHex_finite by exact Hb.
  unfold signed_numeral.
  destruct (Z.eq_dec n 0) as [->|Hnz].
  - split; eexists; (split; [reflexivity|]); reflexivity.
  - assert (E : Qeq_bool (inject_Z n) 0 = false) by (apply inject_nonzero; lia).
    assert (L : Qlt_bool (inject_Z n) 0 = false)
      by (apply Qlt_bool_false_iff, (@inject_le 0); lia).
    rewrite E, L, F. simpl app.
    split; eexists; (split; [reflexivity|]).
    + destruct (@numeral_read_back 2 digit_char is_binary_digit n)
        as [Ht Hp]; [lia|apply binary_char_value|lia|].
      unfold binaryToDecimal, binary_numeral. rewrite Ht, Hp. reflexivity.
    + destruct (@numeral_read_back 16 hex_char is_hex_digit n)
        as [Ht Hp]; [lia|apply hex_char_value|lia|].
      unfold hexToDecimal, hex_numeral. rewrite Ht, Hp. reflexivity.
Qed.

Lemma base_conversion_round_trip_witness :
  (exists s, decimalToBinary 40 (of_Z 2024) = Some s
             /\ binaryToDecimal s = (of_Z 2024, []))
  /\ (exists s, decimalToHex 40 (of_Z 2024) = Some s
                /\ hexToDecimal s = (of_Z 2024, [])).
Proof.
  apply base_conversion_round_trip; [split; [lia | reflexivity] | lia].
Defined.

End BaseConversionFacts.

(** *** formatNumber *)

Module FormatFacts.

Import JSFacts DigitsFacts ToStringFacts StringFacts Calculator Spec.

Local Open Scope Z_scope.

Lemma is_digit_digit_char (d : Z) : 0 <= d < 10 -> is_digit (digit_char d) = true.
Proof.
  intros H. unfold is_digit, in_range, digit_char.
  destruct (Z.ltb_spec d 10); [|lia].
  apply andb_true_iff. split; apply N.leb_le; lia.
Qed.

Lemma decimal_digits_are_digits (z : Z) :
  forallb is_digit (decimal_digits z) = true.
Proof.
  unfold decimal_digits. rewrite forallb_forall. intros c Hc.
  apply in_map_iff in Hc. destruct Hc as (d & <- & Hd).
  apply is_digit_digit_char.
  pose proof (@digits_of_range 10 z ltac:(lia)) as Hr.
  rewrite Forall_forall in Hr. apply Hr, Hd.
Qed.

Lemma zeros_are_digits (n : nat) : forallb is_digit (repeat (chr "0") n) = true.
Proof. induction n as [|n IH]; [reflexivity|]. simpl. exact IH. Qed.

Lemma positional_value_zeros (n : nat) (s : jsstring) :
  positional_value 10 (repeat (chr "0") n ++ s) = positional_value 10 s.
Proof.
  unfold positional_value. rewrite fold_left_app. f_equal.
  induction n as [|n IH]; [reflexivity|]. simpl. exact IH.
Qed.

Lemma positional_value_decimal (z : Z) :
  0 <= z -> positional_value 10 (decimal_digits z) = z.
Proof.
  intros Hz. unfold decimal_digits. apply positional_value_digits; try lia.
  intros d Hd. apply digit_value_digit_char. lia.
Qed.

(** **** toFixed(6) *)

Lemma millionths_nonneg (v : Q) : 0 <= millionths v.
Proof.
  unfold millionths. apply BaseConversionFacts.Qfloor_nonneg.
  apply (Qle_trans _ (0 + (1 # 2))); [discriminate|].
  apply Qplus_le_l. apply Qmult_le_0_compat; [apply Qabs_nonneg|discriminate].
Qed.

Lemma below_1e21 (v : Q) :
  millionths v < 10 ^ 27 -> Qle_bool (inject_Z (10 ^ 21)) (Qabs v) = false.
Proof.
  intros Hm. destruct (Qle_bool (inject_Z (10 ^ 21)) (Qabs v)) eqn:E;
    [|reflexivity].
  exfalso. apply Qle_bool_iff in E.
  assert (H : (inject_Z (10 ^ 27) <= Qabs v * inject_Z (10 ^ 6) + (1 # 2))%Q).
  { apply Qle_trans with (Qabs v * inject_Z (10 ^ 6) + 0)%Q;
      [|apply Qplus_le_r; discriminate].
    rewrite Qplus_0_r.
    change (inject_Z (10 ^ 27))
      with (inject_Z (10 ^ 21) * inject_Z (10 ^ 6))%Q.
    apply Qmult_le_compat_r; [exact E|discriminate]. }
  apply Qfloor_resp_le in H. rewrite Qfloor_Z in H.
  unfold millionths in Hm. lia.
Qed.

Lemma toFixed_unfold (v : Q) :
  Qle_bool (inject_Z (10 ^ 21)) (Qabs v) = false ->
  toFixed 6 (Fin v) =
  (if Qlt_bool v 0 then [chr "-"] else [])
  ++ (let m := if millionths v =? 0 then str "0"
               else decimal_digits (millionths v) in
      let m := if (List.length m <=? 6)%nat
               then repeat (chr "0") (6 + 1 - List.length m) ++ m else m in
      firstn (List.length m - 6) m ++ chr "." :: skipn (List.length m - 6) m).
Proof. intros H. unfold toFixed. rewrite H. reflexivity. Qed.

(** Below 10^21, [toFixed(6)] writes the sign, the whole part, the point
    and the six digits of the millionths. *)
Lemma toFixed_six (v : Q) :
  millionths v < 10 ^ 27 ->
  toFixed 6 (Fin v) =
  (if Qlt_bool v 0 then [chr "-"] else [])
  ++ (if millionths v / 10 ^ 6 =? 0 then str "0"
      else decimal_digits (millionths v / 10 ^ 6))
  ++ chr "." :: pad_zeros 6 (decimal_digits (millionths v mod 10 ^ 6)).
Proof.
  intros Hm. rewrite toFixed_unfold by (apply below_1e21; exact Hm).
  f_equal. pose proof (millionths_nonneg v) as H0.
  set (m := millionths v) in *. cbv zeta.
  pose proof (Z.div_mod m (10 ^ 6) ltac:(lia)) as Hdm.
  pose proof (Z.mod_pos_bound m (10 ^ 6) ltac:(lia)) as Hfr.
  assert (Hwhole : 0 <= m / 10 ^ 6) by (apply Z.div_pos; lia).
  destruct (Z.eqb_spec m 0) as [->|Hnz]; [reflexivity|].
  destruct (Z.eqb_spec (m / 10 ^ 6) 0) as [Hw0|Hwnz].
  - assert (Hmp : m mod 10 ^ 6 = m) by lia. rewrite Hmp.
    assert (Hlen : (List.length (decimal_digits m) <= 6)%nat)
      by (apply decimal_digits_length; change (Z.of_nat 6) with 6; lia).
    destruct (Nat.leb_spec (List.length (decimal_digits m)) 6); [|lia].
    rewrite length_app, repeat_length.
    replace (6 + 1 - List.length (decimal_digits m)
             + List.length (decimal_digits m) - 6)%nat with 1%nat by lia.
    replace (6 + 1 - List.length (decimal_digits m))%nat
      with (S (6 - List.length (decimal_digits m))) by lia.
    reflexivity.
  - assert (Hw : 0 < m / 10 ^ 6) by lia.
    pose proof (@decimal_digits_block (m / 10 ^ 6) (m mod 10 ^ 6) 6 Hw Hfr)
      as Hblock.
    change (Z.of_nat 6) with 6 in Hblock.
    replace (m / 10 ^ 6 * 10 ^ 6 + m mod 10 ^ 6) with m in Hblock by lia.
    set (A := decimal_digits (m / 10 ^ 6)) in *.
    set (B := pad_zeros 6 (decimal_digits (m mod 10 ^ 6))) in *.
    assert (HlenB : List.length B = 6%nat).
    { unfold B, pad_zeros. rewrite length_app, repeat_length.
      assert (List.length (decimal_digits (m mod 10 ^ 6)) <= 6)%nat
        by (apply decimal_digits_length; change (Z.of_nat 6) with 6; lia).
      lia. }
    assert (HlenA : (1 <= List.length A)%nat).
    { pose proof (@decimal_digits_nonempty (m / 10 ^ 6) Hw) as Hne.
      fold A in Hne. destruct A; [congruence|simpl; lia]. }
    rewrite Hblock.
    destruct (Nat.leb_spec (List.length (A ++ B)) 6) as [Hle|_];
      [rewrite length_app in Hle; lia|].
    rewrite length_app, HlenB.
    replace (List.length A + 6 - 6)%nat with (List.length A) by lia.
    rewrite firstn_app, firstn_all, Nat.sub_diag, firstn_O, app_nil_r.
    rewrite skipn_app, skipn_all, Nat.sub_diag, skipn_O. reflexivity.
Qed.

(** **** parseFloat on what toFixed writes *)

Lemma digit_plain (c : codeunit) :
  is_digit c = true ->
  is_space c = false /\ cu_eqb c (chr "-") = false
  /\ cu_eqb c (chr "+") = false.
Proof. intros H. repeat split; cu_cases. Qed.

Lemma parseFloat_fixed (negative : bool) (a b : jsstring) :
  a <> [] -> forallb is_digit a = true -> forallb is_digit b = true ->
  parseFloat ((if negative then [chr "-"] else []) ++ a ++ chr "." :: b)
  = fin (let v := ((inject_Z (positional_value 10 a)
                    + inject_Z (positional_value 10 b)
                      / inject_Z (10 ^ Z.of_nat (List.length b)))
                   * 1)%Q in
         if negative then (- v)%Q else v).
Proof.
  intros Hne Ha Hb.
  destruct (@take_while_stop is_digit a (chr ".") b Ha eq_refl) as [Ht Hd].
  assert (Hs : strip_sign
                 (trim_start
                    ((if negative then [chr "-"] else []) ++ a ++ chr "." :: b))
               = (negative, a ++ chr "." :: b)).
  { destruct a as [|a0 a']; [congruence|].
    pose proof Ha as Ha'. simpl in Ha'. apply andb_true_iff in Ha'.
    destruct Ha' as [Ha0 _].
    destruct (digit_plain a0 Ha0) as (Hsp & Hmi & Hpl).
    destruct negative; [reflexivity|].
    simpl app. simpl trim_start. rewrite Hsp.
    unfold strip_sign. rewrite Hmi, Hpl. reflexivity. }
  unfold parseFloat. rewrite Hs. cbv beta iota zeta. rewrite Ht, Hd.
  change (cu_eqb (chr ".") (chr ".")) with true. cbv iota.
  rewrite (take_while_all _ _ Hb), (drop_while_all _ _ Hb).
  destruct a; [congruence|]. reflexivity.
Qed.

(** **** The two branches of formatNumber *)

Lemma formatNumber_unfold (v : Q) :
  formatNumber (Fin v) =
  if lt (Math_abs (sub (Math_round (Fin v)) (Fin v))) (Fin (1 # 10 ^ 12))
  then Number_toString (of_Z (nearest_integer v))
  else Number_toString (parseFloat (toFixed 6 (Fin v))).
Proof. reflexivity. Qed.

(** The program's test is "within 1e-12 of the nearest integer". *)
Lemma near_integer_test (v : Q) :
  lt (Math_abs (sub (Math_round (Fin v)) (Fin v))) (Fin (1 # 10 ^ 12)) = true
  <-> near_integer v.
Proof.
  change (lt (Math_abs (sub (Math_round (Fin v)) (Fin v))) (Fin (1 # 10 ^ 12)))
    with (Qlt_bool
            (Qred (Qabs (Qred (inject_Z (nearest_integer v) + Qred (- v)))))
            (1 # 10 ^ 12)).
  rewrite Qlt_bool_iff. unfold near_integer, Qminus.
  rewrite !Qred_correct. reflexivity.
Qed.

Lemma Number_toString_millionths (negative : bool) (y : Q) (m : Z) :
  0 <= m < 10 ^ 27 ->
  (y == (if negative then - (inject_Z m / inject_Z (10 ^ 6))
         else inject_Z m / inject_Z (10 ^ 6)))%Q ->
  Number_toString (Fin y) =
  if m =? 0 then str "0"
  else
    (if negative then [chr "-"] else [])
    ++ (if m / 10 ^ 6 =? 0 then str "0" else decimal_digits (m / 10 ^ 6))
    ++ (if m mod 10 ^ 6 =? 0 then []
        else chr "." :: strip_trailing_zeros
                          (pad_zeros 6 (decimal_digits (m mod 10 ^ 6)))).
Proof.
  intros Hm Hy. unfold Number_toString.
  destruct (Z.eqb_spec m 0) as [->|Hnz].
  - assert (E : Qeq_bool y 0 = true).
    { apply Qeq_bool_iff. rewrite Hy. destruct negative; reflexivity. }
    rewrite E. reflexivity.
  - assert (Hpos : (0 < inject_Z m / inject_Z (10 ^ 6))%Q).
    { apply Qlt_shift_div_l; [reflexivity|]. rewrite Qmult_0_l.
      apply (@inject_lt 0 m). lia. }
    destruct negative.
    + assert (Hneg : (y < 0)%Q).
      { rewrite Hy. apply (Qopp_lt_compat 0 _). exact Hpos. }
      assert (E : Qeq_bool y 0 = false).
      { apply Qeq_bool_false_iff. intros H. rewrite H in Hneg.
        exact (Qlt_irrefl _ Hneg). }
      assert (L : Qlt_bool y 0 = true) by (apply Qlt_bool_iff; exact Hneg).
      rewrite E, L. simpl app. f_equal.
      apply positive_toString_millionths; [lia|].
      rewrite Hy. apply Qopp_involutive.
    + assert (E : Qeq_bool y 0 = false).
      { apply Qeq_bool_false_iff. intros H. rewrite Hy in H.
        rewrite H in Hpos. exact (Qlt_irrefl _ Hpos). }
      assert (L : Qlt_bool y 0 = false).
      { apply Qlt_bool_false_iff. rewrite Hy. apply Qlt_le_weak, Hpos. }
      rewrite E, L. simpl app.
      apply positive_toString_millionths; [lia | exact Hy].
Qed.

(** What is printed when the value is not near an integer. *)
Lemma fixed_branch (v : Q) :
  millionths v < 10 ^ 27 ->
  Number_toString (parseFloat (toFixed 6 (Fin v))) = fixed6_stripped v.
Proof.
  intros Hm. rewrite toFixed_six by exact Hm.
  pose proof (millionths_nonneg v) as H0.
  unfold fixed6_stripped. cbv zeta.
  set (m := millionths v) in *.
  pose proof (Z.div_mod m (10 ^ 6) ltac:(lia)) as Hdm.
  pose proof (Z.mod_pos_bound m (10 ^ 6) ltac:(lia)) as Hfr.
  assert (Hwhole : 0 <= m / 10 ^ 6) by (apply Z.div_pos; lia).
  match goal with
  | |- context [parseFloat (_ ++ ?a' ++ _ :: ?b')] =>
      set (a := a') in *; set (b := b') in *
  end.
  assert (Ha : forallb is_digit a = true).
  { unfold a. destruct (m / 10 ^ 6 =? 0); [reflexivity|].
    apply decimal_digits_are_digits. }
  assert (Hane : a <> []).
  { unfold a. destruct (Z.eqb_spec (m / 10 ^ 6) 0); [discriminate|].
    apply decimal_digits_nonempty. lia. }
  assert (Hb : forallb is_digit b = true).
  { unfold b, pad_zeros. rewrite forallb_app, zeros_are_digits.
    apply decimal_digits_are_digits. }
  assert (Hlb : List.length b = 6%nat).
  { unfold b, pad_zeros. rewrite length_app, repeat_length.
    assert (List.length (decimal_digits (m mod 10 ^ 6)) <= 6)%nat
      by (apply decimal_digits_length; change (Z.of_nat 6) with 6; lia).
    lia. }
  assert (Hva : positional_value 10 a = m / 10 ^ 6).
  { unfold a. destruct (Z.eqb_spec (m / 10 ^ 6) 0) as [->|_]; [reflexivity|].
    apply positional_value_decimal. exact Hwhole. }
  assert (Hvb : positional_value 10 b = m mod 10 ^ 6).
  { unfold b, pad_zeros. rewrite positional_value_zeros.
    apply positional_value_decimal. lia. }
  rewrite (@parseFloat_fixed (Qlt_bool v 0) a b Hane Ha Hb).
  rewrite Hva, Hvb, Hlb. cbv zeta. unfold fin.
  apply (@Number_toString_millionths (Qlt_bool v 0) _ m); [lia|].
  rewrite Qred_correct.
  assert (Hval : ((inject_Z (m / 10 ^ 6)
                   + inject_Z (m mod 10 ^ 6) / inject_Z (10 ^ Z.of_nat 6)) * 1
                  == inject_Z m / inject_Z (10 ^ 6))%Q).
  { change (Z.of_nat 6) with 6. rewrite Hdm at 3.
    rewrite inject_Z_plus, inject_Z_mult. field. discriminate. }
  destruct (Qlt_bool v 0); rewrite Hval; reflexivity.
Qed.

Lemma integer_numeral_has_no_point (z : Z) :
  ~ In (chr ".") (integer_numeral z).
Proof.
  assert (Hd : forall m, ~ In (chr ".") (decimal_digits m)).
  { intros m Hin.
    pose proof (decimal_digits_are_digits m) as H.
    rewrite forallb_forall in H. specialize (H _ Hin). discriminate H. }
  unfold integer_numeral.
  destruct (z =? 0); [|destruct (z <? 0)].
  - simpl. intros [H|[]]. discriminate H.
  - simpl. intros [H|H]; [discriminate H|]. exact (Hd _ H).
  - apply Hd.
Qed.




End FormatFacts.

(** *** The calculator, handler by handler *)

Module CalculatorFacts.

Import Calculator Spec.

Lemma sanitize_two_plus_two :
  sanitizeExpressionForEval (str "2+2") = str "2+2".
Proof. vm_compute. reflexivity. Qed.

Lemma sanitize_four_plus_three :
  sanitizeExpressionForEval (str "4+3") = str "4+3".
Proof. vm_compute. reflexivity. Qed.

Lemma formatNumber_4 : formatNumber (of_Z 4) = str "4".
Proof. vm_compute. reflexivity. Qed.

Lemma formatNumber_7 : formatNumber (of_Z 7) = str "7".
Proof. vm_compute. reflexivity. Qed.

Section Chained.

Context {RT : Runtime}.

(** C1.  From an editing state whose input is "2+2", "=" shows the result
    "4" under the expression "2+2", makes "4" the new input and marks the
    state as computed; "+" then continues from the result with input "4+"
    in an editing state; "3" and "=" then show "7".  The two values are
    what mathjs returns for "2+2" and "4+3". *)
Theorem chained_evaluation (st : CalculatorState) :
  mathjs_evaluate (str "2+2") = Some (of_Z 4) ->
  mathjs_evaluate (str "4+3") = Some (of_Z 7) ->
  input st = str "2+2" ->
  justComputed st = false ->
  let s1 := step Equals st in
  let s2 := step (Input (str "+")) s1 in
  let s3 := step Equals (step (Input (str "3")) s2) in
  (result s1 = Some (str "4")
   /\ lastExpression s1 = Some (str "2+2")
   /\ input s1 = str "4"
   /\ justComputed s1 = true)
  /\ (input s2 = str "4+" /\ justComputed s2 = false)
  /\ result s3 = Some (str "7").
Proof.
  intros H4 H7 Hin Hjc.
  destruct st as [i r l a j]; simpl in Hin, Hjc; subst i j.
  assert (E1 : step Equals
                 {| input := str "2+2"; result := r; lastExpression := l;
                    angleMode := a; justComputed := false |}
               = {| input := str "4"; result := Some (str "4");
                    lastExpression := Some (str "2+2");
                    angleMode := a; justComputed := true |}).
  { unfold step, handleEquals, evaluateExpressionValue; simpl input.
    rewrite sanitize_two_plus_two, H4. reflexivity. }
  cbv zeta. rewrite E1.
  assert (E2 : step (Input (str "+"))
                 {| input := str "4"; result := Some (str "4");
                    lastExpression := Some (str "2+2");
                    angleMode := a; justComputed := true |}
               = {| input := str "4+"; result := None;
                    lastExpression := Some (str "2+2");
                    angleMode := a; justComputed := false |})
    by reflexivity.
  rewrite E2.
  assert (E3 : step (Input (str "3"))
                 {| input := str "4+"; result := None;
                    lastExpression := Some (str "2+2");
                    angleMode := a; justComputed := false |}
               = {| input := str "4+3"; result := None;
                    lastExpression := Some (str "2+2");
                    angleMode := a; justComputed := false |})
    by reflexivity.
  rewrite E3.
  unfold step at 1, handleEquals, evaluateExpressionValue; simpl input.
  rewrite sanitize_four_plus_three, H7.
  repeat split.
Qed.

End Chained.

#[local] Existing Instance Sample.runtime.

Lemma chained_evaluation_witness :
  let st := setInput (str "2+2") initial in
  result (step Equals st) = Some (str "4")
  /\ result (step Equals
               (step (Input (str "3"))
                  (step (Input (str "+")) (step Equals st))))
     = Some (str "7").
Proof.
  pose proof (chained_evaluation
                (setInput (str "2+2") initial)
                eq_refl eq_refl eq_refl eq_refl) as H.
  cbv zeta in H. cbv zeta. split; [apply H | apply H].
Defined.


(** **** What the handlers do to [result] and [lastExpression] *)

Section Lifecycle.

Context {RT : Runtime}.

Lemma test_operator (value : jsstring) :
  Regex.test_anchored (Regex.Cls is_operator_char) value = is_operator value.
Proof.
  unfold Regex.test_anchored, is_operator; simpl.
  destruct value as [|c [|d v]]; try reflexivity;
    destruct (is_operator_char c); reflexivity.
Qed.

Lemma test_digit_or_dot (value : jsstring) :
  Regex.test_anchored (Regex.Cls is_digit_or_dot) value
  = match value with [c] => is_digit_or_dot c | _ => false end.
Proof.
  unfold Regex.test_anchored; simpl.
  destruct value as [|c [|d v]]; try reflexivity;
    destruct (is_digit_or_dot c); reflexivity.
Qed.

Lemma cu_eqb_eq (a b : codeunit) : cu_eqb a b = true <-> a = b.
Proof. apply N.eqb_eq. Qed.

Lemma jsstring_eqb_eq (a b : jsstring) : jsstring_eqb a b = true <-> a = b.
Proof.
  revert b; induction a as [|x a IH]; intros [|y b]; simpl;
    try (split; [discriminate | discriminate]); try tauto.
  rewrite andb_true_iff, cu_eqb_eq, IH. split.
  - intros [-> ->]; reflexivity.
  - intros H; injection H; auto.
Qed.

Lemma jsstring_eqb_single (value : jsstring) (c : codeunit) :
  jsstring_eqb value [c] = match value with [d] => cu_eqb d c | _ => false end.
Proof.
  destruct value as [|d [|e v]]; simpl; try reflexivity.
  - apply andb_true_r.
  - apply andb_false_r.
Qed.

Lemma test_symbol (value : jsstring) :
  (Regex.test_anchored (Regex.Cls is_digit_or_dot) value
   || jsstring_eqb value (str "(") || jsstring_eqb value (str ")"))%bool
  = is_symbol value.
Proof.
  rewrite test_digit_or_dot.
  change (str "(") with [chr "("]; change (str ")") with [chr ")"].
  rewrite !jsstring_eqb_single. unfold is_symbol.
  destruct value as [|d [|e v]]; reflexivity.
Qed.

(** [handleInput] by cases. *)
Lemma handleInput_cases (value : jsstring) (st : CalculatorState) :
  handleInput value st =
  if justComputed st then
    if is_operator value then
      {| input := match result st with Some r => r | None => input st end
                  ++ value;
         result := None; lastExpression := lastExpression st;
         angleMode := angleMode st; justComputed := false |}
    else if is_symbol value then
      {| input := value; result := None; lastExpression := None;
         angleMode := angleMode st; justComputed := false |}
    else
      {| input := input st ++ value; result := None;
         lastExpression := lastExpression st;
         angleMode := angleMode st; justComputed := false |}
  else
    {| input := input st ++ value; result := None;
       lastExpression := lastExpression st;
       angleMode := angleMode st; justComputed := false |}.
Proof.
  unfold handleInput. rewrite test_operator, test_symbol.
  destruct (justComputed st), (is_operator value), (is_symbol value);
    reflexivity.
Qed.

(** In every reachable state the result line is filled exactly when the
    state is a computed one. *)
Lemma result_iff_justComputed (st : CalculatorState) :
  reachable st -> (result st <> None <-> justComputed st = true).
Proof.
  induction 1 as [|ev st Hr IH].
  - simpl. split; [congruence | discriminate].
  - destruct ev; simpl step.
    + rewrite handleInput_cases.
      destruct (justComputed st), (is_operator value), (is_symbol value);
        simpl; split; congruence.
    + simpl. split; congruence.
    + unfold handleBackspace. destruct (justComputed st) eqn:E; simpl.
      * split; congruence.
      * rewrite E. exact IH.
    + unfold handleEquals. destruct (is_blank (input st)).
      * simpl. split; congruence.
      * destruct (evaluateExpressionValue (input st)); simpl;
          split; congruence.
    + exact IH.
    + unfold calculateTrigFunction.
      destruct (evaluateExpressionValue (input st)); simpl;
        split; congruence.
    + unfold calculateTrigFunction.
      destruct (evaluateExpressionValue (input st)); simpl;
        split; congruence.
    + unfold calculateTrigFunction.
      destruct (evaluateExpressionValue (input st)); simpl;
        split; congruence.
    + unfold calculateTrigFunction.
      destruct (evaluateExpressionValue (input st)); simpl;
        split; congruence.
    + unfold handleFactorial, handleFactorial_with.
      destruct (evaluateExpressionValue (input st)) as [v|];
        [destruct (negb (Number_isInteger v) || lt v (of_Z 0))%bool;
         [|destruct (MathUtils.factorial stack_limit v)]|];
        simpl; split; congruence.
    + unfold handleSquareRoot.
      destruct (evaluateExpressionValue (input st)); simpl;
        split; congruence.
    + unfold handleReciprocal.
      destruct (evaluateExpressionValue (input st)) as [v|];
        [destruct (strict_eq v (of_Z 0))|]; simpl; split; congruence.
    + unfold handlePower.
      destruct (evaluateExpressionValue (input st)); simpl;
        split; congruence.
    + unfold handleExp.
      destruct (evaluateExpressionValue (input st)); simpl;
        split; congruence.
    + unfold handleInsertPi, insert_token.
      destruct (justComputed st) eqn:E; simpl.
      * split; congruence.
      * rewrite E. exact IH.
    + unfold handleInsertE, insert_token.
      destruct (justComputed st) eqn:E; simpl.
      * split; congruence.
      * rewrite E. exact IH.
Qed.

(** A transition that does not evaluate never fills [lastExpression]. *)
Lemma lastExpression_kept (ev : event) (st : CalculatorState) :
  is_evaluation ev = false ->
  lastExpression st = None -> lastExpression (step ev st) = None.
Proof.
  intros Hev Hl. destruct ev; try discriminate Hev; simpl step.
  - rewrite handleInput_cases.
    destruct (justComputed st), (is_operator value), (is_symbol value);
      simpl; auto.
  - reflexivity.
  - unfold handleBackspace. destruct (justComputed st); simpl; auto.
  - exact Hl.
  - unfold handleInsertPi, insert_token.
    destruct (justComputed st); simpl; auto.
  - unfold handleInsertE, insert_token.
    destruct (justComputed st); simpl; auto.
Qed.

Lemma run_snoc (evs : list event) (ev : event) (st : CalculatorState) :
  run (evs ++ [ev]) st = step ev (run evs st).
Proof. unfold run. rewrite fold_left_app. reflexivity. Qed.

Lemma run_reachable (evs : list event) : reachable (run evs initial).
Proof.
  induction evs as [|ev evs IH] using rev_ind.
  - constructor.
  - rewrite run_snoc. constructor. exact IH.
Qed.

Lemma lastExpression_needs_evaluation (evs : list event) :
  lastExpression (run evs initial) <> None ->
  existsb is_evaluation evs = true.
Proof.
  induction evs as [|ev evs IH] using rev_ind.
  - simpl. congruence.
  - rewrite run_snoc, existsb_app. simpl. intros H.
    destruct (is_evaluation ev) eqn:E.
    + simpl. apply orb_true_r.
    + simpl. rewrite orb_false_r. apply IH. intros Hnone.
      apply H. apply lastExpression_kept; assumption.
Qed.


(** C8.  When the input has no value, each of sin, cos, tan, cot, square
    root, reciprocal, the powers and the exponential shows its
    invalid-input marker, marks the state as computed and leaves the input
    (and the angle mode) as they were. *)
Theorem unary_function_on_invalid_input (ev : event) (st : CalculatorState) :
  is_unary_function ev = true ->
  evaluateExpressionValue (input st) = None ->
  let st' := step ev st in
  result st' = Some (invalid_marker ev)
  /\ justComputed st' = true
  /\ input st' = input st
  /\ angleMode st' = angleMode st.
Proof.
  intros Hev Hnone. cbv zeta.
  destruct ev; try discriminate Hev; simpl step;
    unfold calculateTrigFunction, handleSquareRoot, handleReciprocal,
           handlePower, handleExp;
    rewrite Hnone; simpl; auto.
Qed.

End Lifecycle.



Lemma unary_function_on_invalid_input_witness :
  let st := setInput (str "2+") initial in
  result (step Sin st) = Some MSG_INVALID_INPUT
  /\ justComputed (step Sin st) = true
  /\ input (step Sin st) = str "2+".
Proof.
  pose proof (@unary_function_on_invalid_input Sample.runtime Sin
                (setInput (str "2+") initial) eq_refl eq_refl) as H.
  cbv zeta in *. simpl invalid_marker in H. tauto.
Defined.


(** **** The factorial button *)

Section FactorialGuard.

Context {RT : Runtime}.

Import MathUtils.

Lemma evaluateExpressionValue_finite (e : jsstring) (v : number) :
  evaluateExpressionValue e = Some v -> isFinite v = true.
Proof.
  unfold evaluateExpressionValue.
  destruct (mathjs_evaluate (sanitizeExpressionForEval e)) as [n|];
    [|discriminate].
  destruct n; simpl; intros H; inversion H; reflexivity.
Qed.


End FactorialGuard.


End CalculatorFacts.

(* ================================================================== *)
(** ** Part IX: more of lib/mathUtils                                  *)
(* ================================================================== *)

Module UtilityFacts.

Import MathUtils JSFacts.

Section Utilities.

Context {RT : Runtime}.

(** **** factorial away from the natural numbers *)

(** Below a bound, a finite number that is no natural number is
    rejected: the recursion steps down by one until the value is
    negative, the report is posted once, and the [NaN] swallows the
    products on the way back. *)
Lemma factorial_rejects (k : nat) :
  forall (depth : nat) (q : Q),
    (k < depth)%nat -> q <= inject_Z (Z.of_nat k) ->
    (forall n : nat, ~ q == inject_Z (Z.of_nat n)) ->
    factorial depth (Fin q)
    = Some (NaN, [ToastError FactorialNeedsNonNegInt]).
Proof.
  induction k as [|k IH]; intros depth q Hd Hq Hn;
    (destruct depth as [|depth]; [lia|]);
    rewrite MathUtilsFacts.factorial_unfold.
  - assert (L : lt (Fin q) (of_Z 0) = true).
    { apply Qlt_bool_iff. destruct (Qlt_le_dec q 0) as [H|H]; [exact H|].
      exfalso. apply (Hn 0%nat). apply Qle_antisym; assumption. }
    rewrite L. reflexivity.
  - destruct (lt (Fin q) (of_Z 0)) eqn:L; [reflexivity|].
    assert (E0 : strict_eq (Fin q) (of_Z 0) = false)
      by (apply Qeq_bool_false_iff; exact (Hn 0%nat)).
    assert (E1 : strict_eq (Fin q) (of_Z 1) = false)
      by (apply Qeq_bool_false_iff; exact (Hn 1%nat)).
    rewrite E0, E1. cbn [orb].
    change (sub (Fin q) (of_Z 1))
      with (Fin (Qred (q + Qred (- inject_Z 1)))).
    rewrite (IH depth); [reflexivity | lia | |].
    + rewrite !Qred_correct. rewrite <- inject_Z_opp.
      apply Qle_trans with (inject_Z (Z.of_nat (S k)) + inject_Z (- (1)));
        [apply Qplus_le_l; exact Hq|].
      rewrite <- inject_Z_plus. apply inject_le. lia.
    + intros n H. apply (Hn (S n)). rewrite !Qred_correct in H.
      rewrite Nat2Z.inj_succ. unfold Z.succ. rewrite inject_Z_plus.
      rewrite <- H. rewrite <- inject_Z_opp. simpl inject_Z. ring.
Qed.


(** **** The equation solvers *)



(** **** factorial and the call stack *)

(** The natural number [k] needs [k] nested calls (one for 0): with
    fewer the call stack is exhausted, with as many the value is [k!]. *)
Lemma factorial_stack (depth : nat) :
  forall (k : nat) (q : Q),
    q == inject_Z (Z.of_nat k) ->
    factorial depth (Fin q)
    = if (Nat.max k 1 <=? depth)%nat
      then Some (of_Z (Z.of_nat (fact k)), [])
      else None.
Proof.
  induction depth as [|depth IH]; intros k q Hq.
  - assert (G : (Nat.max k 1 <=? 0)%nat = false) by (apply Nat.leb_gt; lia).
    rewrite G. reflexivity.
  - rewrite MathUtilsFacts.factorial_unfold.
    assert (L : lt (Fin q) (of_Z 0) = false).
    { apply Qlt_bool_false_iff. rewrite Hq. apply inject_le. lia. }
    rewrite L.
    destruct k as [|[|k]].
    + assert (E : strict_eq (Fin q) (of_Z 0) = true)
        by (apply Qeq_bool_iff; exact Hq).
      rewrite E. reflexivity.
    + assert (E : strict_eq (Fin q) (of_Z 1) = true)
        by (apply Qeq_bool_iff; exact Hq).
      rewrite E, orb_true_r. reflexivity.
    + assert (E0 : strict_eq (Fin q) (of_Z 0) = false).
      { apply Qeq_bool_false_iff. rewrite Hq. intros H.
        apply inject_inj in H. lia. }
      assert (E1 : strict_eq (Fin q) (of_Z 1) = false).
      { apply Qeq_bool_false_iff. rewrite Hq. intros H.
        apply inject_inj in H. lia. }
      rewrite E0, E1. cbn [orb].
      assert (Hsub : sub (Fin q) (of_Z 1) = of_Z (Z.of_nat (S k))).
      { unfold sub, neg, of_Z, JS.add. apply fin_of_Z.
        rewrite Qred_correct, Hq.
        rewrite <- inject_Z_opp, <- inject_Z_plus.
        apply inject_eq. lia. }
      rewrite Hsub. unfold of_Z at 1.
      rewrite (IH (S k) (inject_Z (Z.of_nat (S k)))) by reflexivity.
      replace (Nat.max (S (S k)) 1 <=? S depth)%nat
        with (Nat.max (S k) 1 <=? depth)%nat.
      2:{ destruct (Nat.leb_spec (Nat.max (S k) 1) depth);
          [symmetry; apply Nat.leb_le | symmetry; apply Nat.leb_gt]; lia. }
      destruct (Nat.max (S k) 1 <=? depth)%nat; [|reflexivity].
      unfold bind, ret. rewrite app_nil_r. do 2 f_equal.
      unfold mul, of_Z. apply fin_of_Z. rewrite Hq.
      rewrite <- inject_Z_mult. apply inject_eq.
      change (fact (S (S k))) with (S (S k) * fact (S k))%nat. lia.
Qed.

(** **** The guards of the tangent and the cotangent *)

Lemma not_lt_le (a b : number) :
  isNaN a = false -> isNaN b = false -> lt b a = false -> le a b = true.
Proof.
  destruct a as [| | |x], b as [| | |y]; simpl; try discriminate;
    try reflexivity.
  intros _ _ H. apply Qle_bool_iff. apply Qlt_bool_false_iff. exact H.
Qed.

Lemma Math_abs_NaN (a : number) : isNaN (Math_abs a) = isNaN a.
Proof. destruct a; reflexivity. Qed.

(** X9.  What [tan] and [cotan] let through.  A tangent beyond 1e15 in
    magnitude, infinite ones included, is reported and replaced by [NaN],
    and so is, for the cotangent, a tangent below 1e-15.  Whatever is
    returned without a report is the tangent, or one over it, of a
    tangent within these bounds, or else comes from a tangent that is
    [NaN], which neither function reports. *)
Theorem tangent_guards (x : number) :
  (posted (tan x) = [] ->
     value (tan x) = Math_tan x
     /\ (Math_tan x = NaN
         \/ le (Math_abs (Math_tan x)) (of_Z (10 ^ 15)) = true))
  /\ (posted (tan x) <> [] ->
        tan x = (NaN, [ToastError TanUndefinedHere])
        /\ gt (Math_abs (Math_tan x)) (of_Z (10 ^ 15)) = true)
  /\ (posted (cotan x) = [] ->
        value (cotan x) = JS.div (of_Z 1) (Math_tan x)
        /\ (Math_tan x = NaN
            \/ (le (Fin (1 # 10 ^ 15)) (Math_abs (Math_tan x)) = true
                /\ le (Math_abs (Math_tan x)) (of_Z (10 ^ 15)) = true)))
  /\ (posted (cotan x) <> [] ->
        cotan x = (NaN, [ToastError CotUndefinedHere])
        /\ (lt (Math_abs (Math_tan x)) (Fin (1 # 10 ^ 15)) = true
            \/ gt (Math_abs (Math_tan x)) (of_Z (10 ^ 15)) = true)).
Proof.
  assert (N : forall t, isNaN t = true -> t = NaN)
    by (intros [| | |q]; try discriminate; reflexivity).
  unfold tan, cotan. cbv zeta.
  destruct (gt (Math_abs (Math_tan x)) (of_Z (10 ^ 15))) eqn:G;
    destruct (lt (Math_abs (Math_tan x)) (Fin (1 # 10 ^ 15))) eqn:L;
    cbn [orb posted value fst snd bind ret toast_error app];
    (split; [|split; [|split]]); intros H;
    try discriminate H; try congruence; try (split; [reflexivity|]);
    try (left; reflexivity); try (right; reflexivity); try reflexivity.
  all: destruct (isNaN (Math_tan x)) eqn:E; [left; apply N, E | right].
  all: assert (E' : isNaN (Math_abs (Math_tan x)) = false)
         by (rewrite Math_abs_NaN; exact E).
  all: repeat split; apply not_lt_le;
    first [exact E' | exact G | exact L | reflexivity].
Qed.

End Utilities.

#[local] Existing Instance Sample.runtime.




Lemma tangent_guards_witness :
  @value number (@tan SampleMore.runtime (of_Z 2)) = of_Z 2
  /\ @tan SampleMore.runtime (of_Z (10 ^ 16))
     = (NaN, [ToastError TanUndefinedHere]).
Proof.
  destruct (@tangent_guards SampleMore.runtime (of_Z 2)) as (H1 & _).
  destruct (@tangent_guards SampleMore.runtime (of_Z (10 ^ 16)))
    as (_ & H2 & _).
  split.
  - apply H1. reflexivity.
  - apply H2. discriminate.
Defined.

End UtilityFacts.

(** *** Base conversion beyond the natural numbers *)

Module RadixFacts.

Import MathUtils JSFacts DigitsFacts Spec BaseConversionFacts.

Local Open Scope Z_scope.

(** **** Values that are not finite *)

Lemma binary_loop_infinity (fuel : nat) :
  forall acc, binary_loop fuel PosInf acc = None.
Proof.
  induction fuel as [|fuel IH]; intros acc; rewrite binary_loop_unfold;
    change (gt PosInf (of_Z 0)) with true; cbv iota; [reflexivity|].
  change (Math_floor (div PosInf (of_Z 2))) with PosInf. apply IH.
Qed.

Lemma hex_loop_infinity (fuel : nat) :
  forall acc, hex_loop fuel PosInf acc = None.
Proof.
  induction fuel as [|fuel IH]; intros acc; rewrite hex_loop_unfold;
    change (gt PosInf (of_Z 0)) with true; cbv iota; [reflexivity|].
  change (Math_floor (div PosInf (of_Z 16))) with PosInf. apply IH.
Qed.

(** X4.  [decimalToBinary] and [decimalToHex] return the empty string on
    [NaN], and on the two infinities they never return: the loop divides
    infinity by the radix for ever. *)
Theorem base_conversion_of_non_finite (fuel : nat) :
  decimalToBinary (S fuel) NaN = Some []
  /\ decimalToHex (S fuel) NaN = Some []
  /\ decimalToBinary fuel PosInf = None
  /\ decimalToHex fuel PosInf = None
  /\ decimalToBinary fuel NegInf = None
  /\ decimalToHex fuel NegInf = None.
Proof.
  assert (B : forall f, decimalToBinary f PosInf = None).
  { intros [|f]; [reflexivity|]. rewrite decimalToBinary_unfold.
    apply binary_loop_infinity. }
  assert (H : forall f, decimalToHex f PosInf = None).
  { intros [|f]; [reflexivity|]. rewrite decimalToHex_unfold.
    apply hex_loop_infinity. }
  split; [|split; [|split; [|split; [|split]]]].
  - rewrite decimalToBinary_unfold, binary_loop_unfold. reflexivity.
  - rewrite decimalToHex_unfold, hex_loop_unfold. reflexivity.
  - apply B.
  - apply H.
  - destruct fuel as [|f]; [reflexivity|]. rewrite decimalToBinary_unfold.
    change (lt NegInf (of_Z 0)) with true. cbv iota.
    change (neg NegInf) with PosInf. rewrite B. reflexivity.
  - destruct fuel as [|f]; [reflexivity|]. rewrite decimalToHex_unfold.
    change (lt NegInf (of_Z 0)) with true. cbv iota.
    change (neg NegInf) with PosInf. rewrite H. reflexivity.
Qed.

(** **** Fractions and negative numbers *)

Lemma floor_abs_floor (q : Q) :
  (0 <= q)%Q -> Qfloor (Qabs (inject_Z (Qfloor q))) = Qfloor q.
Proof.
  intros H. rewrite Qabs_pos; [apply Qfloor_Z|].
  apply (@inject_le 0). apply Qfloor_nonneg. exact H.
Qed.

(** X5.  The fractional part of a number from 1 on is dropped: the numeral is
    the one of the integer part, and reading it gives the integer part
    back, in both bases. *)
Theorem base_conversion_truncates (q : Q) (fuel : nat) :
  (1 <= q)%Q -> Qfloor q < 2 ^ Z.of_nat fuel ->
  (exists s,
      decimalToBinary (2 + fuel) (Fin q) = Some s
      /\ decimalToBinary (2 + fuel) (of_Z (Qfloor q)) = Some s
      /\ binaryToDecimal s = (of_Z (Qfloor q), []))
  /\ (exists s,
        decimalToHex (2 + fuel) (Fin q) = Some s
        /\ decimalToHex (2 + fuel) (of_Z (Qfloor q)) = Some s
        /\ hexToDecimal s = (of_Z (Qfloor q), [])).
Proof.
  intros Hq Hb.
  assert (H0 : (0 <= q)%Q) by (apply Qle_trans with 1%Q; [discriminate|exact Hq]).
  assert (Hf : 1 <= Qfloor q) by (apply (Qfloor_resp_le 1 q Hq)).
  assert (A : Qfloor (Qabs q) = Qfloor q) by (rewrite Qabs_pos; auto).
  assert (A' : Qfloor (Qabs (inject_Z (Qfloor q))) = Qfloor q)
    by (apply floor_abs_floor; exact H0).
  assert (E : Qeq_bool q 0 = false).
  { apply Qeq_bool_false_iff. intros H. rewrite H in Hq.
    apply Qle_not_lt in Hq. apply Hq. reflexivity. }
  assert (L : Qlt_bool q 0 = false) by (apply Qlt_bool_false_iff; exact H0).
  assert (E' : Qeq_bool (inject_Z (Qfloor q)) 0 = false)
    by (apply inject_nonzero; lia).
  assert (L' : Qlt_bool (inject_Z (Qfloor q)) 0 = false)
    by (apply Qlt_bool_false_iff, (@inject_le 0); lia).
  change (2 + fuel)%nat with (S (S fuel)).
  assert (B1 : decimalToBinary (S (S fuel)) (Fin q)
               = Some (binary_numeral (Qfloor q))).
  { rewrite decimalToBinary_finite by (rewrite A; exact Hb).
    unfold signed_numeral. rewrite E, L, A. reflexivity. }
  assert (B2 : decimalToBinary (S (S fuel)) (of_Z (Qfloor q))
               = Some (binary_numeral (Qfloor q))).
  { unfold of_Z. rewrite decimalToBinary_finite by (rewrite A'; exact Hb).
    unfold signed_numeral. rewrite E', L', A'. reflexivity. }
  assert (H1 : decimalToHex (S (S fuel)) (Fin q)
               = Some (hex_numeral (Qfloor q))).
  { rewrite decimalToHex_finite by (rewrite A; exact Hb).
    unfold signed_numeral. rewrite E, L, A. reflexivity. }
  assert (H2 : decimalToHex (S (S fuel)) (of_Z (Qfloor q))
               = Some (hex_numeral (Qfloor q))).
  { unfold of_Z. rewrite decimalToHex_finite by (rewrite A'; exact Hb).
    unfold signed_numeral. rewrite E', L', A'. reflexivity. }
  rewrite B1, B2, H1, H2.
  split; eexists; (split; [reflexivity|]); (split; [reflexivity|]).
  - destruct (@numeral_read_back 2 digit_char is_binary_digit (Qfloor q))
      as [Ht Hp]; [lia|apply binary_char_value|lia|].
    unfold binaryToDecimal, binary_numeral. rewrite Ht, Hp. reflexivity.
  - destruct (@numeral_read_back 16 hex_char is_hex_digit (Qfloor q))
      as [Ht Hp]; [lia|apply hex_char_value|lia|].
    unfold hexToDecimal, hex_numeral. rewrite Ht, Hp. reflexivity.
Qed.

(** X6.  A negative number is written as a minus sign before what its
    opposite is written as, and the readers reject the sign: converting a
    negative number and reading the result back reports an invalid
    numeral and gives [NaN]. *)
Theorem negative_numbers_do_not_round_trip (q : Q) (fuel : nat) :
  (q < 0)%Q -> Qfloor (- q) < 2 ^ Z.of_nat fuel ->
  (exists s,
      decimalToBinary (2 + fuel) (Fin (- q)) = Some s
      /\ decimalToBinary (2 + fuel) (Fin q) = Some (chr "-" :: s)
      /\ binaryToDecimal (chr "-" :: s) = (NaN, [ToastError InvalidBinary]))
  /\ (exists s,
        decimalToHex (2 + fuel) (Fin (- q)) = Some s
        /\ decimalToHex (2 + fuel) (Fin q) = Some (chr "-" :: s)
        /\ hexToDecimal (chr "-" :: s) = (NaN, [ToastError InvalidHex])).
Proof.
  intros Hq Hb.
  assert (Hpos : (0 < - q)%Q) by (apply (Qopp_lt_compat q 0); exact Hq).
  assert (A : Qfloor (Qabs q) = Qfloor (- q))
    by (rewrite Qabs_neg by (apply Qlt_le_weak, Hq); reflexivity).
  assert (A' : Qfloor (Qabs (- q)) = Qfloor (- q))
    by (rewrite Qabs_opp; exact A).
  assert (E : Qeq_bool q 0 = false).
  { apply Qeq_bool_false_iff. intros H. rewrite H in Hq.
    exact (Qlt_irrefl _ Hq). }
  assert (L : Qlt_bool q 0 = true) by (apply Qlt_bool_iff; exact Hq).
  assert (E' : Qeq_bool (- q) 0 = false).
  { apply Qeq_bool_false_iff. intros H. rewrite H in Hpos.
    exact (Qlt_irrefl _ Hpos). }
  assert (L' : Qlt_bool (- q) 0 = false)
    by (apply Qlt_bool_false_iff, Qlt_le_weak, Hpos).
  change (2 + fuel)%nat with (S (S fuel)).
  rewrite !decimalToBinary_finite, !decimalToHex_finite
    by (rewrite ?A, ?A'; exact Hb).
  unfold signed_numeral. rewrite E, L, E', L', A, A'. cbn [app].
  split; eexists; (split; [reflexivity|]); (split; [reflexivity|]);
    reflexivity.
Qed.

(** **** What the readers accept *)

Lemma match_star_to_end (p : codeunit -> bool) (s : jsstring) :
  Regex.match_star p s []
    (fun rest _ => match rest with [] => Some tt | _ => None end) <> None ->
  forallb p s = true.
Proof.
  induction s as [|c s IH]; [reflexivity|]. simpl.
  destruct (p c); [|congruence]. intros H. apply IH.
  destruct (Regex.match_star p s [] _); congruence.
Qed.

Lemma test_plus_only (p : codeunit -> bool) (s : jsstring) :
  Regex.test_anchored (Regex.Plus p) s = true ->
  s <> [] /\ forallb p s = true.
Proof.
  unfold Regex.test_anchored. destruct s as [|c s]; [discriminate|].
  simpl. destruct (p c); [|discriminate]. intros H.
  split; [discriminate|]. apply match_star_to_end.
  destruct (Regex.match_star p s [] _); congruence.
Qed.

Lemma binary_digit_radix (c : codeunit) :
  is_binary_digit c = true ->
  is_radix_digit 2 c = true
  /\ digit_char (match digit_value c with Some d => d | None => 0 end) = c.
Proof.
  unfold is_binary_digit. intros H. apply orb_true_iff in H.
  destruct H as [H|H]; apply N.eqb_eq in H; subst c; split; reflexivity.
Qed.

Lemma hex_digit_radix (c : codeunit) :
  is_hex_digit c = true ->
  is_radix_digit 16 c = true
  /\ hex_char (match digit_value c with Some d => d | None => 0 end)
     = upper_hex c
  /\ (cu_eqb c (chr "0") = false ->
      0 < match digit_value c with Some d => d | None => 0 end).
Proof.
  intros H.
  assert (E : (c = 48 \/ c = 49 \/ c = 50 \/ c = 51 \/ c = 52 \/ c = 53
               \/ c = 54 \/ c = 55 \/ c = 56 \/ c = 57
               \/ c = 65 \/ c = 66 \/ c = 67 \/ c = 68 \/ c = 69 \/ c = 70
               \/ c = 97 \/ c = 98 \/ c = 99 \/ c = 100 \/ c = 101
               \/ c = 102)%N).
  { unfold is_hex_digit, in_range in H.
    repeat match type of H with
           | context [N.leb ?a ?b] => destruct (N.leb_spec a b)
           end; simpl in H; try discriminate H; lia. }
  repeat (destruct E as [-> | E];
          [split; [reflexivity|split; [reflexivity|]];
           intros F; (discriminate F || reflexivity)|]).
  subst c. split; [reflexivity|split; [reflexivity|]]. reflexivity.
Qed.

Lemma radix_digit_value (r : Z) (c : codeunit) :
  is_radix_digit r c = true ->
  0 <= match digit_value c with Some d => d | None => 0 end < r.
Proof.
  unfold is_radix_digit, digit_value.
  repeat match goal with
         | |- context [in_range ?a ?b ?c] =>
             let E := fresh "E" in destruct (in_range a b c) eqn:E
         end; try discriminate; intros Hlt; apply Z.ltb_lt in Hlt;
    unfold in_range in *;
    repeat match goal with
           | H : (_ && _)%bool = true |- _ =>
               apply andb_true_iff in H; destruct H
           | H : N.leb _ _ = true |- _ => apply N.leb_le in H
           end; lia.
Qed.

Lemma positional_value_bound (r : Z) (s : jsstring) :
  2 <= r -> forallb (is_radix_digit r) s = true ->
  0 <= positional_value r s < r ^ Z.of_nat (List.length s).
Proof.
  intros Hr. induction s as [|c s IH] using rev_ind; intros Hs.
  - simpl. unfold positional_value. simpl. lia.
  - rewrite forallb_app in Hs. apply andb_true_iff in Hs.
    destruct Hs as [Hs Hc]. simpl in Hc. rewrite andb_true_r in Hc.
    specialize (IH Hs). pose proof (radix_digit_value r c Hc) as Hd.
    rewrite positional_value_snoc, length_app. simpl List.length.
    rewrite Nat2Z.inj_add, Z.pow_add_r by lia.
    change (r ^ Z.of_nat 1) with (r ^ 1). rewrite Z.pow_1_r. nia.
Qed.


(** **** Reading, then writing *)

(** The digits of the value of a numeral that starts with a digit other
    than zero are the digits of the numeral. *)
Lemma digits_of_positional_value (r : Z) (c : codeunit) (s : jsstring) :
  2 <= r ->
  is_radix_digit r c = true ->
  0 < match digit_value c with Some d => d | None => 0 end ->
  forallb (is_radix_digit r) s = true ->
  digits_of r (positional_value r (c :: s))
  = List.map (fun x => match digit_value x with Some d => d | None => 0 end)
             (c :: s).
Proof.
  intros Hr Hc Hpos. pose proof (radix_digit_value r c Hc) as Hd.
  induction s as [|x s IH] using rev_ind; intros Hs.
  - change (positional_value r [c])
      with (0 * r + match digit_value c with Some d => d | None => 0 end).
    rewrite digits_of_snoc by lia.
    rewrite digits_of_nonpos by lia. reflexivity.
  - rewrite forallb_app in Hs. apply andb_true_iff in Hs.
    destruct Hs as [Hs Hx]. simpl in Hx. rewrite andb_true_r in Hx.
    specialize (IH Hs). pose proof (radix_digit_value r x Hx) as Hdx.
    change (c :: s ++ [x]) with ((c :: s) ++ [x]).
    rewrite positional_value_snoc, map_app.
    assert (Hall : forallb (is_radix_digit r) (c :: s) = true)
      by (simpl; rewrite Hc; exact Hs).
    pose proof (positional_value_bound (c :: s) Hr Hall) as Hb.
    assert (Hp : 0 < positional_value r (c :: s)).
    { destruct (Z.eq_dec (positional_value r (c :: s)) 0) as [E|E]; [|lia].
      rewrite E, digits_of_nonpos in IH by lia. discriminate IH. }
    rewrite digits_of_snoc by nia. rewrite IH. reflexivity.
Qed.

Lemma pow16 (n : nat) : 16 ^ Z.of_nat n = 2 ^ Z.of_nat (4 * n).
Proof.
  rewrite Nat2Z.inj_mul, Z.pow_mul_r by lia. reflexivity.
Qed.


Lemma base_conversion_truncates_witness :
  exists s,
    decimalToBinary 10 (Fin (11 # 2)) = Some s
    /\ decimalToBinary 10 (of_Z 5) = Some s
    /\ binaryToDecimal s = (of_Z 5, []).
Proof.
  assert (H1 : (1 <= 11 # 2)%Q) by discriminate.
  assert (H2 : Qfloor (11 # 2) < 2 ^ Z.of_nat 8) by reflexivity.
  destruct (@base_conversion_truncates (11 # 2) 8 H1 H2) as [H _].
  exact H.
Defined.

Lemma negative_numbers_do_not_round_trip_witness :
  exists s,
    decimalToHex 10 (Fin (- (-255 # 1))) = Some s
    /\ decimalToHex 10 (Fin (-255 # 1)) = Some (chr "-" :: s)
    /\ hexToDecimal (chr "-" :: s) = (NaN, [ToastError InvalidHex]).
Proof.
  assert (H1 : (-255 # 1 < 0)%Q) by reflexivity.
  assert (H2 : Qfloor (- (-255 # 1)) < 2 ^ Z.of_nat 8) by reflexivity.
  destruct (@negative_numbers_do_not_round_trip (-255 # 1) 8 H1 H2)
    as [_ H].
  exact H.
Defined.



End RadixFacts.

(** *** The converters *)

Module ConverterFacts.

Import Converters JSFacts.

Lemma le_zero (q : Q) : le (Fin q) (of_Z 0) = Qle_bool q 0.
Proof. reflexivity. Qed.

Lemma Qle_bool_false_iff (x y : Q) : Qle_bool x y = false <-> y < x.
Proof.
  split.
  - intros H. apply Qnot_le_lt. intros Hle. apply Qle_bool_iff in Hle.
    congruence.
  - intros H. destruct (Qle_bool x y) eqn:E; [|reflexivity].
    apply Qle_bool_iff in E. exfalso. exact (Qlt_not_le _ _ H E).
Qed.

(** **** Temperature *)


(** **** Body mass index *)


(** **** Currency *)





End ConverterFacts.

(* ================================================================== *)
(** ** Part X: more of the AdvancedCalculator component                *)
(* ================================================================== *)

(** *** Numbers are never printed as the empty string *)

Module PrintFacts.

Import JSFacts DigitsFacts ToStringFacts Calculator.

Local Open Scope Z_scope.

Lemma scale_to_integer_counts (fuel : nat) :
  forall (x : Q) (f m f' : Z),
    scale_to_integer fuel x f = (m, f') -> f <= f'.
Proof.
  induction fuel as [|fuel IH]; intros x f m f' H.
  - simpl in H. injection H as _ <-. lia.
  - rewrite scale_to_integer_unfold in H.
    destruct (Qeq_bool x (inject_Z (Qfloor x))).
    + injection H as _ <-. lia.
    + apply IH in H. lia.
Qed.

Lemma scale_to_integer_start (fuel : nat) (x : Q) (f m f' : Z) :
  scale_to_integer (S fuel) x f = (m, f') ->
  (f' = f /\ (x == inject_Z m)%Q) \/ f < f'.
Proof.
  rewrite scale_to_integer_unfold.
  destruct (Qeq_bool x (inject_Z (Qfloor x))) eqn:E; intros H.
  - injection H as <- <-. left. split; [reflexivity|].
    apply Qeq_bool_iff. exact E.
  - apply scale_to_integer_counts in H. right. lia.
Qed.

Lemma strip_zeros_positive (fuel : nat) :
  forall m e s e', strip_zeros fuel m e = (s, e') -> 0 < m -> 0 < s.
Proof.
  induction fuel as [|fuel IH]; intros m e s e' H Hm.
  - simpl in H. injection H as <- _. exact Hm.
  - rewrite strip_zeros_unfold in H.
    destruct ((0 <? m) && (m mod 10 =? 0))%bool eqn:G.
    + apply andb_true_iff in G. destruct G as [_ G].
      apply Z.eqb_eq in G. apply (IH _ _ _ _ H).
      apply Z.div_str_pos. pose proof (Z.div_mod m 10 ltac:(lia)). lia.
    + injection H as <- _. exact Hm.
Qed.

Lemma strip_zeros_nonpos (fuel : nat) (m e : Z) :
  m <= 0 -> strip_zeros fuel m e = (m, e).
Proof.
  intros H. destruct fuel as [|fuel]; [reflexivity|].
  rewrite strip_zeros_unfold.
  assert (G : (0 <? m) = false) by (apply Z.ltb_ge; exact H).
  rewrite G. reflexivity.
Qed.

Lemma positive_toString_nonempty (x : Q) :
  (0 < x)%Q -> positive_toString x <> [].
Proof.
  intros Hx. unfold positive_toString.
  destruct (shortest_decimal x) as [s e] eqn:Hsd.
  cbv zeta.
  set (ds := decimal_digits s).
  set (k := Z.of_nat (List.length ds)).
  destruct ((k <=? k + e) && (k + e <=? 21))%bool eqn:B1.
  - unfold shortest_decimal in Hsd.
    destruct (scale_to_integer MAX_FRACTION_DIGITS x 0) as [m f] eqn:Hsc.
    destruct (Z_lt_le_dec 0 m) as [Hm|Hm].
    + pose proof (@strip_zeros_positive _ _ _ _ _ Hsd Hm) as Hs.
      intros E. apply app_eq_nil in E. destruct E as [E _].
      revert E. apply decimal_digits_nonempty. exact Hs.
    + rewrite strip_zeros_nonpos in Hsd by exact Hm.
      injection Hsd as <- <-.
      apply scale_to_integer_start in Hsc.
      destruct Hsc as [[-> Hxm]|Hf].
      * exfalso. rewrite Hxm in Hx. apply inject_Z_lt in Hx. lia.
      * exfalso. apply andb_true_iff in B1. destruct B1 as [B1 _].
        apply Z.leb_le in B1. lia.
  - destruct ((0 <? k + e) && (k + e <=? 21))%bool.
    + intros E. apply app_eq_nil in E. destruct E as [_ E]. discriminate E.
    + destruct ((-6 <? k + e) && (k + e <=? 0))%bool; [discriminate|].
      intros E. apply app_eq_nil in E. destruct E as [_ E]. discriminate E.
Qed.

Lemma Number_toString_nonempty (a : number) : Number_toString a <> [].
Proof.
  destruct a as [| | |x]; try discriminate. unfold Number_toString.
  destruct (Qeq_bool x 0) eqn:E; [discriminate|].
  destruct (Qlt_bool x 0) eqn:L; [discriminate|].
  apply positive_toString_nonempty.
  apply Qlt_bool_false_iff in L. apply Qeq_bool_false_iff in E.
  apply Qle_lteq in L. destruct L as [L|L]; [exact L|].
  exfalso. apply E. symmetry. exact L.
Qed.

Lemma formatNumber_nonempty (a : number) : formatNumber a <> [].
Proof.
  unfold formatNumber.
  destruct (negb (isFinite a) || isNaN a)%bool; [discriminate|].
  destruct (lt _ _); apply Number_toString_nonempty.
Qed.

End PrintFacts.

(** *** The state machine *)

Module MachineFacts.

Import Calculator Spec Display CalculatorFacts.

Section Machine.

Context {RT : Runtime}.

(** Every branch of every handler, one goal each. *)
Ltac handlers :=
  unfold calculateTrigFunction, handleFactorial, handleFactorial_with,
         handleSquareRoot, handleReciprocal, handlePower, handleExp,
         handleInsertPi, handleInsertE, insert_token, handleEquals,
         handleBackspace, handleClear, toggleAngleMode, show,
         calculation_error;
  repeat match goal with
         | |- context [evaluateExpressionValue ?e] =>
             destruct (evaluateExpressionValue e)
         | |- context [MathUtils.factorial ?d ?v] =>
             destruct (MathUtils.factorial d v)
         | |- context [if ?b then _ else _] => destruct b eqn:?
         end;
  cbn [input result lastExpression angleMode justComputed
       setInput setResult setLastExpression setAngleMode setJustComputed].

(** What a reachable state looks like: without a result it is an editing
    state; with one it is a computed state, the result is not empty, and
    it is an error marker or else the text that became the input. *)
Lemma computed_shape (st : CalculatorState) :
  reachable st ->
  match result st with
  | None => justComputed st = false
  | Some r =>
      justComputed st = true /\ r <> []
      /\ (input st = r \/ In r markers)
  end.
Proof.
  assert (M : forall (r : jsstring) (i : jsstring),
             In r markers ->
             true = true /\ r <> [] /\ (i = r \/ In r markers)).
  { intros r i Hr. split; [reflexivity|]. split; [|right; exact Hr].
    simpl in Hr. intuition (subst r; discriminate). }
  assert (F : forall a : number,
             true = true /\ formatNumber a <> []
             /\ (formatNumber a = formatNumber a
                 \/ In (formatNumber a) markers)).
  { intros a. split; [reflexivity|].
    split; [apply PrintFacts.formatNumber_nonempty | left; reflexivity]. }
  assert (N : forall a : number,
             true = true /\ Number_toString a <> []
             /\ (Number_toString a = Number_toString a
                 \/ In (Number_toString a) markers)).
  { intros a. split; [reflexivity|].
    split; [apply PrintFacts.Number_toString_nonempty | left; reflexivity]. }
  induction 1 as [|ev st Hr IH]; [reflexivity|].
  destruct ev; simpl step;
    try (rewrite handleInput_cases;
         destruct (justComputed st), (is_operator value), (is_symbol value);
         reflexivity);
    handlers;
    try reflexivity; try apply F; try apply N;
    try (apply M; simpl; tauto);
    try exact IH;
    try (destruct (result st) as [r|]; [destruct IH; congruence | assumption]).
Qed.

Lemma display_shape_aux (st : CalculatorState) :
  reachable st -> justComputed st = true ->
  exists r, result st = Some r /\ result_line st = r.
Proof.
  intros Hr Hj. pose proof (computed_shape Hr) as Hs.
  unfold result_line. destruct (result st) as [r|]; [|congruence].
  destruct Hs as (_ & Hne & _). exists r. split; [reflexivity|].
  rewrite Hj. destruct r; [congruence | reflexivity].
Qed.

(** **** The display *)

(** X13.  In every reachable state the result line is not empty.  In a
    computed state it shows the result, which is an error marker or else
    the text that became the input; in an editing state it shows the
    input, or [0] while the input is empty, and the expression line is
    empty whatever [lastExpression] still holds. *)
Theorem display_lines (st : CalculatorState) :
  reachable st ->
  result_line st <> []
  /\ (justComputed st = true ->
      result st = Some (result_line st)
      /\ (input st = result_line st \/ In (result_line st) markers))
  /\ (justComputed st = false ->
      expression_line st = []
      /\ result_line st = match input st with
                          | [] => str "0"
                          | _ => input st
                          end).
Proof.
  intros Hr. pose proof (computed_shape Hr) as Hs.
  unfold result_line, expression_line.
  destruct (result st) as [r|] eqn:R.
  - destruct Hs as (Hj & Hne & Hin). rewrite Hj.
    destruct r as [|c r]; [congruence|]. cbn [truthy text_of andb].
    split; [discriminate|]. split; [intros _; split; [reflexivity|exact Hin]|].
    discriminate.
  - rewrite Hs. cbn [andb]. split; [|split].
    + destruct (input st); discriminate.
    + discriminate.
    + intros _. split; reflexivity.
Qed.

(** X14.  An operator typed after a computation continues from what the result
    line shows, whatever it is: a number, or the text of an error
    marker. *)
Theorem operator_continues_from_display (st : CalculatorState)
    (op : codeunit) :
  reachable st -> justComputed st = true -> is_operator_char op = true ->
  let st' := step (Input [op]) st in
  input st' = result_line st ++ [op]
  /\ result st' = None
  /\ justComputed st' = false
  /\ result_line st' = result_line st ++ [op].
Proof.
  intros Hr Hj Hop. cbv zeta.
  destruct (display_shape_aux Hr Hj) as [r [R Hl]].
  simpl step. rewrite handleInput_cases, Hj.
  assert (O : is_operator [op] = true) by (unfold is_operator; exact Hop).
  rewrite O, R, Hl. cbn [input result justComputed].
  split; [reflexivity|]. split; [reflexivity|]. split; [reflexivity|].
  unfold result_line. cbn [input result justComputed andb].
  destruct (r ++ [op]) eqn:E; [|reflexivity].
  apply app_eq_nil in E. destruct E as [_ E]. discriminate E.
Qed.

(** **** The angle mode *)

Lemma angleMode_step (ev : event) (st : CalculatorState) :
  angleMode (step ev st)
  = if is_toggle ev then other_mode (angleMode st) else angleMode st.
Proof.
  destruct ev; cbn [is_toggle]; simpl step;
    try (rewrite handleInput_cases;
         destruct (justComputed st), (is_operator value), (is_symbol value);
         reflexivity);
    handlers; try reflexivity; congruence.
Qed.

(** X15.  Only the toggle changes the angle mode, and it changes nothing else:
    after any sequence of events the mode is the one at the start if the
    toggle was pressed an even number of times, and the other one if
    not. *)
Theorem angle_mode_follows_toggles (evs : list event) (st : CalculatorState) :
  angleMode (run evs st)
  = (if Nat.even (List.length (filter is_toggle evs))
     then angleMode st else other_mode (angleMode st))
  /\ input (step ToggleAngleMode st) = input st
  /\ result (step ToggleAngleMode st) = result st
  /\ lastExpression (step ToggleAngleMode st) = lastExpression st
  /\ justComputed (step ToggleAngleMode st) = justComputed st.
Proof.
  split; [|repeat split].
  revert st. induction evs as [|ev evs IH]; intros st; [reflexivity|].
  change (run (ev :: evs) st) with (run evs (step ev st)).
  rewrite IH, angleMode_step. cbn [filter].
  destruct (is_toggle ev); [|reflexivity].
  cbn [List.length]. rewrite Nat.even_succ, <- Nat.negb_even.
  destruct (Nat.even (List.length (filter is_toggle evs)));
    destruct (angleMode st); reflexivity.
Qed.

(** **** Clear and backspace *)

(** X16.  [C] returns to the initial state, keeping only the angle mode, and
    backspace in a computed state does the same.  In an editing state
    backspace removes the last code unit of the input and nothing else: on
    an empty input it changes nothing, and in a reachable editing state
    it undoes the typing of a character. *)
Theorem clear_and_backspace (st : CalculatorState) :
  step Clear st = setAngleMode (angleMode st) initial
  /\ (justComputed st = true -> step Backspace st = step Clear st)
  /\ (justComputed st = false -> input st = [] -> step Backspace st = st)
  /\ (reachable st -> justComputed st = false ->
      forall c : codeunit, step Backspace (step (Input [c]) st) = st).
Proof.
  split; [reflexivity|]. split; [|split].
  - intros Hj. simpl step. unfold handleBackspace. rewrite Hj. reflexivity.
  - intros Hj Hi. simpl step. unfold handleBackspace. rewrite Hj, Hi.
    destruct st; simpl in *. subst. reflexivity.
  - intros Hr Hj c. pose proof (computed_shape Hr) as Hs.
    assert (R : result st = None).
    { destruct (result st); [destruct Hs; congruence | reflexivity]. }
    simpl step. rewrite handleInput_cases, Hj.
    unfold handleBackspace. cbn [justComputed input setInput result
                                 lastExpression angleMode].
    unfold slice_drop_last. rewrite removelast_last.
    destruct st; simpl in *. subst. reflexivity.
Qed.

(** **** The factorial button and the call stack *)


(** **** Functions outside their domain *)

(** X18.  A function button never shows an error marker for a value outside
    the domain of its function: the result is printed like any other, as
    [NaN], and [NaN] becomes the input.  So it is for the square root of a
    negative value, for the tangent where it exceeds the bound of the
    utility, and for the cotangent where the tangent is zero. *)
Theorem out_of_domain_shows_NaN (st : CalculatorState) (v : number) :
  evaluateExpressionValue (input st) = Some v ->
  let angle := match angleMode st with
               | deg => div (mul v Math_PI) (of_Z 180)
               | rad => v
               end in
  let degree := match angleMode st with
                | deg => [DEGREE_SIGN]
                | rad => []
                end in
  (lt v (of_Z 0) = true ->
     step SquareRoot st
     = show (SQUARE_ROOT_SIGN :: chr "(" :: input st ++ str ")")
            (str "NaN") st)
  /\ (gt (Math_abs (Math_tan angle)) (of_Z (10 ^ 15)) = true ->
        step Tan st
        = show (str "tan" ++ chr "(" :: input st ++ degree ++ str ")")
               (str "NaN") st)
  /\ (Math_tan angle = of_Z 0 ->
        step Cot st
        = show (str "cot" ++ chr "(" :: input st ++ degree ++ str ")")
               (str "NaN") st)
  /\ (forall label,
        input (show label (str "NaN") st) = str "NaN"
        /\ result (show label (str "NaN") st) = Some (str "NaN")
        /\ lastExpression (show label (str "NaN") st) = Some label
        /\ justComputed (show label (str "NaN") st) = true).
Proof.
  intros E angle degree. split; [|split; [|split; [|repeat split]]].
  - intros Hneg. simpl step. unfold handleSquareRoot. rewrite E.
    unfold MathUtils.squareRoot. rewrite Hneg. reflexivity.
  - intros Hbig. simpl step. unfold calculateTrigFunction. rewrite E.
    fold angle. fold degree. unfold MathUtils.tan. rewrite Hbig. reflexivity.
  - intros Hzero. simpl step. unfold calculateTrigFunction. rewrite E.
    fold angle. fold degree. unfold MathUtils.tan. rewrite Hzero.
    reflexivity.
Qed.

End Machine.

#[local] Existing Instance Sample.runtime.

Lemma display_lines_witness :
  let st := run [Input (str "2"); Input (str "+"); Input (str "2"); Equals]
                initial in
  result_line st <> [] /\ result st = Some (result_line st).
Proof.
  cbv zeta.
  destruct (@display_lines Sample.runtime _
              (run_reachable [Input (str "2"); Input (str "+");
                              Input (str "2"); Equals]))
    as (H1 & H2 & _).
  split; [exact H1|]. apply H2. reflexivity.
Defined.

Lemma operator_continues_from_display_witness :
  let st := run [Input (str "2"); Input (str "+"); Equals] initial in
  result_line st = MSG_ERROR
  /\ input (step (Input (str "*")) st) = MSG_ERROR ++ str "*".
Proof.
  cbv zeta. split; [reflexivity|].
  apply (@operator_continues_from_display Sample.runtime _ (chr "*")
           (run_reachable [Input (str "2"); Input (str "+"); Equals])
           eq_refl eq_refl).
Defined.

Lemma clear_and_backspace_witness :
  let st := run [Input (str "2"); Input (str "+")] initial in
  step Backspace (step (Input (str "3")) st) = st.
Proof.
  cbv zeta.
  destruct (@clear_and_backspace Sample.runtime
              (run [Input (str "2"); Input (str "+")] initial))
    as (_ & _ & _ & H).
  apply (H (run_reachable [Input (str "2"); Input (str "+")]) eq_refl
           (chr "3")).
Defined.


Lemma out_of_domain_shows_NaN_witness :
  let st := @run SampleMore.runtime [Input (str "-"); Input (str "4")]
              initial in
  @step SampleMore.runtime SquareRoot st
  = show (SQUARE_ROOT_SIGN :: str "(-4)") (str "NaN") st.
Proof.
  cbv zeta.
  destruct (@out_of_domain_shows_NaN SampleMore.runtime
              (@run SampleMore.runtime [Input (str "-"); Input (str "4")]
                 initial)
              (of_Z (-4)) eq_refl) as (H & _).
  apply H. reflexivity.
Defined.

End MachineFacts.

(** *** More on the pre-processor of expressions *)

Module SanitizeMoreFacts.

Import Regex StringFacts Calculator SanitizeFacts.

(** **** White space inside the patterns *)

Lemma space_facts (c : codeunit) :
  is_space c = true ->
  cu_eqb MULTIPLICATION_SIGN c = false /\ cu_eqb DIVISION_SIGN c = false
  /\ cu_eqb SUPERSCRIPT_TWO c = false /\ is_digit c = false.
Proof. intros H. repeat split; cu_cases. Qed.

Lemma glyphs_keep_spaces (ws s : jsstring) :
  forallb is_space ws = true ->
  square_pass (glyph_pass (ws ++ s)) = ws ++ square_pass (glyph_pass s).
Proof.
  induction ws as [|x ws IH]; intros H; [reflexivity|].
  simpl in H. apply andb_true_iff in H. destruct H as [Hx Hws].
  destruct (space_facts x Hx) as (H1 & H2 & H3 & _).
  cbn [app]. rewrite (glyphs_keep_head x _ H1 H2 H3), (IH Hws).
  reflexivity.
Qed.

Lemma implicit_mul_skip_spaces (ws s : jsstring) :
  forallb is_space ws = true ->
  implicit_mul_pass (ws ++ s) = ws ++ implicit_mul_pass s.
Proof.
  induction ws as [|x ws IH]; intros H; [reflexivity|].
  simpl in H. apply andb_true_iff in H. destruct H as [Hx Hws].
  destruct (space_facts x Hx) as (_ & _ & _ & Hd).
  cbn [app]. rewrite (implicit_mul_skip x _ Hd), (IH Hws). reflexivity.
Qed.

Lemma implicit_mul_match_spaces (d c : codeunit) (ws s : jsstring) :
  is_digit d = true -> forallb is_space ws = true -> is_mul_rhs c = true ->
  implicit_mul_pass (d :: ws ++ c :: s)
  = d :: chr "*" :: c :: implicit_mul_pass s.
Proof.
  intros Hd Hws Hc. destruct (mul_rhs_is_plain c Hc) as (Hs & _).
  unfold implicit_mul_pass.
  replace (d :: ws ++ c :: s) with ((d :: ws ++ [c]) ++ s)
    by (cbn [app]; rewrite <- app_assoc; reflexivity).
  rewrite (@replace_all_match _ _ d (ws ++ [c]) s
             [(2%nat, [c]); (1%nat, [d])]).
  - reflexivity.
  - cbn [app]. rewrite <- app_assoc. cbn [app].
    rewrite exec_implicit_mul, Hd.
    destruct (@take_while_stop is_space ws c s Hws Hs) as [-> ->].
    rewrite Hc. reflexivity.
Qed.

Lemma paren_match_spaces (ws s : jsstring) :
  forallb is_space ws = true ->
  paren_pass (chr ")" :: ws ++ chr "(" :: s) = str ")*(" ++ paren_pass s.
Proof.
  intros Hws. unfold paren_pass.
  replace (chr ")" :: ws ++ chr "(" :: s)
    with ((chr ")" :: ws ++ [chr "("]) ++ s)
    by (cbn [app]; rewrite <- app_assoc; reflexivity).
  rewrite (@replace_all_match _ _ (chr ")") (ws ++ [chr "("]) s []).
  - reflexivity.
  - cbn [app]. rewrite <- app_assoc. cbn [app].
    rewrite exec_paren_paren.
    change (cu_eqb (chr ")") (chr ")")) with true. cbv iota.
    destruct (@take_while_stop is_space ws (chr "(") s Hws eq_refl)
      as [-> ->].
    reflexivity.
Qed.

(** X19.  The two rules of implicit multiplication also apply across white
    space, which they remove: a digit, any white space, and a letter, pi
    or opening parenthesis become the digit, [*] and the operand; a
    closing parenthesis, any white space and an opening one become
    [)*(].  What stands to the left and to the right is processed as it
    would be on its own. *)
Theorem implicit_multiplication_across_spaces (u ws v : jsstring) :
  forallb is_space ws = true ->
  (forall d c : codeunit,
      is_digit d = true -> is_mul_rhs c = true ->
      sanitizeExpressionForEval (u ++ d :: ws ++ c :: v)
      = sanitizeExpressionForEval u
        ++ d :: chr "*" :: sanitizeExpressionForEval (c :: v))
  /\ sanitizeExpressionForEval (u ++ chr ")" :: ws ++ chr "(" :: v)
     = sanitizeExpressionForEval u
       ++ str ")*(" ++ sanitizeExpressionForEval v.
Proof.
  intros Hws. split.
  - intros d c Hd Hc.
    rewrite <- (@sanitize_digit_then_operand u v d c Hd Hc).
    rewrite !sanitize_pipeline. do 3 f_equal.
    destruct (digit_facts d Hd)
      as ((Hd1 & Hd2 & Hd3 & Hd4) & Hds & Hdr & Hdc & Hdo).
    destruct (mul_rhs_is_plain c Hc)
      as (Hcs & Hcd & Hcc & Hcp & Hcq & Hc1 & Hc2 & Hc3).
    rewrite (glyphs_keep d u (ws ++ c :: v) Hd1 Hd2 Hd3).
    rewrite (@glyphs_keep_spaces ws _ Hws).
    rewrite (glyphs_keep d u (c :: v) Hd1 Hd2 Hd3).
    rewrite (glyphs_keep_head c v Hc1 Hc2 Hc3).
    set (X := square_pass (glyph_pass u)).
    set (Y := square_pass (glyph_pass v)).
    rewrite (implicit_mul_app X d (ws ++ c :: Y) Hds Hdr).
    rewrite (implicit_mul_app X d (c :: Y) Hds Hdr).
    rewrite (@implicit_mul_match_spaces d c ws Y Hd Hws Hc).
    rewrite (implicit_mul_match d c Y Hd Hc). reflexivity.
  - rewrite <- (sanitize_paren_paren u v).
    rewrite !sanitize_pipeline. do 2 f_equal.
    rewrite (glyphs_keep (chr ")") u (ws ++ chr "(" :: v)
               eq_refl eq_refl eq_refl).
    rewrite (@glyphs_keep_spaces ws _ Hws).
    rewrite (glyphs_keep (chr ")") u (chr "(" :: v) eq_refl eq_refl eq_refl).
    rewrite (glyphs_keep_head (chr "(") v eq_refl eq_refl eq_refl).
    set (X := square_pass (glyph_pass u)).
    set (Y := square_pass (glyph_pass v)).
    rewrite (implicit_mul_app X (chr ")") (ws ++ chr "(" :: Y)
               eq_refl eq_refl).
    rewrite (implicit_mul_app X (chr ")") (chr "(" :: Y) eq_refl eq_refl).
    rewrite !(implicit_mul_skip (chr ")") _ eq_refl).
    rewrite (@implicit_mul_skip_spaces ws _ Hws).
    rewrite (implicit_mul_skip (chr "(") _ eq_refl).
    set (A := implicit_mul_pass X). set (B := implicit_mul_pass Y).
    rewrite (paren_app A (chr ")") (ws ++ chr "(" :: B) eq_refl eq_refl).
    rewrite (paren_app A (chr ")") (chr "(" :: B) eq_refl eq_refl).
    rewrite (@paren_match_spaces ws B Hws), paren_match. reflexivity.
Qed.

(** **** Expressions the pre-processor leaves alone *)

Lemma drop_while_incl (p : codeunit -> bool) (s : jsstring) :
  incl (drop_while p s) s.
Proof.
  induction s as [|x s IH]; simpl; [apply incl_refl|].
  destruct (p x); [apply incl_tl; exact IH | apply incl_refl].
Qed.

Lemma inert_facts (c : codeunit) :
  Spec.inert c = true ->
  is_mul_rhs c = false
  /\ cu_eqb (chr "(") c = false /\ cu_eqb (chr ")") c = false
  /\ cu_eqb (chr "%") c = false
  /\ cu_eqb MULTIPLICATION_SIGN c = false /\ cu_eqb DIVISION_SIGN c = false
  /\ cu_eqb SUPERSCRIPT_TWO c = false /\ cu_eqb GREEK_PI c = false.
Proof.
  unfold Spec.inert, is_mul_rhs. rewrite negb_true_iff, !orb_false_iff.
  unfold cu_eqb. rewrite !(N.eqb_sym c). intros H.
  decompose [and] H. repeat split; assumption.
Qed.

(** X20.  An expression without letters, parentheses, percent signs and
    glyphs is handed to the evaluator as it is: digits, points, the four
    operators, white space and the like are never touched. *)
Theorem sanitize_leaves_inert_expressions (e : jsstring) :
  forallb Spec.inert e = true -> sanitizeExpressionForEval e = e.
Proof.
  intros He. rewrite sanitize_pipeline.
  assert (A : forall s, incl s e ->
             glyph_pass s = s /\ square_pass s = s /\ implicit_mul_pass s = s
             /\ paren_pass s = s /\ pi_pass s = s /\ percent_pass s = s).
  { rewrite forallb_forall in He.
    induction s as [|x s IH]; intros Hs; [repeat split; reflexivity|].
    assert (Hx : Spec.inert x = true) by (apply He, Hs; left; reflexivity).
    assert (Hs' : incl s e) by (intros y Hy; apply Hs; right; exact Hy).
    destruct (IH Hs') as (I1 & I2 & I3 & I4 & I5 & I6).
    destruct (inert_facts x Hx) as (_ & _ & Hc & _ & H1 & H2 & H3 & H4).
    rewrite glyph_pass_cons, square_pass_cons, pi_pass_cons.
    rewrite H1, H2, H3, H4, (paren_skip x s Hc), I1, I2, I4, I5.
    cbn [app].
    assert (In_s : forall p c r, drop_while p s = c :: r ->
                     Spec.inert c = true
                     /\ forall y, In y r -> Spec.inert y = true).
    { intros p c r E. pose proof (@drop_while_incl p s) as Hi.
      rewrite E in Hi. split.
      - apply He, Hs'. apply Hi. left. reflexivity.
      - intros y Hy. apply He, Hs'. apply Hi. right. exact Hy. }
    repeat split.
    - unfold implicit_mul_pass. rewrite replace_all_skip.
      + fold (implicit_mul_pass s). rewrite I3. reflexivity.
      + rewrite exec_implicit_mul. destruct (is_digit x); [|reflexivity].
        destruct (drop_while is_space s) as [|c r] eqn:E; [reflexivity|].
        destruct (In_s _ _ _ E) as [Hc' _].
        destruct (inert_facts c Hc') as (-> & _). reflexivity.
    - unfold percent_pass. rewrite replace_all_skip.
      + fold (percent_pass s). rewrite I6. reflexivity.
      + rewrite exec_percent. destruct (is_digit x); [|reflexivity].
        cbv zeta.
        destruct (drop_while is_digit s) as [|c1 r1] eqn:E1; [reflexivity|].
        destruct (In_s _ _ _ E1) as [Hc1 Hr1].
        destruct (inert_facts c1 Hc1) as (_ & _ & _ & Hp1 & _).
        rewrite Hp1.
        destruct (cu_eqb (chr ".") c1); [|reflexivity].
        destruct r1 as [|d2 u]; [reflexivity|].
        destruct (is_digit d2); [|reflexivity].
        destruct (drop_while is_digit u) as [|c3 r3] eqn:E3; [reflexivity|].
        assert (Hc3 : Spec.inert c3 = true).
        { apply Hr1. right. apply (@drop_while_incl is_digit u).
          rewrite E3. left. reflexivity. }
        destruct (inert_facts c3 Hc3) as (_ & _ & _ & -> & _).
        reflexivity. }
  destruct (A e (incl_refl e)) as (-> & -> & -> & -> & -> & ->).
  reflexivity.
Qed.

Lemma sanitize_leaves_inert_expressions_witness :
  sanitizeExpressionForEval (str "12.5 + 3*4/2 - 7^2") = str "12.5 + 3*4/2 - 7^2".
Proof.
  apply sanitize_leaves_inert_expressions. reflexivity.
Defined.

(** **** The glyphs are gone *)

Lemma take_while_incl (p : codeunit -> bool) (s : jsstring) :
  incl (take_while p s) s.
Proof.
  induction s as [|x s IH]; simpl; [apply incl_refl|].
  destruct (p x); [|intros y []].
  intros y [<-|Hy]; [left; reflexivity | right; apply IH, Hy].
Qed.

(** A replacement that writes only characters with a property the
    string has keeps the property. *)
Lemma replace_from_keeps (r : regex) (f : jsstring -> captures -> jsstring)
    (P : codeunit -> Prop) :
  (forall s m cs rest, exec r s = Some (m, cs, rest) ->
     Forall P s -> Forall P (f m cs)) ->
  forall (s : jsstring) (n : nat),
    Forall P s -> Forall P (replace_from r f n s).
Proof.
  intros Hf s. induction s as [|c s IH]; intros n Hs.
  - simpl. destruct n; [|constructor].
    destruct (exec r []) as [[[m cs] rest]|] eqn:E; [|constructor].
    exact (Hf _ _ _ _ E Hs).
  - pose proof (Forall_inv Hs) as Hc. pose proof (Forall_inv_tail Hs) as Ht.
    destruct n as [|n]; [|simpl; apply IH, Ht].
    rewrite replace_from_cons.
    destruct (exec r (c :: s)) as [[[m cs] rest]|] eqn:E.
    + apply Forall_app. split; [exact (Hf _ _ _ _ E Hs)|].
      destruct (List.length m); [constructor; [exact Hc|]|]; apply IH, Ht.
    + constructor; [exact Hc | apply IH, Ht].
Qed.

Section Keeping.

Variable P : codeunit -> Prop.
Hypothesis ascii : forall c : codeunit, (c < 128)%N -> P c.

Lemma implicit_mul_keeps (s : jsstring) :
  Forall P s -> Forall P (implicit_mul_pass s).
Proof.
  apply replace_from_keeps. clear s. intros s m cs rest E Hs.
  rewrite exec_implicit_mul in E. destruct s as [|d t]; [discriminate|].
  destruct (is_digit d); [|discriminate].
  destruct (drop_while is_space t) as [|c t'] eqn:D; [discriminate|].
  destruct (is_mul_rhs c); [|discriminate]. injection E as <- <- <-.
  rewrite Forall_forall in Hs.
  change (capture 1 [(2%nat, [c]); (1%nat, [d])]) with [d].
  change (capture 2 [(2%nat, [c]); (1%nat, [d])]) with [c].
  repeat constructor.
  - apply Hs. left. reflexivity.
  - apply ascii. reflexivity.
  - apply Hs. right. apply (@drop_while_incl is_space t). rewrite D.
    left. reflexivity.
Qed.

Lemma paren_keeps (s : jsstring) : Forall P s -> Forall P (paren_pass s).
Proof.
  apply replace_from_keeps. intros s0 m cs rest _ _.
  repeat constructor; apply ascii; reflexivity.
Qed.

Lemma percent_keeps (s : jsstring) : Forall P s -> Forall P (percent_pass s).
Proof.
  apply replace_from_keeps. clear s. intros s m cs rest E Hs.
  pose proof (exec_split _ _ E) as Hsplit.
  assert (Hm : Forall P m).
  { rewrite Hsplit in Hs. apply Forall_app in Hs. apply Hs. }
  assert (Hcap : exists t, m = capture 1 cs ++ t).
  { rewrite exec_percent in E. destruct s as [|d t]; [discriminate|].
    destruct (is_digit d); [|discriminate]. cbv zeta in E.
    destruct (drop_while is_digit t) as [|c1 r1]; [discriminate|].
    destruct (cu_eqb (chr ".") c1).
    - destruct r1 as [|d2 u]; [discriminate|].
      destruct (is_digit d2); [|discriminate].
      destruct (drop_while is_digit u) as [|c3 r3]; [discriminate|].
      destruct (cu_eqb (chr "%") c3); [|discriminate].
      injection E as <- <- <-. exists [c3].
      unfold capture. cbn [find fst snd Nat.eqb app].
      rewrite <- app_assoc. reflexivity.
    - destruct (cu_eqb (chr "%") c1); [|discriminate].
      injection E as <- <- <-. exists [c1]. reflexivity. }
  destruct Hcap as [t Ht]. rewrite Ht in Hm. apply Forall_app in Hm.
  constructor; [apply ascii; reflexivity|].
  apply Forall_app. split; [apply Hm|].
  repeat constructor; apply ascii; reflexivity.
Qed.

End Keeping.

(** Replacing a glyph removes it, and brings no other glyph in. *)
Lemma replace_Lit_removes (g : codeunit) (t : jsstring)
    (P : codeunit -> Prop) (s : jsstring) :
  Forall (fun c => P c /\ cu_eqb g c = false) t ->
  Forall P s ->
  Forall (fun c => P c /\ cu_eqb g c = false)
         (replace_all (Lit g) (constant t) s).
Proof.
  intros Ht. induction s as [|x s IH]; intros Hs; [constructor|].
  rewrite replace_Lit_cons. apply Forall_app.
  split; [|apply IH, (Forall_inv_tail Hs)].
  destruct (cu_eqb g x) eqn:E; [exact Ht|].
  constructor; [|constructor]. split; [exact (Forall_inv Hs) | exact E].
Qed.

(** X21.  Whatever the input, the expression the evaluator gets contains none
    of the four glyphs: no multiplication sign, no division sign, no
    superscript two and no pi. *)
Theorem sanitize_removes_glyphs (e : jsstring) :
  Forall (fun c => Spec.is_glyph c = false) (sanitizeExpressionForEval e).
Proof.
  rewrite sanitize_pipeline.
  set (P1 := fun c : codeunit => True /\ cu_eqb MULTIPLICATION_SIGN c = false).
  set (P2 := fun c : codeunit => P1 c /\ cu_eqb DIVISION_SIGN c = false).
  set (P3 := fun c : codeunit => P2 c /\ cu_eqb SUPERSCRIPT_TWO c = false).
  set (P4 := fun c : codeunit => P3 c /\ cu_eqb GREEK_PI c = false).
  assert (A3 : forall c : codeunit, (c < 128)%N -> P3 c).
  { intros c Hc. unfold P3, P2, P1, cu_eqb, MULTIPLICATION_SIGN,
      DIVISION_SIGN, SUPERSCRIPT_TWO.
    repeat split; apply N.eqb_neq; lia. }
  assert (A4 : forall c : codeunit, (c < 128)%N -> P4 c).
  { intros c Hc. split; [apply A3, Hc|]. apply N.eqb_neq.
    unfold GREEK_PI. lia. }
  assert (H1 : Forall P1 (replace_all RE_TIMES (constant (str "*")) e)).
  { apply (@replace_Lit_removes MULTIPLICATION_SIGN (str "*")
             (fun _ => True) e).
    - repeat constructor.
    - apply Forall_forall. intros; exact I. }
  assert (H2 : Forall P2 (glyph_pass e)).
  { unfold glyph_pass.
    apply (@replace_Lit_removes DIVISION_SIGN (str "/") P1 _);
      [repeat constructor | exact H1]. }
  assert (H3 : Forall P3 (square_pass (glyph_pass e))).
  { apply (@replace_Lit_removes SUPERSCRIPT_TWO (str "^2") P2 _);
      [repeat constructor | exact H2]. }
  pose proof (paren_keeps A3 (implicit_mul_keeps A3 H3)) as H5.
  assert (H6 : Forall P4 (pi_pass (paren_pass (implicit_mul_pass
                             (square_pass (glyph_pass e)))))).
  { apply (@replace_Lit_removes GREEK_PI (str "pi") P3 _);
      [repeat constructor | exact H5]. }
  pose proof (percent_keeps A4 H6) as H7.
  revert H7. apply Forall_impl. unfold P4, P3, P2, P1.
  intros c [[[[_ G1] G2] G3] G4].
  unfold Spec.is_glyph, cu_eqb in *. rewrite !(N.eqb_sym c).
  rewrite G1, G2, G3, G4. reflexivity.
Qed.

Lemma implicit_multiplication_across_spaces_witness :
  sanitizeExpressionForEval
    (str "1+" ++ chr "2" :: str "  " ++ chr "x" :: str "+3")
  = sanitizeExpressionForEval (str "1+")
    ++ chr "2" :: chr "*" :: sanitizeExpressionForEval (chr "x" :: str "+3").
Proof.
  destruct (@implicit_multiplication_across_spaces
              (str "1+") (str "  ") (str "+3") eq_refl) as [H _].
  apply H; reflexivity.
Defined.

End SanitizeMoreFacts.

(* ================================================================== *)
(** ** Part XI: the GraphingTool component                             *)
(* ================================================================== *)

Module GraphFacts.

Import GraphingTool JSFacts.

Local Open Scope Z_scope.

Section Plot.

Context {PS : Parser}.

Lemma sample_loop_unfold (fuel : nat) (expression : jsstring)
    (start stepSize steps : number) (i : Z) (data : list point) :
  sample_loop fuel expression start stepSize steps i data =
  if le (of_Z i) steps then
    match fuel with
    | O => None
    | S fuel' =>
        let x := add start (mul (of_Z i) stepSize) in
        let y := evaluateFunction expression x in
        sample_loop fuel' expression start stepSize steps (i + 1)
          (if plottable y then data ++ [{| px := x; py := y |}] else data)
    end
  else Some data.
Proof. destruct fuel; reflexivity. Qed.

(** What the loop adds to the data: points of the graph at sample
    abscissas from [i] on, in the order of the samples, each with a
    plottable ordinate. *)
Lemma sample_loop_points (fuel : nat) (expression : jsstring)
    (start stepSize steps : number) :
  forall (i : Z) (data out : list point),
    sample_loop fuel expression start stepSize steps i data = Some out ->
    exists js : list Z,
      out = data
            ++ List.map
                 (fun j =>
                    {| px := add start (mul (of_Z j) stepSize);
                       py := evaluateFunction expression
                               (add start (mul (of_Z j) stepSize)) |}) js
      /\ Sorted.StronglySorted Z.lt js
      /\ Forall (fun j => i <= j /\ le (of_Z j) steps = true
                          /\ plottable
                               (evaluateFunction expression
                                  (add start (mul (of_Z j) stepSize)))
                             = true) js.
Proof.
  induction fuel as [|fuel IH]; intros i data out H;
    rewrite sample_loop_unfold in H;
    destruct (le (of_Z i) steps) eqn:L; try discriminate H;
    try (injection H as <-; exists []; rewrite app_nil_r;
         split; [reflexivity|]; split; constructor).
  cbv zeta in H. apply IH in H. destruct H as (js & Hout & Hsorted & Hall).
  destruct (plottable _) eqn:Pl.
  - exists (i :: js). split; [|split].
    + rewrite Hout, <- app_assoc. reflexivity.
    + constructor; [exact Hsorted|].
      revert Hall. apply Forall_impl. intros j (Hj & _). lia.
    + constructor; [split; [lia|split; assumption]|].
      revert Hall. apply Forall_impl. intros j (Hj & Hrest).
      split; [lia | exact Hrest].
  - exists js. split; [exact Hout|]. split; [exact Hsorted|].
    revert Hall. apply Forall_impl. intros j (Hj & Hrest).
    split; [lia | exact Hrest].
Qed.

Lemma sample_loop_returns (expression : jsstring) (start stepSize : number)
    (s : Q) (fuel : nat) :
  forall (i : Z) (data : list point),
    Qfloor s - i + 1 <= Z.of_nat fuel ->
    exists out,
      sample_loop fuel expression start stepSize (Fin s) i data = Some out.
Proof.
  induction fuel as [|fuel IH]; intros i data Hf;
    rewrite sample_loop_unfold;
    destruct (le (of_Z i) (Fin s)) eqn:L; eauto.
  - exfalso. apply Qle_bool_iff in L.
    apply Qfloor_resp_le in L. rewrite Qfloor_Z in L. lia.
  - cbv zeta. apply IH. lia.
Qed.

Lemma sample_loop_for_ever (expression : jsstring) (start stepSize : number)
    (fuel : nat) :
  forall (i : Z) (data : list point),
    sample_loop fuel expression start stepSize PosInf i data = None.
Proof.
  induction fuel as [|fuel IH]; intros i data; rewrite sample_loop_unfold;
    change (le (of_Z i) PosInf) with true; cbv iota; [reflexivity|].
  cbv zeta. apply IH.
Qed.

(** **** The sort *)

Lemma insert_by_x_In (p q : point) (l : list point) :
  In q (insert_by_x p l) <-> q = p \/ In q l.
Proof.
  induction l as [|r l IH]; simpl; [intuition congruence|].
  destruct (lt (sub (px r) (px p)) (of_Z 0)); simpl; [|intuition congruence].
  rewrite IH. intuition congruence.
Qed.

Lemma sort_by_x_In (q : point) (l : list point) :
  In q (sort_by_x l) <-> In q l.
Proof.
  induction l as [|p l IH]; simpl; [tauto|].
  rewrite insert_by_x_In, IH. intuition congruence.
Qed.

Lemma insert_by_x_length (p : point) (l : list point) :
  List.length (insert_by_x p l) = S (List.length l).
Proof.
  induction l as [|r l IH]; simpl; [reflexivity|].
  destruct (lt (sub (px r) (px p)) (of_Z 0)); simpl; [rewrite IH|];
    reflexivity.
Qed.

Lemma sort_by_x_length (l : list point) :
  List.length (sort_by_x l) = List.length l.
Proof.
  induction l as [|p l IH]; simpl; [reflexivity|].
  rewrite insert_by_x_length, IH. reflexivity.
Qed.

(** The sort leaves a list alone in which no point is followed by one
    further to the left. *)
Lemma sort_by_x_sorted (l : list point) :
  StronglySorted (fun p q => lt (sub (px q) (px p)) (of_Z 0) = false) l ->
  sort_by_x l = l.
Proof.
  induction 1 as [|p l Hs IH Hall]; [reflexivity|].
  simpl. rewrite IH. destruct l as [|q l]; [reflexivity|]. simpl.
  rewrite (Forall_inv Hall). reflexivity.
Qed.

Lemma sorted_indices_count (js : list Z) :
  forall a b : Z,
    StronglySorted Z.lt js -> Forall (fun j => a <= j <= b) js ->
    Z.of_nat (List.length js) <= Z.max 0 (b - a + 1).
Proof.
  induction js as [|j js IH]; intros a b Hs Hall; [simpl; lia|].
  apply StronglySorted_inv in Hs. destruct Hs as [Hs Hlt].
  pose proof (Forall_inv Hall) as Hj. cbv beta in Hj.
  apply Forall_inv_tail in Hall.
  assert (Hall' : Forall (fun x => j + 1 <= x <= b) js).
  { rewrite Forall_forall in *. intros x Hx.
    specialize (Hlt x Hx). specialize (Hall x Hx). lia. }
  specialize (IH (j + 1) b Hs Hall'). cbn [List.length].
  rewrite Nat2Z.inj_succ. lia.
Qed.

(** **** generateFunctionData *)


Lemma map_strongly_sorted (A B : Type) (R : A -> A -> Prop)
    (S : B -> B -> Prop) (f : A -> B) (l : list A) :
  (forall x y, R x y -> S (f x) (f y)) ->
  StronglySorted R l -> StronglySorted S (List.map f l).
Proof.
  intros Hf. induction 1 as [|x l Hs IH Hall]; simpl; constructor.
  - exact IH.
  - apply Forall_forall. intros y Hy. apply in_map_iff in Hy.
    destruct Hy as (z & <- & Hz). rewrite Forall_forall in Hall.
    apply Hf, Hall, Hz.
Qed.



End Plot.

(** **** What the parser is given *)

Section Prepare.

Import Regex StringFacts.

Lemma match_star_greedy (A : Type) (p : codeunit -> bool) (k : cont A) :
  (forall s cs, exists x, k s cs = Some x) ->
  forall s cs, match_star p s cs k = k (drop_while p s) cs.
Proof.
  intros Hk s cs. induction s as [|c s IH]; simpl; [reflexivity|].
  destruct (p c); [|reflexivity].
  rewrite IH. destruct (Hk (drop_while p s) cs) as [x ->]. reflexivity.
Qed.

Lemma space_is_no_equals (c : codeunit) :
  is_space c = true -> cu_eqb (chr "=") c = false.
Proof. intros H. cu_cases. Qed.

(** [/^y\s*=\s*/]: the letter, the equals sign and the white space
    around the sign. *)
Lemma exec_y_equals (s : jsstring) :
  exec RE_Y_EQUALS s =
  match s with
  | c0 :: t =>
      if cu_eqb (chr "y") c0 then
        match drop_while is_space t with
        | c :: t' =>
            if cu_eqb (chr "=") c
            then Some (c0 :: take_while is_space t
                          ++ c :: take_while is_space t',
                       [], drop_while is_space t')
            else None
        | [] => None
        end
      else None
  | [] => None
  end.
Proof.
  unfold exec, RE_Y_EQUALS, Lit. destruct s as [|c0 t]; [reflexivity|].
  cbn [rmatch]. destruct (cu_eqb (chr "y") c0); [|reflexivity].
  rewrite match_star_commit.
  - pose proof (take_drop_while is_space t) as Ht.
    destruct (drop_while is_space t) as [|c t'] eqn:E; [reflexivity|].
    cbn [rmatch]. destruct (cu_eqb (chr "=") c); [|reflexivity].
    rewrite match_star_greedy by (intros; eexists; reflexivity).
    pose proof (take_drop_while is_space t') as Ht'.
    rewrite (@firstn_len_sub _ (c0 :: t)
               (c0 :: take_while is_space t ++ c :: take_while is_space t')
               (drop_while is_space t')).
    + reflexivity.
    + rewrite <- Ht at 1. rewrite <- Ht' at 1. simpl.
      rewrite <- app_assoc. reflexivity.
  - intros c s0 cs Hc. cbn [rmatch].
    rewrite (space_is_no_equals c Hc). reflexivity.
Qed.

Lemma trim_start_spaces (ws s : jsstring) :
  forallb is_space ws = true -> trim_start (ws ++ s) = trim_start s.
Proof.
  induction ws as [|x ws IH]; intros H; [reflexivity|].
  simpl in H. apply andb_true_iff in H. destruct H as [Hx Hws].
  simpl. rewrite Hx. exact (IH Hws).
Qed.

Lemma forallb_rev (p : codeunit -> bool) (l : jsstring) :
  forallb p l = true -> forallb p (rev l) = true.
Proof.
  rewrite !forallb_forall. intros H x Hx. apply H, in_rev, Hx.
Qed.

(** White space around a text that neither starts nor ends with white
    space is what [trim] removes. *)
Lemma trim_spaces (ws0 ws3 : jsstring) (h : codeunit) (t : jsstring) :
  forallb is_space ws0 = true -> forallb is_space ws3 = true ->
  is_space h = false ->
  Spec.ends_in (fun x => negb (is_space x)) (h :: t) ->
  trim (ws0 ++ (h :: t) ++ ws3) = h :: t.
Proof.
  intros H0 H3 Hh He. unfold trim.
  rewrite (@trim_start_spaces ws0 _ H0). cbn [app trim_start]. rewrite Hh.
  change (h :: t ++ ws3) with ((h :: t) ++ ws3).
  rewrite rev_app_distr, (@trim_start_spaces (rev ws3) _ (@forallb_rev _ ws3 H3)).
  destruct (exists_last (l := h :: t) ltac:(discriminate)) as (l & z & E).
  rewrite E, rev_app_distr. cbn [rev app trim_start].
  assert (Hz : is_space z = false).
  { apply negb_true_iff. apply (He l z E). }
  rewrite Hz. change (z :: rev l) with (rev [z] ++ rev l).
  rewrite <- rev_app_distr, rev_involutive. reflexivity.
Qed.

Lemma ends_in_app (good : codeunit -> bool) (a e : jsstring) :
  e <> [] -> Spec.ends_in good e -> Spec.ends_in good (a ++ e).
Proof.
  intros Hne He s' x E.
  destruct (exists_last Hne) as (l & z & El). subst e.
  rewrite app_assoc in E. apply app_inj_tail in E. destruct E as [_ <-].
  apply (He l z eq_refl).
Qed.

(** X24.  The prefix [y =] is optional, and white space does not matter around
    it, before the expression or after it: with or without them the
    parser is given the expression itself, in which every superscript two
    has become [^2] and every [x] after a digit has got its [*]. *)
Theorem prepare_drops_the_prefix (ws0 ws1 ws2 ws3 : jsstring)
    (h : codeunit) (t : jsstring) :
  forallb is_space ws0 = true -> forallb is_space ws1 = true ->
  forallb is_space ws2 = true -> forallb is_space ws3 = true ->
  is_space h = false ->
  Spec.ends_in (fun x => negb (is_space x)) (h :: t) ->
  let body :=
    replace_all RE_DIGIT_X (fun _ cs => capture 1 cs ++ str "*x")
      (replace_all Calculator.RE_SQUARED (Calculator.constant (str "^2"))
         (h :: t)) in
  prepare (ws0 ++ (chr "y" :: ws1 ++ chr "=" :: ws2 ++ h :: t) ++ ws3) = body
  /\ (cu_eqb (chr "y") h = false ->
      prepare (ws0 ++ (h :: t) ++ ws3) = body).
Proof.
  intros H0 H1 H2 H3 Hh He body. split.
  - unfold prepare.
    rewrite (@trim_spaces ws0 ws3 (chr "y") (ws1 ++ chr "=" :: ws2 ++ h :: t)
               H0 H3 eq_refl).
    2:{ replace (chr "y" :: ws1 ++ chr "=" :: ws2 ++ h :: t)
          with ((chr "y" :: ws1 ++ chr "=" :: ws2) ++ h :: t)
          by (cbn [app]; rewrite <- app_assoc; reflexivity).
        apply ends_in_app; [discriminate | exact He]. }
    unfold replace_prefix. rewrite exec_y_equals.
    change (cu_eqb (chr "y") (chr "y")) with true. cbv iota.
    destruct (@take_while_stop is_space ws1 (chr "=") (ws2 ++ h :: t) H1
                eq_refl) as [_ ->].
    change (cu_eqb (chr "=") (chr "=")) with true. cbv iota.
    destruct (@take_while_stop is_space ws2 h t H2 Hh) as [_ ->].
    reflexivity.
  - intros Hy. unfold prepare.
    rewrite (@trim_spaces ws0 ws3 h t H0 H3 Hh He).
    unfold replace_prefix. rewrite exec_y_equals, Hy. reflexivity.
Qed.

End Prepare.



Lemma prepare_drops_the_prefix_witness :
  prepare (str " y =2x ") = str "2*x"
  /\ prepare (str " 2x ") = str "2*x".
Proof.
  assert (He : Spec.ends_in (fun x => negb (is_space x)) (chr "2" :: str "x")).
  { intros s' x E. change (chr "2" :: str "x") with ([chr "2"] ++ [chr "x"]) in E.
    apply app_inj_tail in E. destruct E as [_ <-]. reflexivity. }
  destruct (@prepare_drops_the_prefix (str " ") (str " ") [] (str " ")
              (chr "2") (str "x") eq_refl eq_refl eq_refl eq_refl eq_refl He)
    as [H1 H2].
  split; [exact H1 | exact (H2 eq_refl)].
Defined.

End GraphFacts.
